(** * DST command manager: the image cache, the resolver, the storage
    adapter and the entity handlers

  A shallow embedding of [src/dst-command-manager.tsx] (first component of
  the file) and of [src/dst-cmd-manager/components/storage-adapter.ts].

  Conventions of the embedding.
  - A JavaScript string is a [string]: the bytes of its UTF-8 encoding.
    A string is truthy when it is not the empty string.
  - [null] and [undefined] results are [None].
  - A JavaScript [Map] is an association list in insertion order.
  - [localStorage] is a finite map from keys to values; what the host
    decides (the order in which keys are listed, whether a write is
    accepted, the Unicode tables, the JSON codec) is a field of the
    class [Host]. *)

From stdpp Require Import base option list strings pretty gmap sorting.
From Stdlib Require Import ZArith Lia.

Local Open Scope string_scope.
Local Open Scope nat_scope.
Local Open Scope list_scope.

(** ** JavaScript values *)

(** Truthiness of a string: [if (s)], [s || d], [!s]. *)
Definition truthy (s : string) : bool := bool_decide (s ≠ "").

(** [o || null] for an optional string. *)
Definition or_null (o : option string) : option string :=
  match o with
  | Some s => if truthy s then Some s else None
  | None => None
  end.

(** How a block ends: with a value, or with a thrown error. *)
Inductive completion (A : Type) : Type :=
| returns (a : A)
| throws (message : string).
Arguments returns {A} a.
Arguments throws {A} message.

(** ** [Map<string, string>], in insertion order *)

Module JsMap.

Abbreviation t := (list (string * string)).

Definition empty : t := [].

Definition size (m : t) : nat := length m.

Fixpoint get (m : t) (key : string) : option string :=
  match m with
  | [] => None
  | (k, v) :: rest => if decide (k = key) then Some v else get rest key
  end.

(** [Map.prototype.set]: an existing key keeps its position, a new key
    goes last. *)
Fixpoint set (m : t) (key value : string) : t :=
  match m with
  | [] => [(key, value)]
  | (k, v) :: rest =>
      if decide (k = key) then (key, value) :: rest
      else (k, v) :: set rest key value
  end.

Definition delete (m : t) (key : string) : t :=
  filter (λ kv, kv.1 ≠ key) m.

(** [m.keys().next().value]: the first key in insertion order. *)
Definition first_key (m : t) : option string := head (m.*1).

End JsMap.

(** ** [class ImageCacheManager] *)

Module ImageCacheManager.

Abbreviation t := (list (string * string)).

Definition maxCacheSize : nat := 100.

Definition empty : t := JsMap.empty.

(** [get(key)]: [this.memoryCache.get(key) || null]. *)
Definition get (c : t) (key : string) : option string :=
  or_null (JsMap.get c key).

(** The eviction step of [set]: when the cache is full the first key is
    deleted, if that key is truthy. *)
Definition evict (c : t) : t :=
  if decide (maxCacheSize ≤ JsMap.size c) then
    match JsMap.first_key c with
    | Some firstKey =>
        if truthy firstKey then JsMap.delete c firstKey else c
    | None => c
    end
  else c.

Definition set (c : t) (key value : string) : t :=
  JsMap.set (evict c) key value.

Definition clear (c : t) : t := JsMap.empty.

(** A sequence of [set] calls. *)
Definition set_all (c : t) (kvs : list (string * string)) : t :=
  foldl (λ c kv, set c kv.1 kv.2) c kvs.

(** Operations on the cache, for runs. *)
Inductive op : Type :=
| OpGet (key : string)
| OpSet (key value : string)
| OpClear.

Definition step (c : t) (o : op) : t :=
  match o with
  | OpGet _ => c
  | OpSet k v => set c k v
  | OpClear => clear c
  end.

Definition run (c : t) (ops : list op) : t := foldl step c ops.

(** [removes c o key]: operation [o], run in cache [c], removes the entry
    of [key]: a [clear()], or a [set] whose eviction step deletes
    [key]. *)
Definition removes (c : t) (o : op) (key : string) : bool :=
  match o with
  | OpGet _ => false
  | OpSet _ _ =>
      bool_decide (maxCacheSize ≤ JsMap.size c) &&
      bool_decide (JsMap.first_key c = Some key) && truthy key
  | OpClear => true
  end.

(** [writes o key]: operation [o] is a [set] on [key]. *)
Definition writes (o : op) (key : string) : bool :=
  match o with
  | OpSet k _ => bool_decide (k = key)
  | _ => false
  end.

(** No operation of the run removes or rewrites the entry of [key]. *)
Fixpoint kept (c : t) (ops : list op) (key : string) : bool :=
  match ops with
  | [] => true
  | o :: rest =>
      negb (removes c o key) && negb (writes o key) &&
      kept (step c o) rest key
  end.

End ImageCacheManager.

(** ** Records of the program *)

(** [interface CacheEntry]. *)
Module CacheEntry.
Record t : Type := mk { url : string; timestamp : Z }.
End CacheEntry.

(** [interface Tag]. *)
Module Tag.
Record t : Type := mk { id : Z; name : string; color : string }.
End Tag.

(** [interface Command]. *)
Module Command.
Record t : Type := mk {
  id : Z;
  name : string;
  command : string;
  image : string;
  tags : list string;
  category : option string;
  favorite : bool
}.
End Command.

(** ** The answers of the wiki

    The body of a reply, as far as [fetchDSTImage] looks into it:
    [data.query?.pages], [Object.values(pages)[0]],
    [page?.imageinfo?.[0]?.url]. An absent field is [None]. *)
Record ImageInfo : Type := { ii_url : option string }.
Record Page : Type := { imageinfo : option (list ImageInfo) }.
Record Query : Type := { pages : option (list Page) }.
Record ApiData : Type := { query : option Query }.

Inductive Response : Type :=
| NetworkError
    (** [fetch] rejects *)
| Reply (ok : bool) (json : option ApiData)
    (** a response; [json = None] when [response.json()] rejects or yields
        [null], so that reading [data.query] throws *).

(** ** The host

    Everything the browser decides. The clock and the network are oracles:
    [Date_now n] is the [n]-th reading of the clock, and [fetch history url]
    is the answer to a request for [url] issued after the requests
    [history]. *)
Class Host : Type := {
  toLowerCase : string → string;
  trim : string → string;
  Date_now : nat → Z;
  fetch : list string → string → Response;
  (** the order of [localStorage.key(i)] *)
  storage_keys : gmap string string → list string;
  (** whether [localStorage.setItem(key, value)] stores the value
      ([true]) or throws *)
  storage_accepts : gmap string string → string → string → bool;
  (** whether [window.storage] is set *)
  window_storage : bool;
  JSON_stringify_entry : CacheEntry.t → string;
  JSON_parse_entry : string → option CacheEntry.t;
  JSON_stringify_tag : Tag.t → string;
  JSON_parse_tag : string → option Tag.t;
  JSON_stringify_command : Command.t → string;
  JSON_parse_command : string → option Command.t
}.

(** [localStorage.key(i)] enumerates the keys of the store, each once. *)
Definition keys_enumerated `{Host} : Prop :=
  ∀ ls : gmap string string,
    NoDup (storage_keys ls) ∧ ∀ k, k ∈ storage_keys ls ↔ is_Some (ls !! k).

(** ** Strings *)

(** [String(n)] for an integer. *)
Definition number_to_string (n : Z) : string := pretty n.

(** [s.startsWith(p)]. *)
Definition startsWith (s p : string) : bool := String.prefix p s.

(** [s.substring(n)]. *)
Fixpoint substring_from (n : nat) (s : string) : string :=
  match n, s with
  | O, _ => s
  | S n', String _ s' => substring_from n' s'
  | S _, EmptyString => EmptyString
  end.

(** [new Blob([s]).size]: the number of bytes of the UTF-8 encoding. *)
Definition blob_size (s : string) : N := N.of_nat (String.length s).

(** [n] copies of a character. *)
Fixpoint string_repeat (c : Ascii.ascii) (n : nat) : string :=
  match n with
  | O => EmptyString
  | S n' => String c (string_repeat c n')
  end.

(** [encodeURIComponent] on the bytes of a well-formed string: the
    unreserved characters are kept, every other byte becomes [%XX]. *)
Definition is_unreserved (c : Ascii.ascii) : bool :=
  let n := Ascii.N_of_ascii c in
  ((65 <=? n) && (n <=? 90) || (97 <=? n) && (n <=? 122) ||
   (48 <=? n) && (n <=? 57) ||
   bool_decide (n ∈ [45; 95; 46; 33; 126; 42; 39; 40; 41]))%N.

Definition hex_digit (d : N) : Ascii.ascii :=
  Ascii.ascii_of_N (if (d <? 10)%N then 48 + d else 55 + d).

Fixpoint encodeURIComponent (s : string) : string :=
  match s with
  | EmptyString => EmptyString
  | String c rest =>
      if is_unreserved c then String c (encodeURIComponent rest)
      else
        let n := Ascii.N_of_ascii c in
        String (Ascii.ascii_of_N 37)
          (String (hex_digit (n / 16)) (String (hex_digit (n mod 16))
             (encodeURIComponent rest)))
  end.

(** ** The state of the world *)

Record World : Type := mkWorld {
  (** the items of [localStorage] *)
  localStorage : gmap string string;
  (** [imageCacheManager] *)
  memoryCache : ImageCacheManager.t;
  (** the URLs requested with [fetch] so far, oldest first *)
  requests : list string;
  (** the number of readings of the clock so far *)
  ticks : nat;
  (** the calls [window.storage.set(key, value)] of the component so far,
      oldest first *)
  set_calls : list (string * string)
}.

Definition with_localStorage (ls : gmap string string) (w : World) : World :=
  mkWorld ls (memoryCache w) (requests w) (ticks w) (set_calls w).

Definition with_memoryCache (c : ImageCacheManager.t) (w : World) : World :=
  mkWorld (localStorage w) c (requests w) (ticks w) (set_calls w).

(** [Date.now()]. *)
Definition now `{Host} (w : World) : Z * World :=
  (Date_now (ticks w),
   mkWorld (localStorage w) (memoryCache w) (requests w) (S (ticks w))
     (set_calls w)).

(** [await fetch(url)]. *)
Definition request `{Host} (url : string) (w : World) : Response * World :=
  (fetch (requests w) url,
   mkWorld (localStorage w) (memoryCache w) (requests w ++ [url]) (ticks w)
     (set_calls w)).

(** ** [class StorageAdapter] ([storage-adapter.ts])

    [setItem] throws when the host refuses the value. [list], [get] and
    [getStorageInfo] are modelled on a store whose reads return. [delete]
    and [clear] carry the faults of the store: a [removeItem], or a read
    of [length] and [key], that throws into the [catch] of the method. *)

(** The faults of [localStorage]: for a store, whether the reads of
    [length] and [key(i)] throw, and whether [removeItem(key)] throws. *)
Record Faults : Type := mkFaults {
  keys_throw : gmap string string → bool;
  removeItem_throws : gmap string string → string → bool
}.

(** A store that is accessible: nothing throws. *)
Definition no_faults : Faults := mkFaults (λ _, false) (λ _ _, false).

Module StorageAdapter.

Definition prefix : string := "dst_app_".

Definition quota : N := 4800000.

Definition get (key : string) (w : World) : option string :=
  localStorage w !! (prefix +:+ key).

(** The [try] block of [set(key, value)]: it throws for an empty value,
    returns [false] for a value over the quota before it touches
    [localStorage], and throws when [setItem] does. *)
Definition set_try `{Host} (key value : string) (w : World)
  : completion bool * World :=
  if negb (truthy value) then (throws "Value must be a non-empty string", w)
  else if (quota <? blob_size value)%N then (returns false, w)
  else
    let fullKey := prefix +:+ key in
    if storage_accepts (localStorage w) fullKey value
    then (returns true,
          with_localStorage (<[fullKey := value]> (localStorage w)) w)
    else (throws "QuotaExceededError", w).

(** [set(key, value)]: the [catch] turns every error into [false]. *)
Definition set `{Host} (key value : string) (w : World) : bool * World :=
  match set_try key value w with
  | (returns result, w) => (result, w)
  | (throws _, w) => (false, w)
  end.

(** The [try] block of [delete(key)]: [removeItem], then [true]. *)
Definition delete_try (f : Faults) (key : string) (w : World)
  : completion bool * World :=
  let fullKey := prefix +:+ key in
  if removeItem_throws f (localStorage w) fullKey
  then (throws "removeItem", w)
  else (returns true,
        with_localStorage (base.delete fullKey (localStorage w)) w).

(** [delete(key)] on a store with the faults [f]: the [catch] turns the
    error into [false]. *)
Definition delete_on (f : Faults) (key : string) (w : World) : bool * World :=
  match delete_try f key w with
  | (returns result, w) => (result, w)
  | (throws _, w) => (false, w)
  end.

(** [delete(key)] on an accessible store, where [removeItem] returns: the
    call that the handlers of the component await. *)
Definition delete (key : string) (w : World) : bool * World :=
  delete_on no_faults key w.

(** [key && key.startsWith(fullPrefix)]. *)
Definition matches (fullPrefix key : string) : bool :=
  truthy key && startsWith key fullPrefix.

(** [list(prefix)]: the keys that start with the full prefix, without the
    adapter's prefix. *)
Definition list `{Host} (pfx : string) (w : World) : list string :=
  let fullPrefix := prefix +:+ pfx in
  substring_from (String.length prefix) <$>
    filter (λ key, matches fullPrefix key) (storage_keys (localStorage w)).

End StorageAdapter.

(** ** [fetchDSTImage] *)

Definition CACHE_EXPIRY_DAYS : Z := 7.

(** [CACHE_EXPIRY_DAYS * 24 * 60 * 60 * 1000]. *)
Definition expiry : Z := CACHE_EXPIRY_DAYS * 24 * 60 * 60 * 1000.

(** [`dst_img_${cacheKey}`]. *)
Definition image_key (cacheKey : string) : string := "dst_img_" +:+ cacheKey.

(** The block "Check localStorage cache" (lines 68-87). A stored entry
    that is younger than [expiry] is copied to the memory cache and its
    [url] is the result; an older one is removed. A stored text that
    [JSON.parse] refuses throws, and the [catch] goes on. *)
Definition check_localStorage `{Host} (cacheKey : string) (w : World)
  : option string * World :=
  match localStorage w !! image_key cacheKey with
  | None => (None, w)
  | Some stored =>
      if truthy stored then
        match JSON_parse_entry stored with
        | None => (None, w)
        | Some entry =>
            let '(t, w) := now w in
            let age := (t - CacheEntry.timestamp entry)%Z in
            if (age <? expiry)%Z then
              (Some (CacheEntry.url entry),
               with_memoryCache
                 (ImageCacheManager.set (memoryCache w) cacheKey
                    (CacheEntry.url entry)) w)
            else
              (None,
               with_localStorage
                 (delete (image_key cacheKey) (localStorage w)) w)
        end
      else (None, w)
  end.

(** The block "Cache the result" (lines 112-124): the memory cache, then
    [localStorage]; a refused [setItem] throws and is caught. *)
Definition cache_result `{Host} (cacheKey imageUrl : string) (w : World) : World :=
  let w := with_memoryCache
             (ImageCacheManager.set (memoryCache w) cacheKey imageUrl) w in
  let '(t, w) := now w in
  let value := JSON_stringify_entry (CacheEntry.mk imageUrl t) in
  if storage_accepts (localStorage w) (image_key cacheKey) value
  then with_localStorage (<[image_key cacheKey := value]> (localStorage w)) w
  else w.

(** The candidate file names, in the order of the source. *)
Definition patterns (itemName : string) : list string :=
  [ itemName +:+ "_Build.png";
    itemName +:+ ".png";
    itemName +:+ "_Portrait.png";
    itemName +:+ "_Icon.png" ].

Definition apiUrl (filename : string) : string :=
  "https://dontstarve.fandom.com/api.php?action=query&titles="
  +:+ encodeURIComponent ("File:" +:+ filename)
  +:+ "&prop=imageinfo&iiprop=url&format=json&origin=*".

(** [page?.imageinfo?.[0]?.url] of the first page, when it is truthy. *)
Definition image_url (data : ApiData) : option string :=
  q ← query data;
  ps ← pages q;
  page ← head ps;
  infos ← imageinfo page;
  info ← head infos;
  or_null (ii_url info).

(** What one candidate gives: [Some imageUrl], or [None] when the loop
    goes on ([continue], a caught exception, or a missing field). *)
Definition candidate_result (r : Response) : option string :=
  match r with
  | NetworkError => None
  | Reply false _ => None
  | Reply true None => None
  | Reply true (Some data) => image_url data
  end.

(** The loop [for (const filename of patterns)]. *)
Fixpoint try_patterns `{Host} (cacheKey : string) (filenames : list string)
    (w : World) : option string * World :=
  match filenames with
  | [] => (None, w)
  | filename :: rest =>
      let '(response, w) := request (apiUrl filename) w in
      match candidate_result response with
      | Some imageUrl => (Some imageUrl, cache_result cacheKey imageUrl w)
      | None => try_patterns cacheKey rest w
      end
  end.

(** What the wiki answers to the [i]-th candidate of [filenames] when the
    candidates before it have been requested, after the requests
    [history]. *)
Definition answer `{Host} (history filenames : list string) (i : nat)
  : option string :=
  match filenames !! i with
  | Some filename =>
      candidate_result
        (fetch (history ++ (apiUrl <$> take i filenames)) (apiUrl filename))
  | None => None
  end.

Definition fetchDSTImage `{Host} (itemName : string) (w : World)
  : option string * World :=
  if negb (truthy itemName) || bool_decide (trim itemName = "") then (None, w)
  else
    let cacheKey := trim (toLowerCase itemName) in
    match ImageCacheManager.get (memoryCache w) cacheKey with
    | Some cached => (Some cached, w)
    | None =>
        match check_localStorage cacheKey w with
        | (Some url, w) => (Some url, w)
        | (None, w) => try_patterns cacheKey (patterns itemName) w
        end
    end.

(** A sequence of calls of [fetchDSTImage], the only code that reaches
    the memory cache; the results are dropped. *)
Definition resolve_all `{Host} (names : list string) (w : World) : World :=
  foldl (λ w itemName, (fetchDSTImage itemName w).2) w names.

(** ** The component [DSTCommandManager] *)

(** The double quote character. *)
Definition dq : string := String (Ascii.ascii_of_nat 34) EmptyString.

Definition DEFAULT_COMMANDS : list Command.t :=
  [ Command.mk 1 "God Mode" "c_godmode()"
      "https://static.wikia.nocookie.net/dont-starve-game/images/4/42/Wilson_Portrait.png/revision/latest?cb=20160723191003"
      ["Admin"] None false;
    Command.mk 2 "Spawn Spider" ("c_spawn(" +:+ dq +:+ "spider" +:+ dq +:+ ")")
      "https://static.wikia.nocookie.net/dont-starve-game/images/1/14/Spider_Build.png/revision/latest?cb=20160723194014"
      ["Spawning"] (Some "spawn") false;
    Command.mk 3 "Give Gold" ("c_give(" +:+ dq +:+ "goldnugget" +:+ dq +:+ ", 40)")
      "https://static.wikia.nocookie.net/dont-starve-game/images/9/92/Gold_Nugget.png/revision/latest?cb=20160723185614"
      ["Items"] (Some "give") true ].

Definition DEFAULT_TAGS : list Tag.t :=
  [ Tag.mk 1 "Admin" "#ef4444";
    Tag.mk 2 "Spawning" "#8b5cf6";
    Tag.mk 3 "Items" "#10b981" ].

(** [interface Toast], without its random [id]; the [duration] follows
    from the type. *)
Inductive ToastType : Type := success | error | info.

Module Toast.
Record t : Type := mk { message : string; type : ToastType }.
End Toast.

(** The state of the component that the modelled handlers read or set, and
    [isMountedRef.current]. *)
Record State : Type := mkState {
  commands : list Command.t;
  tags : list Tag.t;
  loading : bool;
  toasts : list Toast.t;
  editingTagId : option Z;
  editTagName : string;
  editTagColor : string;
  isMounted : bool
}.

Definition setCommands (f : list Command.t → list Command.t) (st : State) : State :=
  mkState (f (commands st)) (tags st) (loading st) (toasts st)
    (editingTagId st) (editTagName st) (editTagColor st) (isMounted st).

Definition setTags (f : list Tag.t → list Tag.t) (st : State) : State :=
  mkState (commands st) (f (tags st)) (loading st) (toasts st)
    (editingTagId st) (editTagName st) (editTagColor st) (isMounted st).

Definition setLoading (b : bool) (st : State) : State :=
  mkState (commands st) (tags st) b (toasts st)
    (editingTagId st) (editTagName st) (editTagColor st) (isMounted st).

Definition setEditingTagId (i : option Z) (st : State) : State :=
  mkState (commands st) (tags st) (loading st) (toasts st)
    i (editTagName st) (editTagColor st) (isMounted st).

Definition addToast (message : string) (type : ToastType) (st : State) : State :=
  mkState (commands st) (tags st) (loading st)
    (toasts st ++ [Toast.mk message type])
    (editingTagId st) (editTagName st) (editTagColor st) (isMounted st).

(** [`dsttag:${id}`] and [`dst:${id}`]. *)
Definition tag_key (id : Z) : string := "dsttag:" +:+ number_to_string id.
Definition command_key (id : Z) : string := "dst:" +:+ number_to_string id.

(** [await window.storage.set(key, value)], where [window.storage] is
    set. The call is recorded. *)
Definition storage_set `{Host} (key value : string) (w : World) : bool * World :=
  StorageAdapter.set key value
    (mkWorld (localStorage w) (memoryCache w) (requests w) (ticks w)
       (set_calls w ++ [(key, value)])).

(** [initializeDefaults]: where [window.storage] is not set every call
    throws and is caught. *)
Definition initializeDefaults `{Host} (w : World) : World :=
  foldl (λ w cmd,
           if window_storage
           then (storage_set (command_key (Command.id cmd))
                   (JSON_stringify_command cmd) w).2
           else w)
    w DEFAULT_COMMANDS.

Definition initializeDefaultTags `{Host} (w : World) : World :=
  foldl (λ w tag,
           if window_storage
           then (storage_set (tag_key (Tag.id tag)) (JSON_stringify_tag tag) w).2
           else w)
    w DEFAULT_TAGS.

(** [list.sort((a, b) => a.id - b.id)]: a stable sort by [id]. *)
Fixpoint insert_by {A} (f : A → Z) (x : A) (l : list A) : list A :=
  match l with
  | [] => [x]
  | y :: rest =>
      if (f x <=? f y)%Z then x :: y :: rest else y :: insert_by f x rest
  end.

Definition sort_by {A} (f : A → Z) (l : list A) : list A :=
  foldr (insert_by f) [] l.

(** The loops of [loadData] over the listed keys: a record is read, and
    parsed when its value is truthy; a record that [JSON.parse] refuses is
    skipped. [parse] returns the record that the text denotes. A text
    that [JSON.parse] reads as another value ([null], an object without
    the fields) has no counterpart here: the source pushes that value, the
    model skips it; [records_well_formed] names the stores without
    such texts. *)
Definition load_records `{Host} {A} (parse : string → option A)
    (keys : list string) (w : World) : list A :=
  omap (λ key,
          match StorageAdapter.get key w with
          | Some value => if truthy value then parse value else None
          | None => None
          end) keys.

(** [loadData]. Where [window.storage] is not set the [try] block throws,
    and the [catch] reports and falls back to the defaults. On a store
    with [records_well_formed] nothing else throws; on other stores the
    comparison of [sort] can throw (on a record [null]) into the same
    [catch], which this definition does not follow. *)
Definition loadData `{Host} (st : State) (w : World) : State * World :=
  let '(st, w) :=
    if window_storage then
      (* Load tags *)
      let tagKeys := StorageAdapter.list "dsttag:" w in
      let '(st, w) :=
        match tagKeys with
        | [] =>
            let w := initializeDefaultTags w in
            (if isMounted st then setTags (λ _, DEFAULT_TAGS) st else st, w)
        | _ :: _ =>
            let loadedTags := load_records JSON_parse_tag tagKeys w in
            (if isMounted st
             then setTags (λ _, sort_by Tag.id loadedTags) st else st, w)
        end in
      (* Load commands *)
      let cmdKeys := StorageAdapter.list "dst:" w in
      match cmdKeys with
      | [] =>
          let w := initializeDefaults w in
          (if isMounted st then setCommands (λ _, DEFAULT_COMMANDS) st else st, w)
      | _ :: _ =>
          let loadedCommands := load_records JSON_parse_command cmdKeys w in
          (if isMounted st
           then setCommands (λ _, sort_by Command.id loadedCommands) st
           else st, w)
      end
    else
      let st := addToast "Failed to load data. Using default commands." error st in
      if isMounted st then
        let w := initializeDefaultTags w in
        let w := initializeDefaults w in
        (setCommands (λ _, DEFAULT_COMMANDS) (setTags (λ _, DEFAULT_TAGS) st), w)
      else (st, w)
  in
  (if isMounted st then setLoading false st else st, w).

(** Every non-empty record under the prefix of the tags denotes a tag, and
    every one under the prefix of the commands denotes a command: the
    stores on which [load_records] is what the loops of [loadData]
    compute, and on which the comparison of [sort] finds an [id] in each
    of its arguments. *)
Definition records_well_formed `{Host} (w : World) : Prop :=
  ∀ key value,
    StorageAdapter.get key w = Some value → value ≠ "" →
    (startsWith key "dsttag:" = true → is_Some (JSON_parse_tag value)) ∧
    (startsWith key "dst:" = true → is_Some (JSON_parse_command value)).

(** The tag names of a command with [oldName] replaced by [newName]:
    [{ ...cmd, tags: cmd.tags.map(t => t === oldName ? newName : t) }]. *)
Definition rename_in_command (oldName newName : string) (cmd : Command.t) : Command.t :=
  Command.mk (Command.id cmd) (Command.name cmd) (Command.command cmd)
    (Command.image cmd)
    ((λ t, if decide (t = oldName) then newName else t) <$> Command.tags cmd)
    (Command.category cmd) (Command.favorite cmd).

(** [prev.map((c) => (c.id === updated.id ? updated : c))]. *)
Definition replace_command (updated : Command.t) (cs : list Command.t)
  : list Command.t :=
  (λ c, if decide (Command.id c = Command.id updated) then updated else c) <$> cs.

(** The loop of [handleSaveTag] over [commands], the list that the handler
    closed over: a command that includes the old name is saved with its
    tags renamed and replaces in the state the commands of its [id]. *)
Fixpoint rename_in_commands `{Host} (oldName newName : string)
    (cmds : list Command.t) (st : State) (w : World) : State * World :=
  match cmds with
  | [] => (st, w)
  | cmd :: rest =>
      if bool_decide (oldName ∈ Command.tags cmd) then
        let updatedCommand := rename_in_command oldName newName cmd in
        let w := (storage_set (command_key (Command.id cmd))
                    (JSON_stringify_command updatedCommand) w).2 in
        let st :=
          setCommands
            (fmap (λ c, if decide (Command.id c = Command.id cmd)
                        then updatedCommand else c)) st in
        rename_in_commands oldName newName rest st w
      else rename_in_commands oldName newName rest st w
  end.

(** [tags.some((t) => t.id !== id &&
      t.name.toLowerCase() === trimmedName.toLowerCase())]. *)
Definition name_taken `{Host} (id : Z) (trimmedName : string) (ts : list Tag.t) : bool :=
  existsb (λ t, bool_decide (Tag.id t ≠ id) &&
                bool_decide (toLowerCase (Tag.name t) = toLowerCase trimmedName)) ts.

Definition handleSaveTag `{Host} (id : Z) (st : State) (w : World) : State * World :=
  let trimmedName := trim (editTagName st) in
  if negb (truthy trimmedName) then
    (addToast "Tag name is required!" error st, w)
  else if name_taken id trimmedName (tags st) then
    (addToast "A tag with this name already exists!" error st, w)
  else if negb window_storage then
    (addToast "Failed to save tag. Please try again." error st, w)
  else
    let oldTag := List.find (λ t, bool_decide (Tag.id t = id)) (tags st) in
    let updatedTag := Tag.mk id trimmedName (editTagColor st) in
    let w := (storage_set (tag_key id) (JSON_stringify_tag updatedTag) w).2 in
    let '(st', w) :=
      match oldTag with
      | Some old =>
          if bool_decide (Tag.name old ≠ trimmedName)
          then rename_in_commands (Tag.name old) trimmedName (commands st) st w
          else (st, w)
      | None => (st, w)
      end in
    (if isMounted st' then
       addToast "Tag saved successfully" success
         (setEditingTagId None
            (setTags (fmap (λ t, if decide (Tag.id t = id) then updatedTag else t))
               st'))
     else st', w).

(** ** Sequences of writes *)

(** The writes of a rename of [oldName] into [newName]: the tag, then the
    commands that include the old name, in the order of the list. *)
Definition rename_writes `{Host} (updatedTag : Tag.t) (oldName : string)
    (cmds : list Command.t) : list (string * string) :=
  (tag_key (Tag.id updatedTag), JSON_stringify_tag updatedTag) ::
  ((λ c, (command_key (Command.id c),
          JSON_stringify_command
            (rename_in_command oldName (Tag.name updatedTag) c))) <$>
   filter (λ c, oldName ∈ Command.tags c) cmds).

(** A sequence of [await window.storage.set(key, value)]. *)
Definition storage_set_all `{Host} (kvs : list (string * string)) (w : World) : World :=
  foldl (λ w kv, (storage_set kv.1 kv.2 w).2) w kvs.

(** The adapter stores [value] under [key] in every state of the store:
    the value is not empty, it is within the quota and the host accepts
    it. *)
Definition storable `{Host} (key value : string) : Prop :=
  value ≠ "" ∧ (blob_size value ≤ StorageAdapter.quota)%N ∧
  ∀ ls, storage_accepts ls (StorageAdapter.prefix +:+ key) value = true.

(** The writes of [initializeDefaultTags] and of [initializeDefaults]. *)
Definition default_tag_writes `{Host} : list (string * string) :=
  (λ t, (tag_key (Tag.id t), JSON_stringify_tag t)) <$> DEFAULT_TAGS.

Definition default_command_writes `{Host} : list (string * string) :=
  (λ c, (command_key (Command.id c), JSON_stringify_command c)) <$>
  DEFAULT_COMMANDS.

(** The keys of the default records, as the adapter lists them. *)
Definition default_tag_keys : list string := (tag_key ∘ Tag.id) <$> DEFAULT_TAGS.

Definition default_command_keys : list string :=
  (command_key ∘ Command.id) <$> DEFAULT_COMMANDS.

Definition default_writes `{Host} : list (string * string) :=
  default_tag_writes ++ default_command_writes.

(** The state once [loadData] has set the defaults. *)
Definition with_defaults (st : State) : State :=
  if isMounted st
  then setLoading false
         (setCommands (λ _, DEFAULT_COMMANDS) (setTags (λ _, DEFAULT_TAGS) st))
  else st.

(** ** A reference host

    A host to run the program on concrete inputs. It is used on ASCII
    names only: [toLowerCase] and [trim] know the ASCII letters and the
    ASCII white space, not the other letters and spaces of Unicode. Its
    store lists its keys in the order of the map. Its JSON codec prints a
    record as [JSON.stringify] prints the object: a command with the
    members in the order of [DEFAULT_COMMANDS] ([favorite] before
    [category]), or, with [JSON_stringify_saved], in the order of the
    object that [handleSave] builds ([category] before [favorite]); it
    reads back both orders. *)
Module Reference.

Definition lower_char (c : Ascii.ascii) : Ascii.ascii :=
  let n := Ascii.N_of_ascii c in
  if ((65 <=? n) && (n <=? 90))%N then Ascii.ascii_of_N (n + 32) else c.

Fixpoint toLowerCase (s : string) : string :=
  match s with
  | EmptyString => EmptyString
  | String c rest => String (lower_char c) (toLowerCase rest)
  end.

Definition is_space (c : Ascii.ascii) : bool :=
  bool_decide (Ascii.N_of_ascii c ∈ [9; 10; 11; 12; 13; 32]%N).

Fixpoint trim_start (s : string) : string :=
  match s with
  | EmptyString => EmptyString
  | String c rest => if is_space c then trim_start rest else s
  end.

Fixpoint trim_end (s : string) : string :=
  match s with
  | EmptyString => EmptyString
  | String c rest =>
      match trim_end rest with
      | EmptyString => if is_space c then EmptyString else String c EmptyString
      | rest' => String c rest'
      end
  end.

Definition trim (s : string) : string := trim_end (trim_start s).

(** *** JSON texts *)

Definition backslash : string := String (Ascii.ascii_of_nat 92) EmptyString.

Definition escape_char (c : Ascii.ascii) : string :=
  let n := Ascii.N_of_ascii c in
  if (n =? 34)%N then backslash +:+ dq
  else if (n =? 92)%N then backslash +:+ backslash
  else if (n =? 8)%N then backslash +:+ "b"
  else if (n =? 9)%N then backslash +:+ "t"
  else if (n =? 10)%N then backslash +:+ "n"
  else if (n =? 12)%N then backslash +:+ "f"
  else if (n =? 13)%N then backslash +:+ "r"
  else if (n <? 32)%N then
    backslash +:+ "u00" +:+
    String (lower_char (hex_digit (n / 16)))
      (String (lower_char (hex_digit (n mod 16))) EmptyString)
  else String c EmptyString.

Fixpoint escape (s : string) : string :=
  match s with
  | EmptyString => EmptyString
  | String c rest => escape_char c +:+ escape rest
  end.

Definition quote (s : string) : string := dq +:+ escape s +:+ dq.

Definition member (name : string) : string := dq +:+ name +:+ dq +:+ ":".

Fixpoint quote_all (l : list string) : string :=
  match l with
  | [] => EmptyString
  | [x] => quote x
  | x :: rest => quote x +:+ "," +:+ quote_all rest
  end.

Definition JSON_stringify_entry (e : CacheEntry.t) : string :=
  "{" +:+ member "url" +:+ quote (CacheEntry.url e) +:+ ","
  +:+ member "timestamp" +:+ number_to_string (CacheEntry.timestamp e) +:+ "}".

Definition JSON_stringify_tag (t : Tag.t) : string :=
  "{" +:+ member "id" +:+ number_to_string (Tag.id t) +:+ ","
  +:+ member "name" +:+ quote (Tag.name t) +:+ ","
  +:+ member "color" +:+ quote (Tag.color t) +:+ "}".

Definition JSON_stringify_command (c : Command.t) : string :=
  "{" +:+ member "id" +:+ number_to_string (Command.id c) +:+ ","
  +:+ member "name" +:+ quote (Command.name c) +:+ ","
  +:+ member "command" +:+ quote (Command.command c) +:+ ","
  +:+ member "image" +:+ quote (Command.image c) +:+ ","
  +:+ member "tags" +:+ "[" +:+ quote_all (Command.tags c) +:+ "],"
  +:+ member "favorite" +:+ (if Command.favorite c then "true" else "false") +:+ ","
  +:+ member "category" +:+
      match Command.category c with Some x => quote x | None => "null" end
  +:+ "}".

(** The text of the object of [handleSave] (lines 509-517): [category]
    comes before [favorite]. *)
Definition JSON_stringify_saved (c : Command.t) : string :=
  "{" +:+ member "id" +:+ number_to_string (Command.id c) +:+ ","
  +:+ member "name" +:+ quote (Command.name c) +:+ ","
  +:+ member "command" +:+ quote (Command.command c) +:+ ","
  +:+ member "image" +:+ quote (Command.image c) +:+ ","
  +:+ member "tags" +:+ "[" +:+ quote_all (Command.tags c) +:+ "],"
  +:+ member "category" +:+
      match Command.category c with Some x => quote x | None => "null" end
  +:+ ","
  +:+ member "favorite" +:+ (if Command.favorite c then "true" else "false")
  +:+ "}".

(** Reading: [expect lit s] is the rest of [s] after [lit]. *)
Definition expect (lit s : string) : option string :=
  if String.prefix lit s then Some (substring_from (String.length lit) s)
  else None.

Definition hex_value (c : Ascii.ascii) : option N :=
  let n := Ascii.N_of_ascii c in
  if ((48 <=? n) && (n <=? 57))%N then Some (n - 48)%N
  else if ((97 <=? n) && (n <=? 102))%N then Some (n - 87)%N
  else if ((65 <=? n) && (n <=? 70))%N then Some (n - 55)%N
  else None.

Definition unescape (c : Ascii.ascii) : option Ascii.ascii :=
  let n := Ascii.N_of_ascii c in
  if bool_decide (n ∈ [34; 92; 47]%N) then Some c
  else if (n =? 98)%N then Some (Ascii.ascii_of_N 8)
  else if (n =? 116)%N then Some (Ascii.ascii_of_N 9)
  else if (n =? 110)%N then Some (Ascii.ascii_of_N 10)
  else if (n =? 102)%N then Some (Ascii.ascii_of_N 12)
  else if (n =? 114)%N then Some (Ascii.ascii_of_N 13)
  else None.

(** The characters of a string literal after its opening quote, and the
    text after its closing quote. *)
Fixpoint read_string (s : string) : option (string * string) :=
  match s with
  | EmptyString => None
  | String c rest =>
      let n := Ascii.N_of_ascii c in
      if (n =? 34)%N then Some (EmptyString, rest)
      else if (n =? 92)%N then
        match rest with
        | String e rest' =>
            if (Ascii.N_of_ascii e =? 117)%N then
              match rest' with
              | String h1 (String h2 (String h3 (String h4 rest''))) =>
                  match hex_value h1, hex_value h2, hex_value h3, hex_value h4 with
                  | Some a, Some b, Some c', Some d =>
                      let code := (((a * 16 + b) * 16 + c') * 16 + d)%N in
                      if (code <? 128)%N then
                        match read_string rest'' with
                        | Some (x, r) => Some (String (Ascii.ascii_of_N code) x, r)
                        | None => None
                        end
                      else None
                  | _, _, _, _ => None
                  end
              | _ => None
              end
            else
              match unescape e, read_string rest' with
              | Some ch, Some (x, r) => Some (String ch x, r)
              | _, _ => None
              end
        | EmptyString => None
        end
      else
        match read_string rest with
        | Some (x, r) => Some (String c x, r)
        | None => None
        end
  end.

Definition parse_string (s : string) : option (string * string) :=
  s' ← expect dq s; read_string s'.

Fixpoint read_digits (acc : N) (s : string) : N * string :=
  match s with
  | EmptyString => (acc, s)
  | String c rest =>
      let n := Ascii.N_of_ascii c in
      if ((48 <=? n) && (n <=? 57))%N
      then read_digits (acc * 10 + (n - 48))%N rest
      else (acc, s)
  end.

Definition parse_number (s : string) : option (Z * string) :=
  let '(negative, s1) :=
    match expect "-" s with Some r => (true, r) | None => (false, s) end in
  let '(n, s2) := read_digits 0 s1 in
  if bool_decide (s2 = s1) then None
  else Some (if negative then (- Z.of_N n)%Z else Z.of_N n, s2).

Fixpoint read_items (fuel : nat) (s : string) : option (list string * string) :=
  match fuel with
  | O => None
  | S fuel' =>
      '(x, r) ← parse_string s;
      match expect "," r with
      | Some r' => '(xs, r'') ← read_items fuel' r'; Some (x :: xs, r'')
      | None => r' ← expect "]" r; Some ([x], r')
      end
  end.

Definition parse_strings (s : string) : option (list string * string) :=
  s1 ← expect "[" s;
  match expect "]" s1 with
  | Some r => Some ([], r)
  | None => read_items (String.length s1) s1
  end.

Definition parse_bool (s : string) : option (bool * string) :=
  match expect "true" s with
  | Some r => Some (true, r)
  | None => r ← expect "false" s; Some (false, r)
  end.

Definition parse_nullable (s : string) : option (option string * string) :=
  match expect "null" s with
  | Some r => Some (None, r)
  | None => '(x, r) ← parse_string s; Some (Some x, r)
  end.

(** The end of the object and of the text. *)
Definition close {A} (x : A) (s : string) : option A :=
  if bool_decide (s = "}") then Some x else None.

Definition JSON_parse_entry (s : string) : option CacheEntry.t :=
  s ← expect ("{" +:+ member "url") s;
  '(url, s) ← parse_string s;
  s ← expect ("," +:+ member "timestamp") s;
  '(timestamp, s) ← parse_number s;
  close (CacheEntry.mk url timestamp) s.

Definition JSON_parse_tag (s : string) : option Tag.t :=
  s ← expect ("{" +:+ member "id") s;
  '(id, s) ← parse_number s;
  s ← expect ("," +:+ member "name") s;
  '(name, s) ← parse_string s;
  s ← expect ("," +:+ member "color") s;
  '(color, s) ← parse_string s;
  close (Tag.mk id name color) s.

(** The members [favorite] and [category], in either order. *)
Definition parse_flags (s : string) : option (option string * bool * string) :=
  match expect ("," +:+ member "favorite") s with
  | Some s =>
      '(favorite, s) ← parse_bool s;
      s ← expect ("," +:+ member "category") s;
      '(category, s) ← parse_nullable s;
      Some (category, favorite, s)
  | None =>
      s ← expect ("," +:+ member "category") s;
      '(category, s) ← parse_nullable s;
      s ← expect ("," +:+ member "favorite") s;
      '(favorite, s) ← parse_bool s;
      Some (category, favorite, s)
  end.

Definition JSON_parse_command (s : string) : option Command.t :=
  s ← expect ("{" +:+ member "id") s;
  '(id, s) ← parse_number s;
  s ← expect ("," +:+ member "name") s;
  '(name, s) ← parse_string s;
  s ← expect ("," +:+ member "command") s;
  '(command, s) ← parse_string s;
  s ← expect ("," +:+ member "image") s;
  '(image, s) ← parse_string s;
  s ← expect ("," +:+ member "tags") s;
  '(tags, s) ← parse_strings s;
  '(category, favorite, s) ← parse_flags s;
  close (Command.mk id name command image tags category favorite) s.

(** The reference host, for a clock, a network and a policy of the store. *)
Definition host (clock : nat → Z) (net : list string → string → Response)
    (accepts : gmap string string → string → string → bool) : Host :=
  Build_Host toLowerCase trim clock net (λ ls, (map_to_list ls).*1) accepts
    true JSON_stringify_entry JSON_parse_entry JSON_stringify_tag
    JSON_parse_tag JSON_stringify_command JSON_parse_command.

(** The reference host of a component that writes its commands with
    [handleSave] only. *)
Definition saving_host (clock : nat → Z) (net : list string → string → Response)
    (accepts : gmap string string → string → string → bool) : Host :=
  Build_Host toLowerCase trim clock net (λ ls, (map_to_list ls).*1) accepts
    true JSON_stringify_entry JSON_parse_entry JSON_stringify_tag
    JSON_parse_tag JSON_stringify_saved JSON_parse_command.

End Reference.

(** *** Concrete worlds and inputs *)

(** A host without network whose store accepts every value. *)
Definition offline : Host :=
  Reference.host (λ _, 0%Z) (λ _ _, NetworkError) (λ _ _ _, true).

(** The same host, writing commands as [handleSave] does. *)
Definition offline_saving : Host :=
  Reference.saving_host (λ _, 0%Z) (λ _ _, NetworkError) (λ _ _ _, true).

Definition empty_world : World := mkWorld ∅ [] [] 0 [].

(** The entries [("1", v); ...; ("n", v)]. *)
Definition numbered (n : nat) (v : string) : list (string * string) :=
  (λ i : nat, (pretty i, v)) <$> seq 1 n.

(** A reply of the wiki with the url of an image, and a reply for a title
    without a file. *)
Definition found (url : string) : Response :=
  Reply true
    (Some {| query := Some {| pages :=
       Some [ {| imageinfo := Some [ {| ii_url := Some url |} ] |} ] |} |}).

Definition missing : Response :=
  Reply true
    (Some {| query := Some {| pages := Some [ {| imageinfo := None |} ] |} |}).

(** A wiki that has no [Spider_Build.png], fails on [Spider.png] and has
    [Spider_Portrait.png]; every other request is lost. *)
Definition spider_wiki (history : list string) (url : string) : Response :=
  if decide (url = apiUrl "Spider_Build.png") then missing
  else if decide (url = apiUrl "Spider.png") then Reply false None
  else if decide (url = apiUrl "Spider_Portrait.png")
       then found "https://wiki/Spider_Portrait.png"
       else NetworkError.

Definition online : Host :=
  Reference.host (λ n, 1700000000000 + Z.of_nat n)%Z spider_wiki (λ _ _ _, true).

(** A host without network whose clock shows 0 at its first reading and
    the time to live at every later one. *)
Definition late : Host :=
  Reference.host (λ n, if decide (n = 0) then 0%Z else expiry)
    (λ _ _, NetworkError) (λ _ _ _, true).

(** A store that holds, for ["spider"], an entry with an empty url. *)
Definition empty_url_world : World :=
  with_localStorage
    {[ image_key "spider" := Reference.JSON_stringify_entry (CacheEntry.mk "" 0) ]}
    empty_world.

(** The state of the component after a load of the defaults, with mount
    flag, and with the editor of tags open on [name]. *)
Definition loaded_state (cmds : list Command.t) (ts : list Tag.t) (name : string) : State :=
  mkState cmds ts false [] None name "#3b82f6" true.

(** The default commands and a fourth one; two of them have the tag
    [Admin]. *)
Definition four_commands : list Command.t :=
  DEFAULT_COMMANDS ++
  [ Command.mk 4 "Reveal Map" "minimap.MiniMap:ShowArea(0,0,0,10000)" ""
      ["Items"; "Admin"] None false ].

(** The state of the component when it is mounted. *)
Definition initial_state : State := mkState [] [] true [] None "" "#3b82f6" true.

(** ** The other methods of [class StorageAdapter] *)

Module Adapter.

(** [keysToDelete.forEach(key => localStorage.removeItem(key))]: the first
    [removeItem] that throws ends the loop; the keys before it are
    removed. *)
Fixpoint remove_each (f : Faults) (keys : list string)
    (ls : gmap string string) : completion unit * gmap string string :=
  match keys with
  | [] => (returns tt, ls)
  | key :: rest =>
      if removeItem_throws f ls key then (throws "removeItem", ls)
      else remove_each f rest (delete key ls)
  end.

(** The [try] block of [clear()]: the keys that start with the adapter's
    prefix are collected and then removed. *)
Definition clear_try `{Host} (f : Faults) (w : World) : completion bool * World :=
  if keys_throw f (localStorage w) then (throws "localStorage", w)
  else
    let keysToDelete :=
      filter (λ key, StorageAdapter.matches StorageAdapter.prefix key)
        (storage_keys (localStorage w)) in
    match remove_each f keysToDelete (localStorage w) with
    | (returns _, ls) => (returns true, with_localStorage ls w)
    | (throws message, ls) => (throws message, with_localStorage ls w)
    end.

(** [clear()] on a store with the faults [f]: the [catch] turns the error
    into [false]. *)
Definition clear `{Host} (f : Faults) (w : World) : bool * World :=
  match clear_try f w with
  | (returns result, w) => (result, w)
  | (throws _, w) => (false, w)
  end.

(** [validateStorageAvailability()]: a test item is written and removed;
    an error of [setItem] is caught and logged. *)
Definition validateStorageAvailability `{Host} (w : World) : World :=
  let '(t, w) := now w in
  let testKey := StorageAdapter.prefix +:+ "test_" +:+ number_to_string t in
  if storage_accepts (localStorage w) testKey "test"
  then with_localStorage
         (delete testKey (<[testKey := "test"]> (localStorage w))) w
  else w.

(** The loop of [getStorageInfo()] that computes [used]: the sizes of key
    and value of every item of the adapter with a truthy value. (The
    [percentage] is a floating-point quotient and is left out.) *)
Definition used `{Host} (w : World) : N :=
  foldl (λ used key,
           match localStorage w !! key with
           | Some value =>
               if StorageAdapter.matches StorageAdapter.prefix key
                  && truthy value
               then (used + (blob_size key + blob_size value))%N
               else used
           | None => used
           end)
    0%N (storage_keys (localStorage w)).

(** [available]: [5 * 1024 * 1024]. *)
Definition available : N := 5 * 1024 * 1024.

End Adapter.

(** ** The other handlers of the component *)

Definition MAX_STORAGE_SIZE : N := 4800000.

(** [interface Category] and the static [CATEGORIES]. *)
Module Category.
Record t : Type := mk { id : string; name : string; color : string }.
End Category.

Definition CATEGORIES : list Category.t :=
  [ Category.mk "give" "Give" "#059669";
    Category.mk "spawn" "Spawn" "#7c3aed" ].

(** [s.length]: the number of UTF-16 code units of a string, read off the
    bytes of its UTF-8 encoding: a continuation byte counts for nothing,
    the first byte of a four-byte sequence for two units, every other
    first byte for one. *)
Definition utf16_units (c : Ascii.ascii) : N :=
  let n := Ascii.N_of_ascii c in
  if (n <? 128)%N then 1%N
  else if (n <? 192)%N then 0%N
  else if (n <? 240)%N then 1%N
  else 2%N.

Fixpoint js_length (s : string) : N :=
  match s with
  | EmptyString => 0%N
  | String c rest => (utf16_units c + js_length rest)%N
  end.

(** The state of the command editor. *)
Record Editor : Type := mkEditor {
  editingId : option Z;
  editName : string;
  editCommand : string;
  editImage : string;
  editTags : list string;
  editCategory : option string;
  showCommandEditor : bool;
  saving : bool;
  saveSuccess : bool
}.

(** The state of the grid: the active filter and the records of images. *)
Record Grid : Type := mkGrid {
  activeTag : string;
  imageErrors : gmap Z bool;
  autoFetchedImages : gmap Z string;
  fetchingImages : gmap Z bool
}.

(** The numbers of the source are doubles. [to_double z] is the double
    that is nearest to the integer [z], a tie going to the even
    significand: [z] itself up to [2^53], a multiple of [2^(e - 52)] for
    [2^e <= |z|] beyond. It is meant for [|z|] below [2^1024], the
    range of the finite doubles. *)
Definition to_double (z : Z) : Z :=
  let a := Z.abs z in
  let e := Z.log2 a in
  if (e <? 53)%Z then z
  else
    let ulp := (2 ^ (e - 52))%Z in
    let q := (a / ulp)%Z in
    let r := (a mod ulp)%Z in
    let q' :=
      if (2 * r <? ulp)%Z then q
      else if (ulp <? 2 * r)%Z then (q + 1)%Z
      else if Z.even q then q else (q + 1)%Z in
    (Z.sgn z * (q' * ulp))%Z.

(** [Number.isSafeInteger(id)]. *)
Definition safe_integer (id : Z) : Prop := (Z.abs id ≤ 2 ^ 53 - 1)%Z.

(** [commands.length > 0 ? Math.max(...commands.map((c) => c.id)) + 1 : 1],
    and the same for tags: the sum is a sum of doubles. *)
Definition next_id (ids : list Z) : Z :=
  match ids with
  | [] => 1
  | id :: rest => to_double (foldl Z.max id rest + 1)
  end.

Definition addNewCommand (st : State) (ed : Editor) : Editor :=
  let newId := next_id (Command.id <$> commands st) in
  mkEditor (Some newId) "" "" "" [] None true (saving ed) (saveSuccess ed).

(** [handleEdit]: [cmd.image || ''], [cmd.tags || []] and
    [cmd.category || null]. *)
Definition handleEdit (cmd : Command.t) (ed : Editor) : Editor :=
  mkEditor (Some (Command.id cmd)) (Command.name cmd) (Command.command cmd)
    (Command.image cmd) (Command.tags cmd) (or_null (Command.category cmd))
    true (saving ed) (saveSuccess ed).

Definition toggleTag (tagName : string) (ed : Editor) : Editor :=
  mkEditor (editingId ed) (editName ed) (editCommand ed) (editImage ed)
    (if bool_decide (tagName ∈ editTags ed)
     then filter (λ t, t ≠ tagName) (editTags ed)
     else editTags ed ++ [tagName])
    (editCategory ed) (showCommandEditor ed) (saving ed) (saveSuccess ed).

Definition handleCancel (ed : Editor) : Editor :=
  mkEditor None "" "" "" [] None false (saving ed) (saveSuccess ed).

(** [setSaving(b); setSaveSuccess(b')]. *)
Definition with_saving (b b' : bool) (ed : Editor) : Editor :=
  mkEditor (editingId ed) (editName ed) (editCommand ed) (editImage ed)
    (editTags ed) (editCategory ed) (showCommandEditor ed) b b'.

(** [prev.find((c) => c.id === id)
      ? prev.map((c) => (c.id === id ? updatedCommand : c))
      : [...prev, updatedCommand]]. *)
Definition upsert (updated : Command.t) (prev : list Command.t) : list Command.t :=
  match List.find (λ c, bool_decide (Command.id c = Command.id updated)) prev with
  | Some _ => replace_command updated prev
  | None => prev ++ [updated]
  end.

(** The command that [handleSave] builds from the editor. *)
Definition edited_command `{Host} (id : Z) (st : State) (ed : Editor) : Command.t :=
  let currentCmd :=
    List.find (λ c, bool_decide (Command.id c = id)) (commands st) in
  Command.mk id (trim (editName ed)) (trim (editCommand ed))
    (trim (editImage ed)) (editTags ed) (editCategory ed)
    (match currentCmd with Some c => Command.favorite c | None => false end).

(** [handleSave], up to the timer that it sets after a success. *)
Definition handleSave `{Host} (id : Z) (st : State) (ed : Editor) (w : World)
  : State * Editor * World :=
  let trimmedName := trim (editName ed) in
  let trimmedCommand := trim (editCommand ed) in
  if negb (truthy trimmedName) || negb (truthy trimmedCommand) then
    (addToast "Both name and command are required!" error st, ed, w)
  else if negb window_storage then
    (addToast "Failed to save command. Please try again." error st,
     with_saving false false ed, w)
  else
    let updatedCommand := edited_command id st ed in
    let commandJson := JSON_stringify_command updatedCommand in
    if (MAX_STORAGE_SIZE <? js_length commandJson)%N then
      (addToast "Command data is too large. Try a smaller image." error st,
       with_saving false false ed, w)
    else
      let '(result, w) := storage_set (command_key id) commandJson w in
      if negb result then
        (addToast "Failed to save command. Please try again." error st,
         with_saving false false ed, w)
      else if negb (isMounted st) then (st, with_saving true false ed, w)
      else
        (addToast "Command saved successfully" success
           (setCommands (upsert updatedCommand) st),
         with_saving false true ed, w).

(** The timer of [handleSave], [SAVE_SUCCESS_DURATION] after a success. *)
Definition close_after_save (id : Z) (st : State) (ed : Editor) (g : Grid)
  : Editor * Grid :=
  if isMounted st then
    (mkEditor None (editName ed) (editCommand ed) (editImage ed) (editTags ed)
       (editCategory ed) false (saving ed) false,
     mkGrid (activeTag g) (delete id (imageErrors g)) (autoFetchedImages g)
       (fetchingImages g))
  else (ed, g).

(** [handleDelete]; [confirmed] is the answer of [window.confirm]. *)
Definition handleDelete `{Host} (confirmed : bool) (cmd : Command.t)
    (st : State) (ed : Editor) (w : World) : State * Editor * World :=
  if negb confirmed then (st, ed, w)
  else if negb window_storage then
    (addToast "Failed to delete command. Please try again." error st, ed, w)
  else
    let w := (StorageAdapter.delete (command_key (Command.id cmd)) w).2 in
    if negb (isMounted st) then (st, ed, w)
    else
      (addToast (dq +:+ Command.name cmd +:+ dq +:+ " deleted successfully") success
         (setCommands (filter (λ c, Command.id c ≠ Command.id cmd)) st),
       if bool_decide (editingId ed = Some (Command.id cmd))
       then mkEditor None (editName ed) (editCommand ed) (editImage ed)
              (editTags ed) (editCategory ed) false (saving ed) (saveSuccess ed)
       else ed,
       w).

(** [setEditTagName(name); setEditTagColor(color)] after
    [setEditingTagId(id)]. *)
Definition edit_tag (id : Z) (name color : string) (st : State) : State :=
  mkState (commands st) (tags st) (loading st) (toasts st)
    (Some id) name color (isMounted st).

Definition addNewTag (st : State) : State :=
  let newId := next_id (Tag.id <$> tags st) in
  edit_tag newId "" "#3b82f6"
    (setTags (λ _, tags st ++ [Tag.mk newId "" "#3b82f6"]) st).

Definition handleEditTag (tag : Tag.t) (st : State) : State :=
  edit_tag (Tag.id tag) (Tag.name tag) (Tag.color tag) st.

(** [handleCancelTag]: [!tag?.name] holds where no tag has the [id] and
    where the tag's name is empty. *)
Definition handleCancelTag (id : Z) (st : State) : State :=
  let tag := List.find (λ t, bool_decide (Tag.id t = id)) (tags st) in
  let unnamed :=
    match tag with
    | Some t => negb (truthy (Tag.name t))
    | None => true
    end in
  setEditingTagId None
    (if unnamed then setTags (filter (λ t, Tag.id t ≠ id)) st else st).

(** [{ ...cmd, tags: cmd.tags.filter((t) => t !== tagName) }]. *)
Definition remove_from_command (tagName : string) (cmd : Command.t) : Command.t :=
  Command.mk (Command.id cmd) (Command.name cmd) (Command.command cmd)
    (Command.image cmd)
    (filter (λ t, t ≠ tagName) (Command.tags cmd))
    (Command.category cmd) (Command.favorite cmd).

(** The loop of [handleDeleteTag] over [commands]. *)
Fixpoint remove_from_commands `{Host} (tagName : string)
    (cmds : list Command.t) (st : State) (w : World) : State * World :=
  match cmds with
  | [] => (st, w)
  | cmd :: rest =>
      if bool_decide (tagName ∈ Command.tags cmd) then
        let updatedCommand := remove_from_command tagName cmd in
        let w := (storage_set (command_key (Command.id cmd))
                    (JSON_stringify_command updatedCommand) w).2 in
        let st :=
          setCommands
            (fmap (λ c, if decide (Command.id c = Command.id cmd)
                        then updatedCommand else c)) st in
        remove_from_commands tagName rest st w
      else remove_from_commands tagName rest st w
  end.

Definition setActiveTag (name : string) (g : Grid) : Grid :=
  mkGrid name (imageErrors g) (autoFetchedImages g) (fetchingImages g).

(** [handleDeleteTag]; [confirmed] is the answer of [window.confirm]. *)
Definition handleDeleteTag `{Host} (confirmed : bool) (id : Z)
    (st : State) (g : Grid) (w : World) : State * Grid * World :=
  match List.find (λ t, bool_decide (Tag.id t = id)) (tags st) with
  | None => (st, g, w)
  | Some tag =>
      if negb confirmed then (st, g, w)
      else if negb window_storage then
        (addToast "Failed to delete tag. Please try again." error st, g, w)
      else
        let w := (StorageAdapter.delete (tag_key id) w).2 in
        let '(st, w) := remove_from_commands (Tag.name tag) (commands st) st w in
        if isMounted st then
          (addToast ("Tag " +:+ dq +:+ Tag.name tag +:+ dq +:+ " deleted successfully")
             success (setTags (filter (λ t, Tag.id t ≠ id)) st),
           if bool_decide (activeTag g = Tag.name tag)
           then setActiveTag "all" g else g,
           w)
        else (st, g, w)
  end.

(** [{ ...cmd, favorite: !cmd.favorite }]. *)
Definition flip_favorite (cmd : Command.t) : Command.t :=
  Command.mk (Command.id cmd) (Command.name cmd) (Command.command cmd)
    (Command.image cmd) (Command.tags cmd) (Command.category cmd)
    (negb (Command.favorite cmd)).

Definition toggleFavorite `{Host} (cmd : Command.t) (st : State) (w : World)
  : State * World :=
  if negb window_storage then
    (addToast "Failed to update favorite status." error st, w)
  else
    let updatedCommand := flip_favorite cmd in
    let w := (storage_set (command_key (Command.id cmd))
                (JSON_stringify_command updatedCommand) w).2 in
    (if isMounted st then setCommands (replace_command updatedCommand) st else st,
     w).

(** [filteredCommands]. *)
Definition filteredCommands (activeTag : string) (commands : list Command.t)
  : list Command.t :=
  if bool_decide (activeTag = "all") then commands
  else if bool_decide (activeTag = "favorites") then
    filter (λ cmd, Command.favorite cmd = true) commands
  else
    match List.find (λ cat, bool_decide (Category.id cat = activeTag)) CATEGORIES with
    | Some _ => filter (λ cmd, Command.category cmd = Some activeTag) commands
    | None => filter (λ cmd, activeTag ∈ Command.tags cmd) commands
    end.

(** ** Image auto-fetching *)

(** [cmd.image || autoFetchedImages[cmd.id] || fetchingImages[cmd.id]],
    read in the records that the effect closed over. *)
Definition has_image (snapshot : Grid) (cmd : Command.t) : bool :=
  truthy (Command.image cmd)
  || match autoFetchedImages snapshot !! Command.id cmd with
     | Some url => truthy url
     | None => false
     end
  || match fetchingImages snapshot !! Command.id cmd with
     | Some b => b
     | None => false
     end.

Definition setFetchingImages (f : gmap Z bool → gmap Z bool) (g : Grid) : Grid :=
  mkGrid (activeTag g) (imageErrors g) (autoFetchedImages g) (f (fetchingImages g)).

Definition setAutoFetchedImages (f : gmap Z string → gmap Z string) (g : Grid) : Grid :=
  mkGrid (activeTag g) (imageErrors g) (f (autoFetchedImages g)) (fetchingImages g).

(** The loop of [fetchImagesForCommands], for a component that stays in
    the state [mounted] while the loop runs. *)
Fixpoint fetch_images `{Host} (mounted : bool) (snapshot : Grid)
    (cmds : list Command.t) (g : Grid) (w : World) : Grid * World :=
  match cmds with
  | [] => (g, w)
  | cmd :: rest =>
      if negb mounted then (g, w)
      else if has_image snapshot cmd then fetch_images mounted snapshot rest g w
      else
        let g := setFetchingImages (<[Command.id cmd := true]>) g in
        let '(imageUrl, w) := fetchDSTImage (Command.name cmd) w in
        if negb mounted then (g, w)
        else
          let g := setFetchingImages (delete (Command.id cmd)) g in
          let g :=
            match imageUrl with
            | Some url =>
                if truthy url
                then setAutoFetchedImages (<[Command.id cmd := url]>) g
                else g
            | None => g
            end in
          fetch_images mounted snapshot rest g w
  end.

(** The effect on [commands]. *)
Definition fetchImagesForCommands `{Host} (st : State) (g : Grid) (w : World)
  : Grid * World :=
  if negb (isMounted st) then (g, w)
  else
    match commands st with
    | [] => (g, w)
    | _ :: _ => fetch_images (isMounted st) g (commands st) g w
    end.

(** [setEditTagName(name)]. *)
Definition setEditTagName (name : string) (st : State) : State :=
  mkState (commands st) (tags st) (loading st) (toasts st)
    (editingTagId st) name (editTagColor st) (isMounted st).

(** *** Worlds and inputs of the further properties *)

(** A store with a command, a tag and an entry of the image cache. *)
Definition three_records : World :=
  with_localStorage
    {[ "dst_app_dst:1" := "a"; "dst_app_dsttag:1" := "b";
       "dst_img_spider" := "c" ]}
    empty_world.

(** The entries [(a, v); ...; (a + n - 1, v)]. *)
Definition numbered_from (a n : nat) (v : string) : list (string * string) :=
  (λ i : nat, (pretty i, v)) <$> seq a n.

(** A [set] for every entry. *)
Definition sets (kvs : list (string * string)) : list ImageCacheManager.op :=
  (λ kv, ImageCacheManager.OpSet kv.1 kv.2) <$> kvs.

(** The world after a restart: the store is kept, the memory cache and the
    logs are empty, the clock has been read [n] times. *)
Definition restarted (n : nat) (w : World) : World :=
  mkWorld (localStorage w) ImageCacheManager.empty [] n [].

(** The editor on a fourth command. *)
Definition reveal_map_editor : Editor :=
  mkEditor (Some 4%Z) " Reveal Map " "minimap.MiniMap:ShowArea(0,0,0,10000)" ""
    ["Admin"] None true false false.

(** The grid with the filter on the tag [Admin]. *)
Definition admin_grid : Grid := mkGrid "Admin" ∅ ∅ ∅.

(** What every [set] with a key that is not empty keeps of the memory
    cache: no key is empty, no key occurs twice, and the cache is within
    its maximum. *)
Definition well_kept (c : ImageCacheManager.t) : Prop :=
  Forall (λ kv, kv.1 ≠ "") c ∧ NoDup c.*1 ∧
  JsMap.size c ≤ ImageCacheManager.maxCacheSize.

(** * Properties *)

(** ** The definitions on small inputs *)

Example map_set_keeps_position :
  JsMap.set [("a", "1"); ("b", "2")] "a" "3" = [("a", "3"); ("b", "2")] ∧
  JsMap.set [("a", "1"); ("b", "2")] "c" "3" = [("a", "1"); ("b", "2"); ("c", "3")].
Proof. split; reflexivity. Qed.

Example full_cache_drops_first_key :
  let c := ImageCacheManager.set_all ImageCacheManager.empty (numbered 100 "v") in
  JsMap.first_key c = Some "1" ∧
  JsMap.first_key (ImageCacheManager.set c "x" "v") = Some "2" ∧
  JsMap.size (ImageCacheManager.set c "x" "v") = 100.
Proof. vm_compute. repeat split; reflexivity. Qed.

Example expiry_in_milliseconds : expiry = 604800000%Z.
Proof. reflexivity. Qed.

Example api_url_of_a_name_with_a_space :
  apiUrl "Spider Queen_Build.png"
  = "https://dontstarve.fandom.com/api.php?action=query&titles=File%3ASpider%20Queen_Build.png&prop=imageinfo&iiprop=url&format=json&origin=*".
Proof. reflexivity. Qed.

Example keys_of_the_records :
  tag_key 3 = "dsttag:3" ∧ command_key 12 = "dst:12" ∧
  startsWith "dst_app_dsttag:3" "dst_app_dst:" = false ∧
  substring_from 8 "dst_app_dst:12" = "dst:12".
Proof. vm_compute. repeat split; reflexivity. Qed.

Example sort_by_id :
  Tag.id <$> sort_by Tag.id
    [ Tag.mk 3 "Items" "#10b981"; Tag.mk 1 "Admin" "#ef4444";
      Tag.mk 2 "Spawning" "#8b5cf6" ]
  = [1; 2; 3]%Z.
Proof. reflexivity. Qed.

Example json_of_a_tag :
  Reference.JSON_stringify_tag (Tag.mk 1 "Admin" "#ef4444")
  = "{" +:+ dq +:+ "id" +:+ dq +:+ ":1," +:+ dq +:+ "name" +:+ dq +:+ ":"
    +:+ dq +:+ "Admin" +:+ dq +:+ "," +:+ dq +:+ "color" +:+ dq +:+ ":"
    +:+ dq +:+ "#ef4444" +:+ dq +:+ "}".
Proof. vm_compute. reflexivity. Qed.

Example json_read_back :
  let c := Command.mk 2 "Spawn Spider"
             ("c_spawn(" +:+ dq +:+ "spider" +:+ dq +:+ ")") ""
             ["Spawning"; "A\B"] None true in
  Reference.JSON_parse_command (Reference.JSON_stringify_command c) = Some c ∧
  Reference.JSON_parse_command "{}" = None.
Proof. vm_compute. split; reflexivity. Qed.

Example reference_case_and_space :
  Reference.trim (Reference.toLowerCase "  Spider Queen ") = "spider queen".
Proof. reflexivity. Qed.

(** ** The memory cache *)

Section memory_cache.
Import ImageCacheManager.

Lemma JsMap_get_set_eq (m : JsMap.t) k v : JsMap.get (JsMap.set m k v) k = Some v.
Proof.
  induction m as [|[k' v'] m IH]; simpl.
  - by rewrite decide_True.
  - destruct (decide (k' = k)) as [->|Hne]; simpl.
    + by rewrite decide_True.
    + by rewrite decide_False.
Qed.

Lemma JsMap_get_set_ne (m : JsMap.t) k k' v :
  k ≠ k' → JsMap.get (JsMap.set m k v) k' = JsMap.get m k'.
Proof.
  intros Hne. induction m as [|[k0 v0] m IH]; simpl.
  - by rewrite decide_False.
  - destruct (decide (k0 = k)) as [->|Hne0]; simpl.
    + by rewrite !decide_False.
    + destruct (decide (k0 = k')); done.
Qed.

Lemma JsMap_get_delete_ne (m : JsMap.t) k k' :
  k ≠ k' → JsMap.get (JsMap.delete m k) k' = JsMap.get m k'.
Proof.
  intros Hne. unfold JsMap.delete.
  induction m as [|[k0 v0] m IH]; [done|].
  rewrite filter_cons. simpl. destruct (decide (k0 ≠ k)) as [Hk|Hk]; simpl.
  - by rewrite IH.
  - apply dec_stable in Hk. subst k0. by rewrite decide_False.
Qed.

Lemma JsMap_size_set (m : JsMap.t) k v : JsMap.size (JsMap.set m k v) ≤ S (JsMap.size m).
Proof.
  unfold JsMap.size. induction m as [|[k0 v0] m IH]; simpl; [lia|].
  destruct (decide (k0 = k)); simpl; lia.
Qed.

Lemma JsMap_size_delete_first (m : JsMap.t) k :
  JsMap.first_key m = Some k → S (JsMap.size (JsMap.delete m k)) ≤ JsMap.size m.
Proof.
  unfold JsMap.first_key, JsMap.delete, JsMap.size.
  destruct m as [|[k0 v0] m]; simpl; [done|]. intros [= ->].
  rewrite filter_cons_False by (simpl; tauto).
  pose proof (length_filter (λ kv : string * string, kv.1 ≠ k) m). simpl. lia.
Qed.

(** The eviction step leaves every key but the evicted one. *)
Lemma get_evict (c : ImageCacheManager.t) key :
  removes c (OpSet key key) key = false →
  JsMap.get (evict c) key = JsMap.get c key.
Proof.
  unfold removes, evict. intros Hrm.
  destruct (decide (maxCacheSize ≤ JsMap.size c)) as [Hfull|]; [|done].
  rewrite bool_decide_eq_true_2 in Hrm by done. simpl in Hrm.
  destruct (JsMap.first_key c) as [firstKey|] eqn:Hfirst; [|done].
  destruct (truthy firstKey) eqn:Htruthy; [|done].
  apply JsMap_get_delete_ne. intros ->.
  rewrite bool_decide_eq_true_2, Htruthy in Hrm; done.
Qed.

Lemma kept_get (c : ImageCacheManager.t) ops key value :
  JsMap.get c key = Some value →
  kept c ops key = true →
  JsMap.get (run c ops) key = Some value.
Proof.
  revert c. induction ops as [|o ops IH]; intros c Hget Hkept; [done|].
  simpl in Hkept. apply andb_true_iff in Hkept as [Hhere Hrest].
  apply andb_true_iff in Hhere as [Hrm Hwr].
  apply negb_true_iff in Hrm, Hwr.
  change (run c (o :: ops)) with (run (step c o) ops).
  apply IH; [|done]. destruct o as [k|k v|]; simpl in *; [done| |done].
  apply bool_decide_eq_false in Hwr.
  unfold ImageCacheManager.set. rewrite JsMap_get_set_ne by done.
  by rewrite get_evict.
Qed.

(** The cache stays within its maximum as long as no key is empty. *)
Lemma set_all_bounded (c : ImageCacheManager.t) kvs :
  Forall (λ kv, kv.1 ≠ "") (c ++ kvs) →
  JsMap.size c ≤ maxCacheSize →
  JsMap.size (set_all c kvs) ≤ maxCacheSize.
Proof.
  revert c. induction kvs as [|[k v] kvs IH]; intros c Hkeys Hsize; [done|].
  simpl. apply Forall_app in Hkeys as [Hc Hkvs].
  apply Forall_cons in Hkvs as [Hk Hkvs]. simpl in Hk.
  assert (Hev : Forall (λ kv, kv.1 ≠ "") (evict c) ∧
                (JsMap.size (evict c) < maxCacheSize ∨
                 evict c = c ∧ JsMap.size c < maxCacheSize)).
  { unfold evict. destruct (decide (maxCacheSize ≤ JsMap.size c)) as [Hfull|Hfree].
    - destruct (JsMap.first_key c) as [firstKey|] eqn:Hfirst.
      + assert (truthy firstKey = true) as ->.
        { apply bool_decide_eq_true. unfold JsMap.first_key in Hfirst.
          destruct c as [|[k0 v0] c]; [done|]. simpl in Hfirst.
          injection Hfirst as <-. by apply Forall_cons in Hc as [? _]. }
        split; [rewrite Forall_forall in Hc |- *; intros x [_ Hx]%list_elem_of_filter; auto|].
        left. pose proof (JsMap_size_delete_first c firstKey Hfirst). lia.
      + unfold JsMap.first_key in Hfirst. destruct c; [|done].
        unfold maxCacheSize, JsMap.size in Hfull. simpl in Hfull. lia.
    - split; [done|]. right. split; [done|lia]. }
  destruct Hev as [Hev Hlt]. apply IH.
  - apply Forall_app. split; [|done]. unfold ImageCacheManager.set. simpl.
    clear -Hev Hk. induction (evict c) as [|[k0 v0] m IHm]; simpl.
    + by constructor.
    + apply Forall_cons in Hev as [? ?].
      destruct (decide (k0 = k)); constructor; auto.
  - unfold ImageCacheManager.set. simpl.
    pose proof (JsMap_size_set (evict c) k v).
    destruct Hlt as [?|[Heq ?]]; [|rewrite Heq in *]; lia.
Qed.

(** C9, as stated, fails on the code: an empty string that was stored with
    [set] is read back by [get] as [null], although the entry is in the map
    and nothing removed it. *)
Lemma get_after_set_empty_value :
  let c := ImageCacheManager.set ImageCacheManager.empty "wilson" "" in
  kept c [] "wilson" = true ∧
  JsMap.get (run c []) "wilson" = Some "" ∧
  ImageCacheManager.get (run c []) "wilson" = None ∧
  ImageCacheManager.get (run c []) "wilson" ≠ Some "".
Proof. repeat split; [reflexivity.. | discriminate]. Qed.

(** C9 (amended): for every key and every string value stored with
    [set(key, value)], as long as no operation of the run in between
    removes the entry (a [clear()], or a [set] whose eviction deletes this
    key) or sets the key again, the entry is in the map with that value,
    and every later [get(key)] returns the value when it is not the empty
    string, and [null] when it is: a stored empty string is read back as
    absent. *)
Theorem get_after_set (c : ImageCacheManager.t) (key value : string) (ops : list op) :
  let c' := run (ImageCacheManager.set c key value) ops in
  kept (ImageCacheManager.set c key value) ops key = true →
  JsMap.get c' key = Some value ∧
  (value ≠ "" → ImageCacheManager.get c' key = Some value) ∧
  (value = "" → ImageCacheManager.get c' key = None) ∧
  ImageCacheManager.get c' key = (if decide (value = "") then None else Some value).
Proof.
  intros c' Hkept.
  assert (Hentry : JsMap.get c' key = Some value).
  { apply kept_get; [apply JsMap_get_set_eq|done]. }
  unfold ImageCacheManager.get. rewrite Hentry. simpl. unfold truthy.
  split; [done|]. split_and!.
  - intros Hvalue. by rewrite bool_decide_eq_true_2.
  - intros ->. done.
  - destruct (decide (value = "")) as [->|Hvalue]; [done|].
    by rewrite bool_decide_eq_true_2.
Qed.

Lemma get_after_set_witness :
  let c := ImageCacheManager.set (numbered 3 "u") "wilson" "w.png" in
  let ops := [OpGet "spider"; OpSet "spider" "s.png"; OpGet "wilson"] in
  ImageCacheManager.get (run c ops) "wilson" = Some "w.png" ∧
  ImageCacheManager.get
    (run (ImageCacheManager.set (numbered 3 "u") "wilson" "") ops) "wilson"
  = None.
Proof.
  intros c ops. split.
  - destruct (get_after_set (numbered 3 "u") "wilson" "w.png" ops)
      as (_ & Hvalue & _); [reflexivity|].
    apply Hvalue. discriminate.
  - destruct (get_after_set (numbered 3 "u") "wilson" "" ops)
      as (_ & _ & Hempty & _); [reflexivity|].
    apply Hempty. reflexivity.
Defined.

(** The class by itself, on a key that [fetchDSTImage] never passes: with
    the empty string as the oldest key of a full cache, [if (firstKey)] is
    false and nothing is evicted. A hundred other keys after the empty one
    leave 101 entries. *)
Example empty_key_is_not_evicted :
  JsMap.size (set_all ImageCacheManager.empty (("", "v") :: numbered 100 "v"))
  = S maxCacheSize.
Proof. vm_compute. reflexivity. Qed.

(** Likewise a [set] on a key that is present leaves the empty oldest key
    of a full cache in place. *)
Example empty_oldest_key_stays :
  let c := set_all ImageCacheManager.empty (("", "v") :: numbered 99 "v") in
  JsMap.size c = maxCacheSize ∧
  JsMap.first_key c = Some "" ∧
  JsMap.get c "7" = Some "v" ∧
  ImageCacheManager.set c "7" "w" = JsMap.set c "7" "w" ∧
  JsMap.first_key (ImageCacheManager.set c "7" "w") = Some "" ∧
  JsMap.size (ImageCacheManager.set c "7" "w") = maxCacheSize.
Proof. vm_compute. repeat split; reflexivity. Qed.

(** Where the oldest key of a full cache is not empty, every [set] deletes
    it before it stores, whether or not its own key is present. *)
Lemma set_evicts_oldest (c : ImageCacheManager.t) (oldest key value : string) :
  maxCacheSize ≤ JsMap.size c →
  JsMap.first_key c = Some oldest →
  oldest ≠ "" →
  ImageCacheManager.set c key value = JsMap.set (JsMap.delete c oldest) key value.
Proof.
  intros Hfull Hfirst Holdest. unfold ImageCacheManager.set, evict.
  rewrite decide_True by done. rewrite Hfirst.
  unfold truthy. by rewrite bool_decide_eq_true_2.
Qed.

(** An update of a key that is present, in a full cache, removes the value
    of another key and leaves the cache below its maximum. *)
Lemma update_in_full_cache_evicts :
  let c := set_all ImageCacheManager.empty (numbered 100 "v") in
  JsMap.size c = maxCacheSize ∧
  ImageCacheManager.get c "1" = Some "v" ∧
  ImageCacheManager.get c "7" = Some "v" ∧
  ImageCacheManager.get (ImageCacheManager.set c "7" "w") "1" = None ∧
  JsMap.size (ImageCacheManager.set c "7" "w") = 99.
Proof. vm_compute. repeat split; reflexivity. Qed.

End memory_cache.


(** ** The storage adapter *)

Section storage_adapter.
Context `{Host}.

Lemma length_string_repeat (c : Ascii.ascii) (n : nat) :
  String.length (string_repeat c n) = n.
Proof. induction n as [|n IH]; simpl; [done | by rewrite IH]. Qed.

Lemma blob_size_truthy (value : string) :
  (0 < blob_size value)%N → truthy value = true.
Proof.
  intros Hsize. apply bool_decide_eq_true. intros ->.
  unfold blob_size in Hsize. simpl in Hsize. lia.
Qed.

(** C1: for every key and every value whose size in bytes exceeds the quota
    of 4,800,000, [set(key, value)] returns [false]: its [try] block returns
    at the size check, without an error and before [setItem]. The world is
    as before: nothing is written, so what the adapter holds under the key
    is unchanged. *)
Theorem set_over_quota (key value : string) (w : World) :
  (4800000 < blob_size value)%N →
  StorageAdapter.set_try key value w = (returns false, w) ∧
  StorageAdapter.set key value w = (false, w) ∧
  StorageAdapter.get key (StorageAdapter.set key value w).2
  = StorageAdapter.get key w.
Proof.
  intros Hsize.
  assert (Htry : StorageAdapter.set_try key value w = (returns false, w)).
  { unfold StorageAdapter.set_try.
    rewrite blob_size_truthy by lia. simpl.
    unfold StorageAdapter.quota.
    by rewrite (proj2 (N.ltb_lt _ _) Hsize). }
  unfold StorageAdapter.set. by rewrite Htry.
Qed.

(** [set] returns a boolean whatever its [try] block does, and it changes
    the store only where it returns [true]. *)
Lemma set_false_unchanged (key value : string) (w : World) :
  (StorageAdapter.set key value w).1 = false →
  (StorageAdapter.set key value w).2 = w.
Proof.
  unfold StorageAdapter.set, StorageAdapter.set_try.
  destruct (negb (truthy value)); [done|].
  destruct (_ <? _)%N; [done|].
  by destruct (storage_accepts _ _ _).
Qed.

End storage_adapter.

(** A value of 4,800,001 bytes. *)
Lemma set_over_quota_witness :
  let w := with_localStorage {[ "dst_app_dst:1" := "old" ]} empty_world in
  let value := string_repeat (Ascii.ascii_of_nat 97) (N.to_nat 4800001) in
  (4800000 < blob_size value)%N ∧
  @StorageAdapter.set offline "dst:1" value w = (false, w) ∧
  StorageAdapter.get "dst:1" (@StorageAdapter.set offline "dst:1" value w).2
  = StorageAdapter.get "dst:1" w.
Proof.
  intros w value.
  assert (Hsize : (4800000 < blob_size value)%N).
  { unfold blob_size, value. rewrite length_string_repeat. lia. }
  split; [exact Hsize|].
  exact (proj2 (@set_over_quota offline "dst:1" value w Hsize)).
Defined.

(** ** The entries in [localStorage] *)

Section durable_cache.
Context `{Host}.

Lemma check_localStorage_absent (cacheKey : string) (w : World) :
  localStorage w !! image_key cacheKey = None →
  check_localStorage cacheKey w = (None, w).
Proof. intros Habsent. unfold check_localStorage. by rewrite Habsent. Qed.

(** What "Cache the result" leaves in the store when the host accepts the
    value: the entry with the reading of the clock. *)
Lemma cache_result_stored (cacheKey imageUrl : string) (w : World) :
  let entry := CacheEntry.mk imageUrl (Date_now (ticks w)) in
  storage_accepts (localStorage w) (image_key cacheKey)
    (JSON_stringify_entry entry) = true →
  localStorage (cache_result cacheKey imageUrl w) !! image_key cacheKey
  = Some (JSON_stringify_entry entry).
Proof.
  intros entry Haccepts. unfold cache_result. simpl.
  fold entry. rewrite Haccepts. simpl. apply lookup_insert_eq.
Qed.

(** C2: a durable entry written at time [t] (the text that [JSON.stringify]
    gives for [{url, timestamp: t}], which [JSON.parse] reads back) and read
    when the clock shows [t_read]. The time to live is 7 days. While
    [t_read - t < expiry] the read returns the stored url; from
    [expiry ≤ t_read - t] on the read returns nothing and removes the
    record, and every later read of a store in which the key is still
    absent returns nothing and changes nothing. *)
Theorem durable_entry_expires (cacheKey imageUrl : string) (t : Z) (w : World) :
  let entry := CacheEntry.mk imageUrl t in
  let t_read := Date_now (ticks w) in
  truthy (JSON_stringify_entry entry) = true →
  JSON_parse_entry (JSON_stringify_entry entry) = Some entry →
  localStorage w !! image_key cacheKey = Some (JSON_stringify_entry entry) →
  expiry = (7 * 24 * 60 * 60 * 1000)%Z ∧
  ((t_read - t < expiry)%Z →
     (check_localStorage cacheKey w).1 = Some imageUrl ∧
     localStorage (check_localStorage cacheKey w).2 = localStorage w) ∧
  ((expiry ≤ t_read - t)%Z →
     (check_localStorage cacheKey w).1 = None ∧
     localStorage (check_localStorage cacheKey w).2
     = delete (image_key cacheKey) (localStorage w) ∧
     localStorage (check_localStorage cacheKey w).2 !! image_key cacheKey = None ∧
     ∀ w' : World,
       localStorage w' !! image_key cacheKey = None →
       check_localStorage cacheKey w' = (None, w')).
Proof.
  intros entry t_read Htruthy Hparse Hstored. split; [reflexivity|].
  unfold check_localStorage. rewrite Hstored, Htruthy, Hparse. simpl.
  fold t_read. split; intros Hage.
  - by rewrite (proj2 (Z.ltb_lt _ _) Hage).
  - rewrite (proj2 (Z.ltb_ge _ _) Hage). simpl.
    repeat split; [apply lookup_delete_eq | apply check_localStorage_absent].
Qed.

End durable_cache.

(** An entry read by two hosts: one whose clock shows a day after the
    write, one whose clock shows eight days after it. *)
Lemma durable_entry_expires_witness :
  let t := 1700000000000%Z in
  let day := 86400000%Z in
  let entry := CacheEntry.mk "https://wiki/Spider_Build.png" t in
  let w := with_localStorage
             {[ image_key "spider" := Reference.JSON_stringify_entry entry ]}
             empty_world in
  let host (clock : Z) :=
    Reference.host (λ _, clock) (λ _ _, NetworkError) (λ _ _ _, true) in
  (@check_localStorage (host (t + day)%Z) "spider" w).1
  = Some "https://wiki/Spider_Build.png" ∧
  (@check_localStorage (host (t + 8 * day)%Z) "spider" w).1 = None ∧
  localStorage (@check_localStorage (host (t + 8 * day)%Z) "spider" w).2
  !! image_key "spider" = None.
Proof.
  intros t day entry w host.
  pose proof (@durable_entry_expires (host (t + day)%Z) "spider"
                "https://wiki/Spider_Build.png" t w
                eq_refl eq_refl eq_refl) as (_ & Hvalid & _).
  pose proof (@durable_entry_expires (host (t + 8 * day)%Z) "spider"
                "https://wiki/Spider_Build.png" t w
                eq_refl eq_refl eq_refl) as (_ & _ & Hexpired).
  split; [apply Hvalid; vm_compute; reflexivity|].
  destruct Hexpired as (? & _ & ? & _); [vm_compute; discriminate|].
  split; assumption.
Defined.

(** ** The candidates of the wiki *)

Section resolver.
Context `{Host}.

Lemma answer_head (history : list string) filename rest :
  answer history (filename :: rest) 0
  = candidate_result (fetch history (apiUrl filename)).
Proof. unfold answer. simpl. by rewrite app_nil_r. Qed.

Lemma answer_tail (history : list string) filename rest i :
  answer history (filename :: rest) (S i)
  = answer (history ++ [apiUrl filename]) rest i.
Proof.
  unfold answer. simpl. destruct (rest !! i); [|done].
  by rewrite <- app_assoc.
Qed.

Lemma requests_cache_result cacheKey imageUrl (w : World) :
  requests (cache_result cacheKey imageUrl w) = requests w.
Proof. unfold cache_result. simpl. by destruct (storage_accepts _ _ _). Qed.

Lemma requests_check_localStorage cacheKey (w : World) :
  requests (check_localStorage cacheKey w).2 = requests w.
Proof.
  unfold check_localStorage.
  destruct (localStorage w !! image_key cacheKey) as [stored|]; [|done].
  destruct (truthy stored); [|done].
  destruct (JSON_parse_entry stored) as [entry|]; [|done].
  simpl. by destruct (_ <? _)%Z.
Qed.

Lemma try_patterns_cons cacheKey filename rest (w : World) :
  try_patterns cacheKey (filename :: rest) w
  = match candidate_result (fetch (requests w) (apiUrl filename)) with
    | Some imageUrl =>
        (Some imageUrl,
         cache_result cacheKey imageUrl (request (apiUrl filename) w).2)
    | None => try_patterns cacheKey rest (request (apiUrl filename) w).2
    end.
Proof. reflexivity. Qed.

Lemma requests_request url (w : World) :
  requests (request url w).2 = requests w ++ [url].
Proof. reflexivity. Qed.

(** The loop stops at the first candidate with an answer. *)
Lemma try_patterns_success cacheKey filenames (w : World) n imageUrl :
  (∀ i, i < n → answer (requests w) filenames i = None) →
  answer (requests w) filenames n = Some imageUrl →
  (try_patterns cacheKey filenames w).1 = Some imageUrl ∧
  requests (try_patterns cacheKey filenames w).2
  = requests w ++ (apiUrl <$> take (S n) filenames).
Proof.
  revert w n. induction filenames as [|filename rest IH]; intros w n Hbefore Hn.
  - unfold answer in Hn. by rewrite lookup_nil in Hn.
  - rewrite try_patterns_cons. destruct n as [|n].
    + rewrite answer_head in Hn. rewrite Hn. simpl.
      by rewrite requests_cache_result.
    + pose proof (Hbefore 0 ltac:(lia)) as Hfirst.
      rewrite answer_head in Hfirst. rewrite Hfirst.
      destruct (IH (request (apiUrl filename) w).2 n) as [Hres Hreq].
      * intros i Hi. rewrite requests_request, <- answer_tail.
        apply Hbefore. lia.
      * by rewrite requests_request, <- answer_tail.
      * split; [exact Hres|].
        rewrite Hreq, requests_request, <- app_assoc. done.
Qed.

(** The loop ends without a result when no candidate has an answer. *)
Lemma try_patterns_exhausted cacheKey filenames (w : World) :
  (∀ i, i < length filenames → answer (requests w) filenames i = None) →
  (try_patterns cacheKey filenames w).1 = None ∧
  requests (try_patterns cacheKey filenames w).2
  = requests w ++ (apiUrl <$> filenames).
Proof.
  revert w. induction filenames as [|filename rest IH]; intros w Hall.
  - simpl. by rewrite app_nil_r.
  - rewrite try_patterns_cons.
    pose proof (Hall 0 ltac:(simpl; lia)) as Hfirst.
    rewrite answer_head in Hfirst. rewrite Hfirst.
    destruct (IH (request (apiUrl filename) w).2) as [Hres Hreq].
    + intros i Hi. rewrite requests_request, <- answer_tail.
      apply Hall. simpl. lia.
    + split; [exact Hres|].
      rewrite Hreq, requests_request, <- app_assoc. done.
Qed.

(** The answers on which the loop goes on to the next candidate. *)
Lemma candidate_failure (r : Response) :
  candidate_result r = None ↔
  r = NetworkError ∨ (∃ json, r = Reply false json) ∨ r = Reply true None ∨
  (∃ data, r = Reply true (Some data) ∧ image_url data = None).
Proof.
  split.
  - destruct r as [|[] [data|]]; simpl; eauto 6.
  - intros [->|[[json ->]|[->|(data & -> & Hdata)]]]; done.
Qed.

(** C4: for every non-blank name that misses in the memory cache and in
    [localStorage], [fetchDSTImage] asks the wiki for [name_Build.png],
    [name.png], [name_Portrait.png] and [name_Icon.png], in this order. It
    returns the url of the first candidate with an answer, and the requests
    it issued are the candidates up to that one. A candidate without an
    answer (the request fails, the response is not ok, its body cannot be
    read, or a field on the way to the url is missing) moves the loop to the
    next one. When none of the four has an answer the result is [null] and
    the four requests were issued. *)
Theorem candidates_in_order (itemName : string) (w : World) :
  let cacheKey := trim (toLowerCase itemName) in
  let candidates :=
    [ itemName +:+ "_Build.png"; itemName +:+ ".png";
      itemName +:+ "_Portrait.png"; itemName +:+ "_Icon.png" ] in
  itemName ≠ "" →
  trim itemName ≠ "" →
  ImageCacheManager.get (memoryCache w) cacheKey = None →
  (check_localStorage cacheKey w).1 = None →
  (∀ n imageUrl,
     (∀ i, i < n → answer (requests w) candidates i = None) →
     answer (requests w) candidates n = Some imageUrl →
     (fetchDSTImage itemName w).1 = Some imageUrl ∧
     requests (fetchDSTImage itemName w).2
     = requests w ++ (apiUrl <$> take (S n) candidates)) ∧
  ((∀ i, i < 4 → answer (requests w) candidates i = None) →
     (fetchDSTImage itemName w).1 = None ∧
     requests (fetchDSTImage itemName w).2
     = requests w ++ (apiUrl <$> candidates)) ∧
  (∀ r, candidate_result r = None ↔
        r = NetworkError ∨ (∃ json, r = Reply false json) ∨
        r = Reply true None ∨
        (∃ data, r = Reply true (Some data) ∧ image_url data = None)).
Proof.
  intros cacheKey candidates Hname Htrim Hmemory Hstorage.
  assert (Hfetch : fetchDSTImage itemName w
                   = try_patterns cacheKey candidates
                       (check_localStorage cacheKey w).2).
  { unfold fetchDSTImage, truthy.
    rewrite bool_decide_eq_true_2, bool_decide_eq_false_2 by done. simpl.
    fold cacheKey. rewrite Hmemory.
    destruct (check_localStorage cacheKey w) as [[url|] w'] eqn:Hcheck; done. }
  rewrite Hfetch. split; [|split; [|apply candidate_failure]].
  - intros n imageUrl Hbefore Hn.
    rewrite <- (requests_check_localStorage cacheKey w) in Hbefore, Hn |- *.
    by apply try_patterns_success.
  - intros Hall.
    rewrite <- (requests_check_localStorage cacheKey w) in Hall |- *.
    by apply try_patterns_exhausted.
Qed.

End resolver.

(** A wiki on which the third candidate succeeds, and a host without
    network. *)
Lemma candidates_in_order_witness :
  ((@fetchDSTImage online "Spider" empty_world).1
   = Some "https://wiki/Spider_Portrait.png" ∧
   requests (@fetchDSTImage online "Spider" empty_world).2
   = [ apiUrl "Spider_Build.png"; apiUrl "Spider.png";
       apiUrl "Spider_Portrait.png" ]) ∧
  ((@fetchDSTImage offline "Spider" empty_world).1 = None ∧
   requests (@fetchDSTImage offline "Spider" empty_world).2
   = [ apiUrl "Spider_Build.png"; apiUrl "Spider.png";
       apiUrl "Spider_Portrait.png"; apiUrl "Spider_Icon.png" ]).
Proof.
  split.
  - destruct (@candidates_in_order online "Spider" empty_world)
      as (Hfirst & _ & _).
    + discriminate.
    + vm_compute. discriminate.
    + reflexivity.
    + reflexivity.
    + apply (Hfirst 2 "https://wiki/Spider_Portrait.png").
      * intros [|[|i]] Hi; [reflexivity | reflexivity | lia].
      * reflexivity.
  - destruct (@candidates_in_order offline "Spider" empty_world)
      as (_ & Hnone & _).
    + discriminate.
    + vm_compute. discriminate.
    + reflexivity.
    + reflexivity.
    + apply Hnone. intros [|[|[|[|i]]]] Hi; [reflexivity.. | lia].
Defined.

(** ** A second resolution *)

Section resolver_twice.
Context `{Host}.

Lemma get_set_truthy (c : ImageCacheManager.t) (key value : string) :
  value ≠ "" →
  ImageCacheManager.get (ImageCacheManager.set c key value) key = Some value.
Proof.
  intros Hvalue. unfold ImageCacheManager.get, ImageCacheManager.set.
  rewrite JsMap_get_set_eq. simpl. unfold truthy.
  by rewrite bool_decide_eq_true_2.
Qed.

Lemma or_null_truthy (o : option string) (s : string) :
  or_null o = Some s → s ≠ "".
Proof.
  destruct o as [s'|]; simpl; [|done].
  destruct (truthy s') eqn:Htruthy; [|done].
  intros [= <-]. by apply bool_decide_eq_true in Htruthy.
Qed.

Lemma candidate_result_truthy (r : Response) (imageUrl : string) :
  candidate_result r = Some imageUrl → imageUrl ≠ "".
Proof.
  destruct r as [|[] [data|]]; simpl; try done.
  unfold image_url. intros Hurl.
  do 5 (apply bind_Some in Hurl as (? & _ & Hurl)).
  by apply or_null_truthy in Hurl.
Qed.

Lemma memoryCache_cache_result cacheKey imageUrl (w : World) :
  memoryCache (cache_result cacheKey imageUrl w)
  = ImageCacheManager.set (memoryCache w) cacheKey imageUrl.
Proof. unfold cache_result. simpl. by destruct (storage_accepts _ _ _). Qed.

(** A result of the loop is truthy and is in the memory cache. *)
Lemma try_patterns_cached cacheKey filenames (w : World) imageUrl :
  (try_patterns cacheKey filenames w).1 = Some imageUrl →
  ImageCacheManager.get (memoryCache (try_patterns cacheKey filenames w).2) cacheKey
  = Some imageUrl.
Proof.
  revert w. induction filenames as [|filename rest IH]; intros w; [done|].
  rewrite try_patterns_cons.
  destruct (candidate_result _) as [url|] eqn:Hcandidate; [|apply IH].
  simpl. intros [= ->]. rewrite memoryCache_cache_result.
  apply get_set_truthy. by eapply candidate_result_truthy.
Qed.

(** A result of the look into [localStorage] is in the memory cache, when
    it is truthy. *)
Lemma check_localStorage_cached cacheKey (w : World) url :
  (check_localStorage cacheKey w).1 = Some url →
  url ≠ "" →
  ImageCacheManager.get (memoryCache (check_localStorage cacheKey w).2) cacheKey
  = Some url.
Proof.
  unfold check_localStorage.
  destruct (localStorage w !! image_key cacheKey) as [stored|]; [|done].
  destruct (truthy stored); [|done].
  destruct (JSON_parse_entry stored) as [entry|]; [|done].
  simpl. destruct (_ <? _)%Z; [|done].
  simpl. intros [= ->] Hurl. by apply get_set_truthy.
Qed.

(** C8: for every name whose first resolution succeeds with some value, a
    second call with the same name returns that value from the memory
    cache and leaves the world as it is: no request is issued, the clock
    is not read and nothing is stored. A resolution succeeds when it
    returns a url that is not the empty string: the resolver and its
    caller read the empty string as no result ([if (cached)],
    [if (imageUrl)]). *)
Theorem second_resolution_cached (itemName value : string) (w : World) :
  (fetchDSTImage itemName w).1 = Some value →
  value ≠ "" →
  let w1 := (fetchDSTImage itemName w).2 in
  ImageCacheManager.get (memoryCache w1) (trim (toLowerCase itemName))
  = Some value ∧
  fetchDSTImage itemName w1 = (Some value, w1) ∧
  requests (fetchDSTImage itemName w1).2 = requests w1.
Proof.
  intros Hfirst Hvalue w1.
  assert (Hblank : negb (truthy itemName) || bool_decide (trim itemName = "") = false).
  { destruct (negb (truthy itemName) || bool_decide (trim itemName = ""))
      eqn:Hblank; [|done].
    unfold fetchDSTImage in Hfirst. by rewrite Hblank in Hfirst. }
  assert (Hcached : ImageCacheManager.get (memoryCache w1)
                      (trim (toLowerCase itemName)) = Some value).
  { unfold w1. unfold fetchDSTImage in Hfirst |- *. rewrite Hblank in Hfirst |- *.
    destruct (ImageCacheManager.get (memoryCache w) _) as [cached|] eqn:Hmemory.
    - simpl in Hfirst |- *. congruence.
    - destruct (check_localStorage _ w) as [[url|] w'] eqn:Hcheck.
      + simpl in Hfirst |- *. injection Hfirst as ->.
        pose proof (check_localStorage_cached (trim (toLowerCase itemName)) w value)
          as Hstored.
        rewrite Hcheck in Hstored. by apply Hstored.
      + by apply try_patterns_cached. }
  assert (Hsecond : fetchDSTImage itemName w1 = (Some value, w1)).
  { unfold fetchDSTImage at 1. by rewrite Hblank, Hcached. }
  rewrite Hsecond. done.
Qed.

End resolver_twice.

(** An entry of [localStorage] with an empty url, which "Cache the result"
    never writes: the first call returns the empty string, which its
    caller reads as no result; the memory cache reads it back as [null],
    and a second call after the entry has expired removes the entry, asks
    the wiki four times and returns [null]. *)
Example resolution_of_an_empty_url :
  let first := @fetchDSTImage late "Spider" empty_url_world in
  let second := @fetchDSTImage late "Spider" first.2 in
  first.1 = Some "" ∧
  second.1 = None ∧
  requests second.2 = requests first.2 ++ (apiUrl <$> patterns "Spider").
Proof. vm_compute. repeat split; reflexivity. Qed.

Lemma second_resolution_cached_witness :
  let w1 := (@fetchDSTImage online "Spider" empty_world).2 in
  (@fetchDSTImage online "Spider" empty_world).1
  = Some "https://wiki/Spider_Portrait.png" ∧
  @fetchDSTImage online "Spider" w1
  = (Some "https://wiki/Spider_Portrait.png", w1).
Proof.
  intros w1. split; [reflexivity|].
  apply (@second_resolution_cached online "Spider"
           "https://wiki/Spider_Portrait.png" empty_world);
    [reflexivity | discriminate].
Defined.

(** ** Saving a tag *)

Section tag_rename.
Context `{Host}.

Lemma name_taken_spec (id : Z) (trimmedName : string) (ts : list Tag.t) :
  name_taken id trimmedName ts = true ↔
  ∃ t, t ∈ ts ∧ Tag.id t ≠ id ∧
       toLowerCase (Tag.name t) = toLowerCase trimmedName.
Proof.
  unfold name_taken. rewrite existsb_exists. split.
  - intros (t & Hin & Ht). apply andb_true_iff in Ht as [Hid Hname].
    apply bool_decide_eq_true in Hid, Hname.
    exists t. by rewrite list_elem_of_In.
  - intros (t & Hin & Hid & Hname). exists t.
    rewrite <- list_elem_of_In. split; [done|].
    by rewrite !bool_decide_eq_true_2.
Qed.

(** *** The loop over the commands *)

Lemma rename_in_commands_world oldName newName cmds (st : State) (w : World) :
  (rename_in_commands oldName newName cmds st w).2
  = storage_set_all
      ((λ c, (command_key (Command.id c),
              JSON_stringify_command (rename_in_command oldName newName c))) <$>
       filter (λ c, oldName ∈ Command.tags c) cmds) w.
Proof.
  revert st w. induction cmds as [|cmd rest IH]; intros st w; [done|].
  simpl. rewrite filter_cons.
  destruct (decide (oldName ∈ Command.tags cmd)) as [Hin|Hout].
  - rewrite bool_decide_eq_true_2 by done. by rewrite IH.
  - rewrite bool_decide_eq_false_2 by done. by rewrite IH.
Qed.

Lemma rename_in_commands_state oldName newName cmds (st : State) (w : World) :
  (rename_in_commands oldName newName cmds st w).1
  = setCommands
      (λ cs, foldl (λ cs cmd,
                      replace_command (rename_in_command oldName newName cmd) cs)
               cs (filter (λ c, oldName ∈ Command.tags c) cmds)) st.
Proof.
  revert st w. induction cmds as [|cmd rest IH]; intros st w.
  - by destruct st.
  - simpl. rewrite filter_cons.
    destruct (decide (oldName ∈ Command.tags cmd)) as [Hin|Hout].
    + rewrite bool_decide_eq_true_2 by done. by rewrite IH.
    + rewrite bool_decide_eq_false_2 by done. by rewrite IH.
Qed.

(** With distinct ids, the updates of the loop rename the commands that
    include the old name, each in its place, and leave the others. *)
Lemma replace_commands_fmap oldName newName (cmds cs : list Command.t) :
  NoDup (Command.id <$> cmds) →
  foldl (λ cs cmd, replace_command (rename_in_command oldName newName cmd) cs)
    cs (filter (λ c, oldName ∈ Command.tags c) cmds)
  = (λ c, match List.find (λ cmd, bool_decide (Command.id cmd = Command.id c) &&
                                  bool_decide (oldName ∈ Command.tags cmd)) cmds with
          | Some cmd => rename_in_command oldName newName cmd
          | None => c
          end) <$> cs.
Proof.
  revert cs. induction cmds as [|cmd rest IH]; intros cs Hids.
  - simpl. by rewrite list_fmap_id.
  - rewrite fmap_cons in Hids. apply NoDup_cons in Hids as [Hfresh Hids].
    rewrite filter_cons. simpl.
    destruct (decide (oldName ∈ Command.tags cmd)) as [Hin|Hout].
    + simpl. rewrite IH by done. unfold replace_command.
      rewrite <- list_fmap_compose. apply list_fmap_ext. intros _ c _. simpl.
      rewrite (bool_decide_eq_true_2 (oldName ∈ _)) by done.
      rewrite andb_true_r.
      destruct (decide (Command.id c = Command.id cmd)) as [Heq|Hne].
      * rewrite bool_decide_eq_true_2 by done.
        destruct (List.find _ rest) as [cmd'|] eqn:Hfind; [|done].
        apply find_some in Hfind as [Hcmd' Hid].
        apply andb_true_iff in Hid as [Hid _]. apply bool_decide_eq_true in Hid.
        destruct Hfresh. simpl in Hid. rewrite <- Hid.
        apply list_elem_of_fmap. exists cmd'. by rewrite list_elem_of_In.
      * by rewrite bool_decide_eq_false_2 by done.
    + rewrite IH by done. apply list_fmap_ext. intros _ c _. simpl.
      by rewrite (bool_decide_eq_false_2 (oldName ∈ _)), andb_false_r by done.
Qed.

Lemma replace_commands_self oldName newName (cmds : list Command.t) :
  NoDup (Command.id <$> cmds) →
  foldl (λ cs cmd, replace_command (rename_in_command oldName newName cmd) cs)
    cmds (filter (λ c, oldName ∈ Command.tags c) cmds)
  = (λ c, if decide (oldName ∈ Command.tags c)
          then rename_in_command oldName newName c else c) <$> cmds.
Proof.
  intros Hids. rewrite replace_commands_fmap by done.
  apply list_fmap_ext. intros i c Hc.
  destruct (List.find _ cmds) as [cmd|] eqn:Hfind.
  - apply find_some in Hfind as [Hcmd Hfound].
    apply andb_true_iff in Hfound as [Hid Hin].
    apply bool_decide_eq_true in Hid, Hin.
    apply list_elem_of_In, list_elem_of_lookup in Hcmd as [j Hj].
    assert (i = j) as <-.
    { eapply NoDup_lookup; [exact Hids| |]; rewrite list_lookup_fmap.
      - by rewrite Hc.
      - rewrite Hj. simpl. by rewrite Hid. }
    assert (cmd = c) as -> by congruence. by rewrite decide_True.
  - destruct (decide (oldName ∈ Command.tags c)) as [Hin|]; [|done].
    eapply find_none in Hfind.
    + rewrite !bool_decide_eq_true_2 in Hfind; done.
    + apply list_elem_of_In. by eapply list_elem_of_lookup_2.
Qed.

(** *** The writes through the adapter *)

Lemma set_calls_storage_set key value (w : World) :
  set_calls (storage_set key value w).2 = set_calls w ++ [(key, value)].
Proof.
  unfold storage_set, StorageAdapter.set, StorageAdapter.set_try. simpl.
  destruct (negb (truthy value)); [done|].
  destruct (_ <? _)%N; [done|].
  by destruct (storage_accepts _ _ _).
Qed.

Lemma storage_set_all_cons k v kvs (w : World) :
  storage_set_all ((k, v) :: kvs) w = storage_set_all kvs (storage_set k v w).2.
Proof. reflexivity. Qed.

Lemma set_calls_storage_set_all kvs (w : World) :
  set_calls (storage_set_all kvs w) = set_calls w ++ kvs.
Proof.
  revert w. induction kvs as [|[k v] kvs IH]; intros w.
  - simpl. by rewrite app_nil_r.
  - rewrite storage_set_all_cons, IH, set_calls_storage_set.
    by rewrite <- app_assoc.
Qed.

Lemma get_storage_set_ne key key' value (w : World) :
  key ≠ key' →
  StorageAdapter.get key' (storage_set key value w).2 = StorageAdapter.get key' w.
Proof.
  intros Hne. unfold storage_set, StorageAdapter.set, StorageAdapter.set_try, StorageAdapter.get. simpl.
  destruct (negb (truthy value)); [done|].
  destruct (_ <? _)%N; [done|].
  destruct (storage_accepts _ _ _); [|done].
  simpl. apply lookup_insert_ne. by intros ?%(inj _).
Qed.

Lemma get_storage_set_storable key value (w : World) :
  storable key value →
  StorageAdapter.get key (storage_set key value w).2 = Some value.
Proof.
  intros (Hvalue & Hsize & Haccepts).
  unfold storage_set, StorageAdapter.set, StorageAdapter.set_try, StorageAdapter.get, truthy. simpl.
  rewrite bool_decide_eq_true_2 by done. simpl.
  rewrite (proj2 (N.ltb_ge _ _) Hsize), Haccepts. simpl.
  apply lookup_insert_eq.
Qed.

Lemma get_storage_set_all_ne key kvs (w : World) :
  key ∉ kvs.*1 →
  StorageAdapter.get key (storage_set_all kvs w) = StorageAdapter.get key w.
Proof.
  revert w. induction kvs as [|[k v] kvs IH]; intros w Hfresh; [done|].
  rewrite fmap_cons in Hfresh. apply not_elem_of_cons in Hfresh as [Hne Hfresh].
  rewrite storage_set_all_cons, IH by done.
  by apply get_storage_set_ne.
Qed.

(** Writes that the adapter stores, under distinct keys, are all in the
    store afterwards. *)
Lemma get_storage_set_all kvs (w : World) key value :
  Forall (λ kv, storable kv.1 kv.2) kvs →
  NoDup kvs.*1 →
  (key, value) ∈ kvs →
  StorageAdapter.get key (storage_set_all kvs w) = Some value.
Proof.
  revert w. induction kvs as [|[k v] kvs IH]; intros w Hstorable Hkeys Hin.
  - by apply elem_of_nil in Hin.
  - apply Forall_cons in Hstorable as [Hkv Hstorable].
    rewrite fmap_cons in Hkeys. apply NoDup_cons in Hkeys as [Hfresh Hkeys].
    simpl in Hkv, Hfresh. rewrite storage_set_all_cons.
    apply elem_of_cons in Hin as [[= -> ->]|Hin].
    + rewrite get_storage_set_all_ne by done.
      by apply get_storage_set_storable.
    + by apply IH.
Qed.

(** *** Keys *)

Lemma command_key_inj (a b : Z) : command_key a = command_key b → a = b.
Proof.
  unfold command_key, number_to_string. intros Heq.
  apply (inj (String.app "dst:")) in Heq. by apply (inj pretty) in Heq.
Qed.

Lemma tag_key_inj (a b : Z) : tag_key a = tag_key b → a = b.
Proof.
  unfold tag_key, number_to_string. intros Heq.
  apply (inj (String.app "dsttag:")) in Heq. by apply (inj pretty) in Heq.
Qed.

Lemma tag_key_command_key (a b : Z) : tag_key a ≠ command_key b.
Proof. unfold tag_key, command_key. simpl. discriminate. Qed.

Lemma NoDup_fmap_filter {A B} (f : A → B) (P : A → Prop)
    `{∀ x, Decision (P x)} (l : list A) :
  NoDup (f <$> l) → NoDup (f <$> filter P l).
Proof.
  induction l as [|x l IH]; [done|].
  rewrite fmap_cons, NoDup_cons, filter_cons. intros [Hfresh Hrest].
  destruct (decide (P x)); [|auto].
  rewrite fmap_cons, NoDup_cons. split; [|auto].
  intros (y & Hy & [_ Hin]%list_elem_of_filter)%list_elem_of_fmap.
  apply Hfresh, list_elem_of_fmap. eauto.
Qed.

Lemma rename_writes_keys updatedTag oldName (cmds : list Command.t) :
  NoDup (Command.id <$> cmds) →
  NoDup (rename_writes updatedTag oldName cmds).*1.
Proof.
  intros Hids. unfold rename_writes. rewrite fmap_cons, <- list_fmap_compose.
  apply NoDup_cons. split.
  - intros (c & Hkey & _)%list_elem_of_fmap. simpl in Hkey.
    by apply tag_key_command_key in Hkey.
  - change (NoDup ((command_key ∘ Command.id) <$>
                   filter (λ c, oldName ∈ Command.tags c) cmds)).
    apply NoDup_fmap_filter. rewrite list_fmap_compose.
    apply NoDup_fmap_2_strong; [|done].
    intros a b _ _. apply command_key_inj.
Qed.

(** *** The names of a command after the rename *)

Lemma rename_in_command_tags oldName newName (cmd : Command.t) :
  oldName ∈ Command.tags cmd →
  oldName ≠ newName →
  newName ∈ Command.tags (rename_in_command oldName newName cmd) ∧
  oldName ∉ Command.tags (rename_in_command oldName newName cmd).
Proof.
  intros Hin Hne. simpl. split.
  - apply list_elem_of_fmap. exists oldName. by rewrite decide_True.
  - intros (t & Ht & _)%list_elem_of_fmap.
    destruct (decide (t = oldName)); congruence.
Qed.

(** C5 (amended): for every save of a tag whose trimmed new name is not
    empty and equals, up to letter case, the name of a tag with another id,
    the handler reports the conflict and writes nothing: the world, with its
    store and the calls of the adapter, is as before, and so are the tags
    and the commands of the state. Where the trimmed name is empty the save
    is refused as well, with the report that a name is required. *)
Theorem rename_conflict_writes_nothing (id : Z) (st : State) (w : World) :
  let trimmedName := trim (editTagName st) in
  (∃ t, t ∈ tags st ∧ Tag.id t ≠ id ∧
        toLowerCase (Tag.name t) = toLowerCase trimmedName) →
  handleSaveTag id st w
  = (addToast (if decide (trimmedName = "")
               then "Tag name is required!"
               else "A tag with this name already exists!") error st, w) ∧
  set_calls (handleSaveTag id st w).2 = set_calls w ∧
  localStorage (handleSaveTag id st w).2 = localStorage w ∧
  tags (handleSaveTag id st w).1 = tags st ∧
  commands (handleSaveTag id st w).1 = commands st.
Proof.
  intros trimmedName Htaken. apply name_taken_spec in Htaken.
  assert (handleSaveTag id st w
          = (addToast (if decide (trimmedName = "")
                       then "Tag name is required!"
                       else "A tag with this name already exists!") error st, w))
    as ->; [|done].
  unfold handleSaveTag, truthy. fold trimmedName.
  destruct (decide (trimmedName = "")) as [Hempty|Hname].
  - by rewrite bool_decide_eq_false_2 by tauto.
  - rewrite bool_decide_eq_true_2 by done. simpl. by rewrite Htaken.
Qed.

Lemma NoDup_fmap_elem_of {A B} (f : A → B) (l : list A) (x y : A) :
  NoDup (f <$> l) → x ∈ l → y ∈ l → f x = f y → x = y.
Proof.
  intros Hnodup [i Hi]%list_elem_of_lookup [j Hj]%list_elem_of_lookup Heq.
  assert (i = j) as <-; [|congruence].
  eapply NoDup_lookup; [exact Hnodup| |]; rewrite list_lookup_fmap.
  - by rewrite Hi.
  - rewrite Hj. simpl. by rewrite Heq.
Qed.

(** What [handleSaveTag] does on a rename that passes the checks. *)
Lemma handleSaveTag_rename (id : Z) (old : Tag.t) (st : State) (w : World) :
  let newName := trim (editTagName st) in
  let updatedTag := Tag.mk id newName (editTagColor st) in
  window_storage = true →
  newName ≠ "" →
  name_taken id newName (tags st) = false →
  List.find (λ t, bool_decide (Tag.id t = id)) (tags st) = Some old →
  Tag.name old ≠ newName →
  (handleSaveTag id st w).2
  = storage_set_all (rename_writes updatedTag (Tag.name old) (commands st)) w ∧
  commands (handleSaveTag id st w).1
  = foldl (λ cs cmd,
             replace_command (rename_in_command (Tag.name old) newName cmd) cs)
      (commands st)
      (filter (λ c, Tag.name old ∈ Command.tags c) (commands st)).
Proof.
  intros newName updatedTag Hstorage Hname Hfree Hold Hrename.
  unfold handleSaveTag, truthy. fold newName.
  rewrite bool_decide_eq_true_2 by done. simpl.
  rewrite Hfree, Hstorage, Hold. simpl.
  rewrite bool_decide_eq_true_2 by done.
  pose proof (rename_in_commands_world (Tag.name old) newName (commands st) st
                (storage_set (tag_key id)
                   (JSON_stringify_tag (Tag.mk id newName (editTagColor st))) w).2)
    as Hworld.
  pose proof (rename_in_commands_state (Tag.name old) newName (commands st) st
                (storage_set (tag_key id)
                   (JSON_stringify_tag (Tag.mk id newName (editTagColor st))) w).2)
    as Hstate.
  destruct (rename_in_commands _ _ _ _ _) as [st' w']. simpl in Hworld, Hstate.
  subst st' w'. simpl. split; [done|]. by destruct (isMounted st).
Qed.

(** C6: a save of the tag [old] under a new name that is not empty, is not
    taken by another tag and differs from the old name. The handler calls
    the adapter for the updated tag and then, in the order of the list, for
    every command that includes the old name, with the old name replaced by
    the new one; no other call is made. In the state (ids of commands are
    distinct) every command that included the old name now includes the new
    name and not the old one, and every other command is as it was and has
    not been passed to the adapter. Where the adapter stores the values it
    is given, the store holds them afterwards. *)
Theorem rename_cascades (id : Z) (old : Tag.t) (st : State) (w : World) :
  let oldName := Tag.name old in
  let newName := trim (editTagName st) in
  let updatedTag := Tag.mk id newName (editTagColor st) in
  let writes := rename_writes updatedTag oldName (commands st) in
  let st' := (handleSaveTag id st w).1 in
  let w' := (handleSaveTag id st w).2 in
  window_storage = true →
  newName ≠ "" →
  (¬ ∃ t, t ∈ tags st ∧ Tag.id t ≠ id ∧
          toLowerCase (Tag.name t) = toLowerCase newName) →
  List.find (λ t, bool_decide (Tag.id t = id)) (tags st) = Some old →
  oldName ≠ newName →
  NoDup (Command.id <$> commands st) →
  w' = storage_set_all writes w ∧
  set_calls w' = set_calls w ++ writes ∧
  commands st'
  = (λ c, if decide (oldName ∈ Command.tags c)
          then rename_in_command oldName newName c else c) <$> commands st ∧
  (∀ c, c ∈ commands st → oldName ∈ Command.tags c →
     let c' := rename_in_command oldName newName c in
     c' ∈ commands st' ∧
     (command_key (Command.id c), JSON_stringify_command c') ∈ writes ∧
     newName ∈ Command.tags c' ∧ oldName ∉ Command.tags c') ∧
  (∀ c, c ∈ commands st → oldName ∉ Command.tags c →
     c ∈ commands st' ∧ command_key (Command.id c) ∉ writes.*1) ∧
  ((∀ kv, kv ∈ writes → storable kv.1 kv.2) →
   ∀ key value, (key, value) ∈ writes → StorageAdapter.get key w' = Some value).
Proof.
  intros oldName newName updatedTag writes st' w'
    Hstorage Hname Hfree Hold Hrename Hids.
  assert (Hfree' : name_taken id newName (tags st) = false).
  { destruct (name_taken id newName (tags st)) eqn:Htaken; [|done].
    by apply name_taken_spec in Htaken. }
  destruct (handleSaveTag_rename id old st w Hstorage Hname Hfree' Hold Hrename)
    as [Hworld Hstate].
  fold oldName newName updatedTag writes w' in Hworld.
  fold oldName newName st' in Hstate.
  rewrite replace_commands_self in Hstate by done.
  split; [done|]. rewrite Hworld, Hstate.
  split; [apply set_calls_storage_set_all|]. split; [done|].
  split; [|split].
  - intros c Hc Hin c'. split; [|split].
    + apply list_elem_of_fmap. exists c. by rewrite decide_True.
    + unfold writes, rename_writes. apply list_elem_of_further.
      apply list_elem_of_fmap. exists c. split; [done|].
      by apply list_elem_of_filter.
    + by apply rename_in_command_tags.
  - intros c Hc Hout. split.
    + apply list_elem_of_fmap. exists c. by rewrite decide_False.
    + unfold writes, rename_writes. rewrite fmap_cons, <- list_fmap_compose.
      apply not_elem_of_cons. split.
      * intros Hkey. symmetry in Hkey. by apply tag_key_command_key in Hkey.
      * intros (c0 & Hkey & [Hin0 Hc0]%list_elem_of_filter)%list_elem_of_fmap.
        simpl in Hkey. apply command_key_inj in Hkey.
        assert (c = c0) as -> by (by eapply (NoDup_fmap_elem_of Command.id)).
        done.
  - intros Hstorable key value Hin.
    apply get_storage_set_all; [|by apply rename_writes_keys|done].
    by apply Forall_forall.
Qed.

End tag_rename.

(** C5, as stated, fails on the code for an empty name: the tag that
    [addNewTag] appended has an empty name, and a save of another tag with a
    blank name is refused because a name is required, not as a conflict. *)
Lemma rename_blank_is_not_conflict :
  let st := loaded_state DEFAULT_COMMANDS
              (DEFAULT_TAGS ++ [Tag.mk 4 "" "#3b82f6"]) "  " in
  (∃ t, t ∈ tags st ∧ Tag.id t ≠ 1%Z ∧
        Reference.toLowerCase (Tag.name t)
        = Reference.toLowerCase (Reference.trim (editTagName st))) ∧
  toasts (@handleSaveTag offline 1 st empty_world).1
  = [Toast.mk "Tag name is required!" error].
Proof.
  split; [|reflexivity].
  exists (Tag.mk 4 "" "#3b82f6"). split; [|split; [discriminate|reflexivity]].
  do 3 apply list_elem_of_further. apply list_elem_of_here.
Qed.

Lemma rename_conflict_writes_nothing_witness :
  let st := loaded_state DEFAULT_COMMANDS DEFAULT_TAGS " ITEMS " in
  @handleSaveTag offline 1 st empty_world
  = (addToast "A tag with this name already exists!" error st, empty_world).
Proof.
  intros st.
  refine (proj1 (@rename_conflict_writes_nothing offline 1 st empty_world _)).
  exists (Tag.mk 3 "Items" "#10b981"). split; [|split; [discriminate|reflexivity]].
  do 2 apply list_elem_of_further. apply list_elem_of_here.
Defined.

(** The tag [Admin] of two commands becomes [Ops]. *)
Lemma rename_cascades_witness :
  let st := loaded_state four_commands DEFAULT_TAGS "Ops" in
  let st' := (@handleSaveTag offline 1 st empty_world).1 in
  let w' := (@handleSaveTag offline 1 st empty_world).2 in
  Command.tags <$> commands st'
  = [ ["Ops"]; ["Spawning"]; ["Items"]; ["Items"; "Ops"] ] ∧
  (set_calls w').*1 = [ "dsttag:1"; "dst:1"; "dst:4" ].
Proof.
  intros st st' w'.
  destruct (@rename_cascades offline 1 (Tag.mk 1 "Admin" "#ef4444") st empty_world)
    as (_ & Hcalls & Hcommands & _).
  - reflexivity.
  - vm_compute. discriminate.
  - intros Htaken%(@name_taken_spec offline). vm_compute in Htaken. discriminate.
  - reflexivity.
  - vm_compute. discriminate.
  - apply (bool_decide_unpack _). vm_compute. exact I.
  - unfold st', w'. rewrite Hcalls, Hcommands. split; reflexivity.
Defined.

(** ** Sorting by id *)

Section sorting.
Context {A : Type} (f : A → Z).

Lemma insert_by_Permutation (x : A) (l : list A) : insert_by f x l ≡ₚ x :: l.
Proof.
  induction l as [|y l IH]; simpl; [done|].
  destruct (f x <=? f y)%Z; [done|]. by rewrite IH, Permutation_swap.
Qed.

Lemma sort_by_Permutation (l : list A) : sort_by f l ≡ₚ l.
Proof.
  induction l as [|x l IH]; simpl; [done|].
  by rewrite insert_by_Permutation, IH.
Qed.

Lemma insert_by_sorted (x : A) (l : list A) :
  StronglySorted (λ a b, (f a ≤ f b)%Z) l →
  StronglySorted (λ a b, (f a ≤ f b)%Z) (insert_by f x l).
Proof.
  induction 1 as [|y l Hsorted IH Hy]; simpl.
  - repeat constructor.
  - destruct (f x <=? f y)%Z eqn:Hle.
    + apply Z.leb_le in Hle. constructor; [by constructor|].
      constructor; [done|]. eapply Forall_impl; [exact Hy|]. simpl. lia.
    + apply Z.leb_gt in Hle. constructor; [done|].
      rewrite insert_by_Permutation. constructor; [lia|done].
Qed.

Lemma sort_by_sorted (l : list A) :
  StronglySorted (λ a b, (f a ≤ f b)%Z) (sort_by f l).
Proof.
  induction l as [|x l IH]; simpl; [constructor|]. by apply insert_by_sorted.
Qed.

(** Sorting a list whose keys are all different gives the one sorted
    arrangement of its elements. *)
Lemma sort_by_unique (l sorted : list A) :
  l ≡ₚ sorted →
  StronglySorted (λ a b, (f a < f b)%Z) sorted →
  sort_by f l = sorted.
Proof.
  intros Hperm Hsorted.
  apply (StronglySorted_unique_strong (λ a b, (f a ≤ f b)%Z)).
  - intros x1 x2 Hx1 Hx2 Hle1 Hle2.
    assert (Heq : f x1 = f x2) by lia. clear Hle1 Hle2.
    rewrite sort_by_Permutation, Hperm in Hx1. clear Hperm.
    induction Hsorted as [|y l' Hsorted IH Hy]; [by apply elem_of_nil in Hx1|].
    rewrite Forall_forall in Hy.
    apply elem_of_cons in Hx1 as [->|Hx1], Hx2 as [->|Hx2]; try done.
    + apply Hy in Hx2. lia.
    + apply Hy in Hx1. lia.
    + by apply IH.
  - apply sort_by_sorted.
  - clear Hperm. induction Hsorted as [|y l' Hsorted IH Hy]; constructor; [done|].
    eapply Forall_impl; [exact Hy|]. simpl. lia.
  - by rewrite sort_by_Permutation.
Qed.

End sorting.

(** ** Loading the commands and the tags *)

Section loading.
Context `{Host}.

Lemma startsWith_app (s p q : string) :
  startsWith s (p +:+ q) = true → startsWith s p = true.
Proof.
  unfold startsWith. revert s. induction p as [|a p IH]; intros s.
  - by destruct s.
  - destruct s as [|b s]; simpl; [done|].
    destruct (Ascii.ascii_dec a b); [apply IH|done].
Qed.

Lemma matches_app (p q key : string) :
  StorageAdapter.matches (p +:+ q) key = true →
  StorageAdapter.matches p key = true.
Proof.
  unfold StorageAdapter.matches. intros [Hkey Hstarts]%andb_true_iff.
  rewrite Hkey. simpl. by eapply startsWith_app.
Qed.

Lemma filter_none {A} (P : A → Prop) `{∀ x, Decision (P x)} (l : list A) :
  (∀ x, x ∈ l → ¬ P x) → filter P l = [].
Proof.
  induction l as [|x l IH]; intros Hnone; [done|].
  rewrite filter_cons_False by (apply Hnone; by left).
  apply IH. intros y Hy. apply Hnone. by right.
Qed.

Lemma list_nil (pfx : string) (w : World) :
  keys_enumerated →
  StorageAdapter.list pfx w = [] ↔
  ∀ key, is_Some (localStorage w !! key) →
         StorageAdapter.matches (StorageAdapter.prefix +:+ pfx) key = false.
Proof.
  intros Hkeys. destruct (Hkeys (localStorage w)) as [_ Hin].
  unfold StorageAdapter.list. split.
  - intros Hnil%fmap_nil_inv key Hkey%Hin.
    destruct (StorageAdapter.matches _ key) eqn:Hmatch; [|done].
    pose proof (filter_nil_not_elem_of _ _ key Hnil) as Hnot.
    destruct Hnot; [|done]. simpl. by rewrite Hmatch.
  - intros Hnone. rewrite filter_none; [done|].
    intros key Hkey%Hin. simpl. rewrite (Hnone key Hkey). by intros [].
Qed.

Lemma list_nil_prefix (pfx : string) (w : World) :
  keys_enumerated →
  StorageAdapter.list "" w = [] → StorageAdapter.list pfx w = [].
Proof.
  intros Hkeys Hnil. rewrite list_nil in Hnil |- * by done.
  intros key Hkey. specialize (Hnil key Hkey).
  destruct (StorageAdapter.matches (_ +:+ pfx) key) eqn:Hmatch; [|done].
  apply matches_app in Hmatch.
  change (StorageAdapter.prefix +:+ "") with StorageAdapter.prefix in Hnil.
  congruence.
Qed.

(** The listed keys, when the keys of the store that match are known. *)
Lemma list_Permutation (pfx : string) (w : World) (expected : list string) :
  keys_enumerated →
  NoDup expected →
  (∀ key, key ∈ expected ↔
          is_Some (localStorage w !! key) ∧
          StorageAdapter.matches (StorageAdapter.prefix +:+ pfx) key = true) →
  StorageAdapter.list pfx w
  ≡ₚ substring_from (String.length StorageAdapter.prefix) <$> expected.
Proof.
  intros Hkeys Hnodup Hexpected. destruct (Hkeys (localStorage w)) as [Hnd Hin].
  unfold StorageAdapter.list. apply fmap_Permutation.
  apply NoDup_Permutation; [by apply NoDup_filter|done|].
  intros key. rewrite list_elem_of_filter, Hexpected, Hin.
  destruct (StorageAdapter.matches _ key); simpl; split; intros [? ?]; done.
Qed.

(** The store after writes that the adapter stores. *)
Lemma localStorage_storage_set key value (w : World) :
  storable key value →
  localStorage (storage_set key value w).2
  = <[StorageAdapter.prefix +:+ key := value]> (localStorage w).
Proof.
  intros (Hvalue & Hsize & Haccepts).
  unfold storage_set, StorageAdapter.set, StorageAdapter.set_try, truthy. simpl.
  rewrite bool_decide_eq_true_2 by done. simpl.
  by rewrite (proj2 (N.ltb_ge _ _) Hsize), Haccepts.
Qed.

Lemma lookup_storage_set_all kvs (w : World) (key : string) :
  Forall (λ kv, storable kv.1 kv.2) kvs →
  is_Some (localStorage (storage_set_all kvs w) !! key) ↔
  key ∈ ((λ kv, StorageAdapter.prefix +:+ kv.1) <$> kvs) ∨
  is_Some (localStorage w !! key).
Proof.
  revert w. induction kvs as [|[k v] kvs IH]; intros w Hstorable.
  - simpl. rewrite elem_of_nil. tauto.
  - apply Forall_cons in Hstorable as [Hkv Hstorable]. simpl in Hkv.
    rewrite storage_set_all_cons, IH by done.
    rewrite localStorage_storage_set by done.
    rewrite lookup_insert_is_Some, fmap_cons, elem_of_cons. simpl.
    destruct (decide (StorageAdapter.prefix +:+ k = key)); intuition eauto.
Qed.

Lemma substring_from_app (p s : string) :
  substring_from (String.length p) (p +:+ s) = s.
Proof. induction p as [|a p IH]; simpl; [by destruct s | done]. Qed.

Lemma load_records_written {A} (parse : string → option A)
    (stringify : A → string) (key : A → string) (items : list A) (w : World) :
  (∀ x, x ∈ items →
        StorageAdapter.get (key x) w = Some (stringify x) ∧
        stringify x ≠ "" ∧ parse (stringify x) = Some x) →
  load_records parse (key <$> items) w = items.
Proof.
  unfold load_records. induction items as [|x items IH]; intros Hitems; [done|].
  destruct (Hitems x) as (Hget & Htruthy & Hparse); [by left|].
  rewrite fmap_cons. simpl. rewrite Hget. unfold truthy.
  rewrite bool_decide_eq_true_2, Hparse by done. simpl.
  f_equal. apply IH. intros y Hy. apply Hitems. by right.
Qed.

Lemma load_records_Permutation {A} (parse : string → option A)
    (keys keys' : list string) (w : World) :
  keys ≡ₚ keys' → load_records parse keys w ≡ₚ load_records parse keys' w.
Proof. intros Hperm. unfold load_records. by rewrite Hperm. Qed.

Lemma initializeDefaultTags_writes (w : World) :
  window_storage = true →
  initializeDefaultTags w = storage_set_all default_tag_writes w.
Proof.
  intros Hstorage. unfold initializeDefaultTags, storage_set_all, default_tag_writes.
  simpl. by rewrite Hstorage.
Qed.

Lemma initializeDefaults_writes (w : World) :
  window_storage = true →
  initializeDefaults w = storage_set_all default_command_writes w.
Proof.
  intros Hstorage.
  unfold initializeDefaults, storage_set_all, default_command_writes.
  simpl. by rewrite Hstorage.
Qed.

Lemma storage_set_all_app kvs1 kvs2 (w : World) :
  storage_set_all (kvs1 ++ kvs2) w = storage_set_all kvs2 (storage_set_all kvs1 w).
Proof. apply foldl_app. Qed.



(** The keys of the store after the defaults were stored. *)
Lemma seeded_keys (w : World) (key : string) :
  Forall (λ kv, storable kv.1 kv.2) default_writes →
  is_Some (localStorage (storage_set_all default_writes w) !! key) ↔
  key ∈ (String.app StorageAdapter.prefix <$>
         (default_tag_keys ++ default_command_keys)) ∨
  is_Some (localStorage w !! key).
Proof. intros Hstorable. by rewrite lookup_storage_set_all. Qed.

Lemma seeded_list (pfx : string) (w : World) (expected : list string) :
  keys_enumerated →
  Forall (λ kv, storable kv.1 kv.2) default_writes →
  StorageAdapter.list "" w = [] →
  NoDup expected →
  filter (λ key, StorageAdapter.matches (StorageAdapter.prefix +:+ pfx) key)
    (String.app StorageAdapter.prefix <$>
     (default_tag_keys ++ default_command_keys))
  = String.app StorageAdapter.prefix <$> expected →
  StorageAdapter.list pfx (storage_set_all default_writes w) ≡ₚ expected.
Proof.
  intros Hkeys Hstorable Hempty Hnodup Hfilter.
  rewrite list_Permutation with (expected := String.app StorageAdapter.prefix <$> expected).
  - assert (substring_from (String.length StorageAdapter.prefix) <$>
            (String.app StorageAdapter.prefix <$> expected) = expected) as ->; [|done].
    rewrite <- list_fmap_compose. rewrite <- (list_fmap_id expected) at 2.
    apply list_fmap_ext. intros _ key _. exact (substring_from_app _ key).
  - done.
  - apply NoDup_fmap_2; [apply _|done].
  - intros key. rewrite <- Hfilter, list_elem_of_filter, seeded_keys by done.
    rewrite list_nil in Hempty by done. split.
    + intros [Hmatch Hin]. split; [by left|]. by destruct (StorageAdapter.matches _ key).
    + intros [[Hin|Hold] Hmatch].
      * split; [by rewrite Hmatch|done].
      * apply matches_app in Hmatch. pose proof (Hempty key Hold) as Hnone.
        change (StorageAdapter.prefix +:+ "") with StorageAdapter.prefix in Hnone.
        congruence.
Qed.

Lemma loadData_seeds (st : State) (w : World) :
  window_storage = true →
  keys_enumerated →
  Forall (λ kv, storable kv.1 kv.2) default_writes →
  StorageAdapter.list "" w = [] →
  loadData st w = (with_defaults st, storage_set_all default_writes w).
Proof.
  intros Hstorage Hkeys Hstorable Hempty.
  apply Forall_app in Hstorable as [Htags Hcommands].
  assert (Hnone : StorageAdapter.list "dst:" (storage_set_all default_tag_writes w) = []).
  { apply list_nil; [done|]. intros key Hkey.
    apply lookup_storage_set_all in Hkey; [|done]. destruct Hkey as [Hin|Hold].
    - assert (Hall : Forall (λ key, StorageAdapter.matches
                                      (StorageAdapter.prefix +:+ "dst:") key = false)
                       ((λ kv : string * string, StorageAdapter.prefix +:+ kv.1) <$>
                        default_tag_writes)) by (repeat constructor).
      rewrite Forall_forall in Hall. by apply Hall.
    - rewrite list_nil in Hempty by done. pose proof (Hempty key Hold) as Hnone.
      change (StorageAdapter.prefix +:+ "") with StorageAdapter.prefix in Hnone.
      destruct (StorageAdapter.matches (StorageAdapter.prefix +:+ "dst:") key)
        eqn:Hmatch; [|done].
      apply matches_app in Hmatch. congruence. }
  unfold loadData, with_defaults, default_writes. rewrite Hstorage.
  rewrite (list_nil_prefix "dsttag:" w) by done.
  rewrite initializeDefaultTags_writes by done.
  lazy beta iota zeta. rewrite Hnone. lazy beta iota zeta.
  rewrite initializeDefaults_writes, storage_set_all_app by done.
  by destruct st as [? ? ? ? ? ? ? []].
Qed.

Lemma default_writes_stored (w : World) (key value : string) :
  Forall (λ kv, storable kv.1 kv.2) default_writes →
  (key, value) ∈ default_writes →
  StorageAdapter.get key (storage_set_all default_writes w) = Some value.
Proof.
  intros Hstorable Hin. apply get_storage_set_all; [done| |done].
  apply (bool_decide_unpack _). vm_compute. exact I.
Qed.

Lemma loadData_reloads (st : State) (w : World) :
  window_storage = true →
  keys_enumerated →
  Forall (λ kv, storable kv.1 kv.2) default_writes →
  Forall (λ t, JSON_parse_tag (JSON_stringify_tag t) = Some t) DEFAULT_TAGS →
  Forall (λ c, JSON_parse_command (JSON_stringify_command c) = Some c)
    DEFAULT_COMMANDS →
  StorageAdapter.list "" w = [] →
  loadData st (storage_set_all default_writes w)
  = (with_defaults st, storage_set_all default_writes w).
Proof.
  intros Hstorage Hkeys Hstorable Hparse_tags Hparse_commands Hempty.
  set (w1 := storage_set_all default_writes w).
  assert (Htags : StorageAdapter.list "dsttag:" w1 ≡ₚ default_tag_keys).
  { apply seeded_list; [done..| |reflexivity].
    apply (bool_decide_unpack _). vm_compute. exact I. }
  assert (Hcommands : StorageAdapter.list "dst:" w1 ≡ₚ default_command_keys).
  { apply seeded_list; [done..| |reflexivity].
    apply (bool_decide_unpack _). vm_compute. exact I. }
  assert (Hvalue : ∀ key value, (key, value) ∈ default_writes →
                   StorageAdapter.get key w1 = Some value ∧ value ≠ "").
  { intros key value Hin. split; [by apply default_writes_stored|].
    rewrite Forall_forall in Hstorable. by destruct (Hstorable _ Hin) as [? _]. }
  assert (Hloaded_tags :
            sort_by Tag.id (load_records JSON_parse_tag
                              (StorageAdapter.list "dsttag:" w1) w1)
            = DEFAULT_TAGS).
  { apply sort_by_unique; [|repeat constructor].
    rewrite (load_records_Permutation _ _ _ _ Htags).
    rewrite (load_records_written JSON_parse_tag JSON_stringify_tag
               (tag_key ∘ Tag.id) DEFAULT_TAGS w1); [done|].
    intros t Ht. rewrite Forall_forall in Hparse_tags.
    destruct (Hvalue (tag_key (Tag.id t)) (JSON_stringify_tag t)) as [? ?];
      [|by auto].
    apply elem_of_app. left. apply list_elem_of_fmap. by exists t. }
  assert (Hloaded_commands :
            sort_by Command.id (load_records JSON_parse_command
                                  (StorageAdapter.list "dst:" w1) w1)
            = DEFAULT_COMMANDS).
  { apply sort_by_unique; [|repeat constructor].
    rewrite (load_records_Permutation _ _ _ _ Hcommands).
    rewrite (load_records_written JSON_parse_command JSON_stringify_command
               (command_key ∘ Command.id) DEFAULT_COMMANDS w1); [done|].
    intros c Hc. rewrite Forall_forall in Hparse_commands.
    destruct (Hvalue (command_key (Command.id c)) (JSON_stringify_command c))
      as [? ?]; [|by auto].
    apply elem_of_app. right. apply list_elem_of_fmap. by exists c. }
  unfold loadData, with_defaults. rewrite Hstorage.
  destruct (StorageAdapter.list "dsttag:" w1) as [|tagKey tagKeys] eqn:HtagKeys.
  { by apply Permutation_nil_l in Htags. }
  lazy beta iota zeta.
  destruct (StorageAdapter.list "dst:" w1) as [|cmdKey cmdKeys] eqn:HcmdKeys.
  { by apply Permutation_nil_l in Hcommands. }
  rewrite Hloaded_tags, Hloaded_commands.
  by destruct st as [? ? ? ? ? ? ? []].
Qed.
(** C7: [loadData] on a store in which the adapter lists no key (with
    [window.storage] set, the component mounted, and a host whose store
    accepts the six default records and whose [JSON.parse] reads them back).
    The first run sets the three default commands, with ids 1 to 3, and the
    three default tags; it passes each of them to the adapter, after which
    the adapter lists exactly the six keys of the defaults and holds their
    texts. A second run, with no write in between, sets the same commands
    and tags and changes nothing in the world. *)
Theorem load_seeds_defaults (st : State) (w : World) :
  let st1 := (loadData st w).1 in
  let w1 := (loadData st w).2 in
  let st2 := (loadData st1 w1).1 in
  let w2 := (loadData st1 w1).2 in
  window_storage = true →
  keys_enumerated →
  isMounted st = true →
  Forall (λ kv, storable kv.1 kv.2) default_writes →
  Forall (λ t, JSON_parse_tag (JSON_stringify_tag t) = Some t) DEFAULT_TAGS →
  Forall (λ c, JSON_parse_command (JSON_stringify_command c) = Some c)
    DEFAULT_COMMANDS →
  StorageAdapter.list "" w = [] →
  (commands st1 = DEFAULT_COMMANDS ∧
   Command.id <$> commands st1 = [1; 2; 3]%Z ∧
   tags st1 = DEFAULT_TAGS ∧ length (tags st1) = 3) ∧
  set_calls w1 = set_calls w ++ default_writes ∧
  StorageAdapter.list "" w1
  ≡ₚ [ "dsttag:1"; "dsttag:2"; "dsttag:3"; "dst:1"; "dst:2"; "dst:3" ] ∧
  length (StorageAdapter.list "" w1) = 6 ∧
  (∀ key value, (key, value) ∈ default_writes →
                StorageAdapter.get key w1 = Some value) ∧
  commands st2 = commands st1 ∧ tags st2 = tags st1 ∧ w2 = w1.
Proof.
  change [ "dsttag:1"; "dsttag:2"; "dsttag:3"; "dst:1"; "dst:2"; "dst:3" ]
    with (default_tag_keys ++ default_command_keys).
  intros st1 w1 st2 w2 Hstorage Hkeys Hmounted Hstorable Hparse_tags
    Hparse_commands Hempty.
  assert (Hfirst : loadData st w
                   = (with_defaults st, storage_set_all default_writes w))
    by (by apply loadData_seeds).
  assert (Hst1 : st1 = with_defaults st) by (unfold st1; by rewrite Hfirst).
  assert (Hw1 : w1 = storage_set_all default_writes w)
    by (unfold w1; by rewrite Hfirst).
  assert (Hsecond : loadData st1 w1 = (with_defaults st1, w1)).
  { rewrite Hw1. by apply loadData_reloads. }
  assert (Hlisted : StorageAdapter.list "" w1
                    ≡ₚ default_tag_keys ++ default_command_keys).
  { rewrite Hw1. apply seeded_list; [done..| |reflexivity].
    apply (bool_decide_unpack _). vm_compute. exact I. }
  assert (Hdefaults : commands st1 = DEFAULT_COMMANDS ∧ tags st1 = DEFAULT_TAGS).
  { rewrite Hst1. unfold with_defaults. by rewrite Hmounted. }
  destruct Hdefaults as [Hcommands Htags].
  split; [by rewrite Hcommands, Htags|].
  split; [rewrite Hw1; apply set_calls_storage_set_all|].
  split; [done|]. split; [by rewrite Hlisted|].
  split; [intros key value Hin; rewrite Hw1; by apply default_writes_stored|].
  assert (Hmounted1 : isMounted st1 = true).
  { rewrite Hst1. unfold with_defaults. by rewrite Hmounted. }
  unfold st2, w2. rewrite Hsecond. unfold with_defaults.
  rewrite Hmounted1. simpl. by rewrite Hcommands, Htags.
Qed.

End loading.

(** The reference host lists every key of its store once. *)
Lemma reference_keys_enumerated clock net accepts :
  @keys_enumerated (Reference.host clock net accepts).
Proof.
  intros ls. split; [apply NoDup_fst_map_to_list|].
  intros k. simpl. rewrite list_elem_of_fmap. split.
  - intros ([k' v] & -> & Hin). apply elem_of_map_to_list in Hin. by exists v.
  - intros [v Hv]. exists (k, v). by rewrite elem_of_map_to_list.
Qed.

Lemma saving_keys_enumerated clock net accepts :
  @keys_enumerated (Reference.saving_host clock net accepts).
Proof.
  intros ls. split; [apply NoDup_fst_map_to_list|].
  intros k. simpl. rewrite list_elem_of_fmap. split.
  - intros ([k' v] & -> & Hin). apply elem_of_map_to_list in Hin. by exists v.
  - intros [v Hv]. exists (k, v). by rewrite elem_of_map_to_list.
Qed.

(** The first and the second load of the component over an empty
    [localStorage]. *)
Lemma load_seeds_defaults_witness :
  let st1 := (@loadData offline initial_state empty_world).1 in
  let w1 := (@loadData offline initial_state empty_world).2 in
  let st2 := (@loadData offline st1 w1).1 in
  let w2 := (@loadData offline st1 w1).2 in
  commands st1 = DEFAULT_COMMANDS ∧ tags st1 = DEFAULT_TAGS ∧
  set_calls w1 = @default_writes offline ∧
  length (@StorageAdapter.list offline "" w1) = 6 ∧
  commands st2 = DEFAULT_COMMANDS ∧ tags st2 = DEFAULT_TAGS ∧ w2 = w1.
Proof.
  intros st1 w1 st2 w2.
  destruct (@load_seeds_defaults offline initial_state empty_world)
    as ((Hcommands & _ & Htags & _) & Hcalls & _ & Hsize & _ & Hc2 & Ht2 & Hw2).
  - reflexivity.
  - apply reference_keys_enumerated.
  - reflexivity.
  - repeat constructor; solve [vm_compute; discriminate].
  - repeat constructor.
  - repeat constructor.
  - reflexivity.
  - unfold st2, w2, st1, w1. rewrite Hc2, Ht2, Hw2.
    repeat split; assumption.
Defined.


(** ** The storage adapter, method by method *)

Section adapter_methods.
Context `{Host}.

Lemma string_app_inj (p s t : string) : p +:+ s = p +:+ t → s = t.
Proof. apply String.app_inj. Qed.

Lemma string_app_assoc (p q r : string) : (p +:+ q) +:+ r = p +:+ q +:+ r.
Proof.
  induction p as [|c p IH]; [done|].
  change (String c ((p +:+ q) +:+ r) = String c (p +:+ q +:+ r)). by rewrite IH.
Qed.

Lemma startsWith_spec (s p : string) :
  startsWith s p = true ↔ ∃ rest, s = p +:+ rest.
Proof.
  unfold startsWith. revert s. induction p as [|c p IH]; intros s.
  - destruct s; simpl; split; eauto.
  - destruct s as [|d s]; simpl.
    + split; [done|]. intros [? ?]; discriminate.
    + destruct (Ascii.ascii_dec c d) as [->|Hne].
      * rewrite IH. split; intros [rest Hr]; exists rest.
        -- by rewrite Hr.
        -- by injection Hr.
      * split; [done|]. intros [rest Hr]. injection Hr. congruence.
Qed.

Lemma matches_spec (pfx key : string) :
  StorageAdapter.matches (StorageAdapter.prefix +:+ pfx) key = true ↔
  ∃ rest, key = StorageAdapter.prefix +:+ pfx +:+ rest.
Proof.
  unfold StorageAdapter.matches. rewrite andb_true_iff, startsWith_spec.
  split.
  - intros [_ [rest ->]]. exists rest. by rewrite string_app_assoc.
  - intros [rest ->]. split; [done|]. exists rest.
    by rewrite string_app_assoc.
Qed.

(** X1: [set(key, value)] of the adapter returns [true] exactly when the
    value is not empty, has at most 4,800,000 bytes and [localStorage]
    accepts it. After [true], [get(key)] returns the value; after [false]
    the world is as it was; in both cases every other key of the adapter
    reads as before. *)
Theorem set_outcome (key value : string) (w : World) :
  let result := (StorageAdapter.set key value w).1 in
  let w' := (StorageAdapter.set key value w).2 in
  (result = true ↔
     value ≠ "" ∧ (blob_size value ≤ 4800000)%N ∧
     storage_accepts (localStorage w) (StorageAdapter.prefix +:+ key) value = true) ∧
  (result = true → StorageAdapter.get key w' = Some value) ∧
  (result = false → w' = w) ∧
  (∀ key', key' ≠ key → StorageAdapter.get key' w' = StorageAdapter.get key' w).
Proof.
  unfold StorageAdapter.set, StorageAdapter.set_try, StorageAdapter.get,
    StorageAdapter.quota, truthy.
  case_bool_decide as Hv; simpl.
  - destruct (N.ltb_spec 4800000 (blob_size value)); simpl.
    + split_and!; try done. split; [done|]. intros (_ & ? & _). lia.
    + destruct (storage_accepts _ _ _) eqn:Ha; simpl.
      * split_and!; try done.
        -- intros _. apply lookup_insert_eq.
        -- intros key' Hne. apply lookup_insert_ne.
           intros Heq. apply string_app_inj in Heq. congruence.
      * split_and!; try done. split; [done|]. by intros (_ & _ & ?).
  - split_and!; try done. split; [done|]. by intros (? & _).
Qed.

(** X2: [delete(key)] of the adapter returns [true] exactly when
    [removeItem] does not throw, and [false] from its [catch] when it
    does. After [true], [get(key)] returns [null], and a second [delete]
    of the key changes nothing more; after [false] the world is as it was.
    In both cases every other key reads as before, and a [delete] of a
    key that is not stored changes nothing. The handlers call [delete] on
    an accessible store, where it removes the key. *)
Theorem delete_outcome (f : Faults) (key : string) (w : World) :
  let result := (StorageAdapter.delete_on f key w).1 in
  let w' := (StorageAdapter.delete_on f key w).2 in
  result = negb (removeItem_throws f (localStorage w) (StorageAdapter.prefix +:+ key)) ∧
  (result = true → StorageAdapter.get key w' = None) ∧
  (result = true → (StorageAdapter.delete_on f key w').2 = w') ∧
  (result = false → w' = w) ∧
  (∀ key', key' ≠ key → StorageAdapter.get key' w' = StorageAdapter.get key' w) ∧
  (StorageAdapter.get key w = None → w' = w) ∧
  (StorageAdapter.delete key w).2
  = with_localStorage
      (delete (StorageAdapter.prefix +:+ key) (localStorage w)) w.
Proof.
  unfold StorageAdapter.delete, StorageAdapter.delete_on,
    StorageAdapter.delete_try, StorageAdapter.get.
  destruct (removeItem_throws f (localStorage w) _) eqn:Hthrows; simpl.
  - by split_and!.
  - split_and!; try done.
    + intros _. apply lookup_delete_eq.
    + intros _. unfold with_localStorage. simpl.
      destruct (removeItem_throws f
                  (delete (StorageAdapter.prefix +:+ key) (localStorage w))
                  (StorageAdapter.prefix +:+ key)); simpl; [done|].
      by rewrite delete_delete_eq.
    + intros key' Hne. apply lookup_delete_ne.
      intros Heq. apply string_app_inj in Heq. congruence.
    + intros Hnone. unfold with_localStorage. rewrite delete_id by done.
      by destruct w.
Qed.

Lemma substring_from_inj (p s t : string) :
  substring_from (String.length p) (p +:+ s)
  = substring_from (String.length p) (p +:+ t) → s = t.
Proof. by rewrite !substring_from_app. Qed.

Lemma adapter_list_elem_of (pfx key : string) (w : World) :
  keys_enumerated →
  key ∈ StorageAdapter.list pfx w ↔
  startsWith key pfx = true ∧ is_Some (StorageAdapter.get key w).
Proof.
  intros Hkeys. destruct (Hkeys (localStorage w)) as [_ Hin].
  unfold StorageAdapter.list, StorageAdapter.get.
  rewrite list_elem_of_fmap. split.
  - intros (k & -> & [Hm%Is_true_true Hk]%list_elem_of_filter).
    apply matches_spec in Hm as [rest ->].
    rewrite substring_from_app. split.
    + apply startsWith_spec. by exists rest.
    + by apply Hin.
  - intros [[rest ->]%startsWith_spec Hsome].
    exists (StorageAdapter.prefix +:+ pfx +:+ rest). split.
    + by rewrite substring_from_app.
    + apply list_elem_of_filter. split; [|by apply Hin].
      apply Is_true_true, matches_spec. by exists rest.
Qed.

(** X3: where [localStorage.key] enumerates the keys of the store, each
    once, [list(prefix)] returns each key once, and a key is listed exactly
    when it starts with the prefix and [get] finds a value for it. *)
Theorem list_lists_stored (pfx : string) (w : World) :
  keys_enumerated →
  NoDup (StorageAdapter.list pfx w) ∧
  ∀ key, key ∈ StorageAdapter.list pfx w ↔
         startsWith key pfx = true ∧ is_Some (StorageAdapter.get key w).
Proof.
  intros Hkeys. split; [|intros key; by apply adapter_list_elem_of].
  destruct (Hkeys (localStorage w)) as [Hnodup _]. unfold StorageAdapter.list.
  apply NoDup_fmap_2_strong; [|by apply NoDup_filter].
  intros x y [Hx%Is_true_true _]%list_elem_of_filter
    [Hy%Is_true_true _]%list_elem_of_filter.
  apply matches_spec in Hx as [rx ->]. apply matches_spec in Hy as [ry ->].
  rewrite !substring_from_app. by intros ->.
Qed.

Lemma lookup_foldl_delete (ks : list string) (ls : gmap string string) (k : string) :
  foldl (λ ls key, delete key ls) ls ks !! k
  = if decide (k ∈ ks) then None else ls !! k.
Proof.
  revert ls. induction ks as [|k0 ks IH]; intros ls; [done|].
  cbn [foldl]. rewrite IH. destruct (decide (k ∈ ks)) as [Hin|Hnin].
    + by rewrite decide_True by (by right).
    + destruct (decide (k = k0)) as [->|Hne].
      * rewrite decide_True by left. apply lookup_delete_eq.
      * rewrite decide_False by (by intros [?|?]%elem_of_cons).
        by apply lookup_delete_ne.
Qed.

Lemma used_nothing (w : World) :
  (∀ key value, localStorage w !! key = Some value →
                StorageAdapter.matches StorageAdapter.prefix key = false) →
  Adapter.used w = 0%N.
Proof.
  intros Hnone. unfold Adapter.used.
  generalize (storage_keys (localStorage w)). intros keys.
  induction keys as [|key keys IH]; simpl; [done|].
  destruct (localStorage w !! key) as [value|] eqn:Hk; [|done].
  by rewrite (Hnone _ _ Hk).
Qed.

Lemma image_key_outside (cacheKey : string) :
  startsWith (image_key cacheKey) StorageAdapter.prefix = false.
Proof. reflexivity. Qed.

Lemma remove_each_lookup (f : Faults) (keys : list string)
    (ls : gmap string string) (k : string) :
  (Adapter.remove_each f keys ls).2 !! k = ls !! k ∨
  k ∈ keys ∧ (Adapter.remove_each f keys ls).2 !! k = None.
Proof.
  revert ls. induction keys as [|key keys IH]; intros ls; [by left|].
  cbn [Adapter.remove_each]. destruct (removeItem_throws f ls key); [by left|].
  destruct (IH (delete key ls)) as [Hsame|[Hin Hnone]].
  - rewrite Hsame. destruct (decide (k = key)) as [->|Hne].
    + right. split; [left|]. apply lookup_delete_eq.
    + left. by apply lookup_delete_ne.
  - right. split; [by right|done].
Qed.

Lemma remove_each_done (f : Faults) (keys : list string)
    (ls : gmap string string) :
  (Adapter.remove_each f keys ls).1 = returns tt →
  (Adapter.remove_each f keys ls).2 = foldl (λ ls key, delete key ls) ls keys.
Proof.
  revert ls. induction keys as [|key keys IH]; intros ls; [done|].
  cbn [Adapter.remove_each foldl]. destruct (removeItem_throws f ls key); [done|].
  apply IH.
Qed.

Lemma remove_each_returns (f : Faults) (keys : list string)
    (ls : gmap string string) :
  (∀ ls k, removeItem_throws f ls k = false) →
  (Adapter.remove_each f keys ls).1 = returns tt.
Proof.
  intros Hworks. revert ls. induction keys as [|key keys IH]; intros ls; [done|].
  cbn [Adapter.remove_each]. by rewrite Hworks.
Qed.

Lemma remove_each_thrown (f : Faults) (keys : list string)
    (ls : gmap string string) (message : string) :
  (Adapter.remove_each f keys ls).1 = throws message →
  ∃ ls' k, removeItem_throws f ls' k = true.
Proof.
  revert ls. induction keys as [|key keys IH]; intros ls; [done|].
  cbn [Adapter.remove_each]. destruct (removeItem_throws f ls key) eqn:Hthrows; [eauto|].
  apply IH.
Qed.

(** X4: [clear()] on a store with faults, where [localStorage.key]
    enumerates the store. After the result [true] every record of the
    adapter is gone: [get] returns [null] for every key, [list] is empty
    for every prefix and the loop of [getStorageInfo] counts 0 bytes. The
    result is [true] where neither the reads of the keys nor any
    [removeItem] throws; it is [false], with the world untouched, where
    the reads of the keys throw; and a result [false] comes from a throw
    of the reads or of a [removeItem]. In every case no key gains or
    changes a value, and a key that does not start with [dst_app_] keeps
    its value; the entries of the image cache ([dst_img_...]) are among
    these. *)
Theorem clear_outcome (f : Faults) (w : World) :
  keys_enumerated →
  let result := (Adapter.clear f w).1 in
  let w' := (Adapter.clear f w).2 in
  (result = true →
     (∀ key, StorageAdapter.get key w' = None) ∧
     (∀ pfx, StorageAdapter.list pfx w' = []) ∧
     Adapter.used w' = 0%N) ∧
  (keys_throw f (localStorage w) = false →
   (∀ ls k, removeItem_throws f ls k = false) → result = true) ∧
  (keys_throw f (localStorage w) = true → Adapter.clear f w = (false, w)) ∧
  (result = false →
   keys_throw f (localStorage w) = true ∨
   ∃ ls k, removeItem_throws f ls k = true) ∧
  (∀ k, localStorage w' !! k = localStorage w !! k ∨
        localStorage w' !! k = None) ∧
  (∀ k, startsWith k StorageAdapter.prefix = false →
        localStorage w' !! k = localStorage w !! k) ∧
  (∀ cacheKey,
     localStorage w' !! image_key cacheKey = localStorage w !! image_key cacheKey).
Proof.
  intros Hkeys. destruct (Hkeys (localStorage w)) as [_ Hin]. simpl.
  unfold Adapter.clear, Adapter.clear_try.
  destruct (keys_throw f (localStorage w)) eqn:Hread; simpl.
  { split_and!; try done; auto. }
  set (keysToDelete :=
         filter (λ key, StorageAdapter.matches StorageAdapter.prefix key)
           (storage_keys (localStorage w))).
  pose proof (remove_each_lookup f keysToDelete (localStorage w)) as Hlookup.
  pose proof (remove_each_done f keysToDelete (localStorage w)) as Hdone.
  pose proof (remove_each_returns f keysToDelete (localStorage w)) as Hreturns.
  pose proof (remove_each_thrown f keysToDelete (localStorage w)) as Hthrown.
  assert (Hframe : ∀ k, startsWith k StorageAdapter.prefix = false →
            (Adapter.remove_each f keysToDelete (localStorage w)).2 !! k
            = localStorage w !! k).
  { intros k Hk. destruct (Hlookup k) as [?|[Hdel _]]; [done|].
    apply list_elem_of_filter in Hdel as [Hm%Is_true_true _].
    unfold StorageAdapter.matches in Hm. by rewrite Hk, andb_false_r in Hm. }
  destruct (Adapter.remove_each f keysToDelete (localStorage w)) as [[[]|message] ls'];
    simpl in *.
  - assert (Hls' : ∀ k, ls' !! k
              = if StorageAdapter.matches StorageAdapter.prefix k then None
                else localStorage w !! k).
    { intros k. rewrite Hdone by done. rewrite lookup_foldl_delete.
      destruct (StorageAdapter.matches StorageAdapter.prefix k) eqn:Hm.
      - destruct (localStorage w !! k) as [v|] eqn:Hk.
        + rewrite decide_True; [done|]. apply list_elem_of_filter. split.
          * by apply Is_true_true.
          * apply Hin. by rewrite Hk.
        + by destruct (decide _).
      - rewrite decide_False; [done|]. intros [Hm' _]%list_elem_of_filter.
        apply Is_true_true in Hm'. congruence. }
    assert (Hgone : ∀ key value, ls' !! key = Some value →
              StorageAdapter.matches StorageAdapter.prefix key = false).
    { intros key value. rewrite Hls'. by destruct (StorageAdapter.matches _ _). }
    split; [|split_and!; try done;
               first [ intros k; destruct (Hlookup k) as [?|[_ ?]]; by auto
                     | intros cacheKey; apply Hframe, image_key_outside ]].
    intros _. split_and!.
    + intros key. unfold StorageAdapter.get. simpl. rewrite Hls'.
      replace (StorageAdapter.matches _ _) with true; [done|].
      symmetry. unfold StorageAdapter.matches. apply andb_true_iff.
      split; [done|]. apply startsWith_spec. by exists key.
    + intros pfx. apply list_nil; [done|]. intros key [value Hv].
      simpl in Hv. apply Hgone in Hv.
      destruct (StorageAdapter.matches (_ +:+ pfx) key) eqn:Hm; [|done].
      apply matches_app in Hm. congruence.
    + by apply used_nothing.
  - split; [done|]. split; [intros _ Hworks; by specialize (Hreturns Hworks)|].
    split; [done|]. split; [intros _; right; by apply (Hthrown message)|].
    split; [intros k; destruct (Hlookup k) as [?|[_ ?]]; auto|].
    split; [done|]. intros cacheKey. apply Hframe, image_key_outside.
Qed.

(** X5: the probe of [validateStorageAvailability] touches one key of
    [localStorage], [dst_app_test_<now>]: where the store accepts the probe
    the key is absent afterwards, where it refuses the store is as it was.
    Every other key keeps its value, so a store that did not hold the probe
    key is left as found; the memory cache and the logs are not touched. *)
Theorem probe_leaves_store (w : World) :
  let testKey :=
    StorageAdapter.prefix +:+ "test_" +:+ number_to_string (Date_now (ticks w)) in
  let w' := Adapter.validateStorageAvailability w in
  localStorage w' !! testKey
  = (if storage_accepts (localStorage w) testKey "test" then None
     else localStorage w !! testKey) ∧
  (∀ k, k ≠ testKey → localStorage w' !! k = localStorage w !! k) ∧
  (localStorage w !! testKey = None → localStorage w' = localStorage w) ∧
  memoryCache w' = memoryCache w ∧ requests w' = requests w ∧
  set_calls w' = set_calls w.
Proof.
  unfold Adapter.validateStorageAvailability. simpl.
  destruct (storage_accepts _ _ _); simpl; split_and!; try done.
  - apply lookup_delete_eq.
  - intros k Hne. by rewrite lookup_delete_ne, lookup_insert_ne.
  - intros Hnone. by rewrite delete_insert_id.
Qed.

(** *** The count of [getStorageInfo] *)

Lemma used_sum (w : World) :
  Adapter.used w
  = foldr N.add 0%N
      ((λ key, match localStorage w !! key with
               | Some value =>
                   if StorageAdapter.matches StorageAdapter.prefix key
                      && truthy value
                   then (blob_size key + blob_size value)%N
                   else 0%N
               | None => 0%N
               end) <$> storage_keys (localStorage w)).
Proof.
  unfold Adapter.used. generalize (storage_keys (localStorage w)). intros keys.
  cut (∀ acc,
         foldl (λ used key,
                  match localStorage w !! key with
                  | Some value =>
                      if StorageAdapter.matches StorageAdapter.prefix key
                         && truthy value
                      then (used + (blob_size key + blob_size value))%N
                      else used
                  | None => used
                  end) acc keys
         = (acc + foldr N.add 0%N
              ((λ key, match localStorage w !! key with
                       | Some value =>
                           if StorageAdapter.matches StorageAdapter.prefix key
                              && truthy value
                           then (blob_size key + blob_size value)%N
                           else 0%N
                       | None => 0%N
                       end) <$> keys))%N).
  { intros Hacc. by rewrite Hacc. }
  induction keys as [|key keys IH]; intros acc; [simpl; lia|].
  rewrite fmap_cons. cbn [foldl foldr]. rewrite IH.
  destruct (localStorage w !! key) as [value|]; [|lia].
  destruct (_ && _); lia.
Qed.

Lemma sum_Permutation {A} (cost : A → N) (l l' : list A) :
  l ≡ₚ l' → foldr N.add 0%N (cost <$> l) = foldr N.add 0%N (cost <$> l').
Proof.
  induction 1 as [|x l l' _ IH|x y l|l l' l'' _ IH1 _ IH2];
    rewrite ?fmap_cons; cbn [foldr]; [done|by rewrite IH|lia|congruence].
Qed.

Lemma sum_ext {A} (cost cost' : A → N) (l : list A) :
  (∀ x, x ∈ l → cost x = cost' x) →
  foldr N.add 0%N (cost <$> l) = foldr N.add 0%N (cost' <$> l).
Proof.
  intros Hl. induction l as [|x l IH]; [done|].
  rewrite !fmap_cons. cbn [foldr].
  rewrite (Hl x) by left. rewrite IH; [done|]. intros y Hy. apply Hl. by right.
Qed.

(** X6: the count of [getStorageInfo] follows the writes of the adapter:
    where [localStorage.key] enumerates the keys of the store, each once,
    a [set] that stores a value under a key that was not stored raises
    the count by the bytes of the full key and of the value. *)
Theorem used_after_set (key value : string) (w : World) :
  keys_enumerated →
  StorageAdapter.get key w = None →
  (StorageAdapter.set key value w).1 = true →
  Adapter.used (StorageAdapter.set key value w).2
  = (Adapter.used w
     + (blob_size (StorageAdapter.prefix +:+ key) + blob_size value))%N.
Proof.
  intros Hkeys Hfresh Hset. unfold StorageAdapter.get in Hfresh.
  assert (Hvalue : truthy value = true ∧
                   (StorageAdapter.set key value w).2
                   = with_localStorage
                       (<[StorageAdapter.prefix +:+ key := value]> (localStorage w)) w).
  { revert Hset. unfold StorageAdapter.set, StorageAdapter.set_try.
    destruct (truthy value); [|done]. simpl.
    destruct (_ <? _)%N; [done|]. by destruct (storage_accepts _ _ _). }
  destruct Hvalue as [Hvalue ->]. rewrite !used_sum. simpl.
  destruct (Hkeys (localStorage w)) as [Hnodup Hin].
  destruct (Hkeys (<[StorageAdapter.prefix +:+ key := value]> (localStorage w)))
    as [Hnodup' Hin'].
  assert (Hout : StorageAdapter.prefix +:+ key ∉ storage_keys (localStorage w)).
  { rewrite Hin, Hfresh. by intros [? ?]. }
  rewrite (sum_Permutation _ _
             ((StorageAdapter.prefix +:+ key) :: storage_keys (localStorage w))).
  2: { apply NoDup_Permutation; [done|by constructor|].
       intros k. rewrite Hin', elem_of_cons, Hin, lookup_insert_is_Some.
       destruct (decide (StorageAdapter.prefix +:+ key = k)) as [Heq|Hne].
       - split; intros _; left; congruence.
       - split; [intros [?|[_ ?]]; [done|by right]|].
         intros [?|?]; [congruence|by right]. }
  simpl. rewrite lookup_insert_eq, Hvalue, andb_true_r.
  replace (StorageAdapter.matches StorageAdapter.prefix
             (StorageAdapter.prefix +:+ key)) with true.
  2: { symmetry. unfold StorageAdapter.matches. apply andb_true_iff.
       split; [done|]. apply startsWith_spec. by exists key. }
  rewrite N.add_comm. f_equal. apply sum_ext. intros k Hk.
  rewrite lookup_insert_ne; [done|]. by intros <-.
Qed.

End adapter_methods.

(** ** The memory cache over runs *)

Section memory_cache_runs.
Import ImageCacheManager.

Lemma JsMap_delete_absent (m : JsMap.t) (key : string) :
  key ∉ m.*1 → JsMap.delete m key = m.
Proof.
  unfold JsMap.delete. induction m as [|[k v] m IH]; [done|].
  rewrite fmap_cons, not_elem_of_cons. simpl. intros [Hne Hnin].
  rewrite filter_cons_True by (simpl; congruence). by rewrite IH.
Qed.

Lemma JsMap_set_absent (m : JsMap.t) (key value : string) :
  key ∉ m.*1 → JsMap.set m key value = m ++ [(key, value)].
Proof.
  induction m as [|[k v] m IH]; [done|].
  rewrite fmap_cons, not_elem_of_cons. simpl. intros [Hne Hnin].
  rewrite decide_False by congruence. by rewrite IH.
Qed.

Lemma JsMap_get_absent (m : JsMap.t) (key : string) :
  key ∉ m.*1 → JsMap.get m key = None.
Proof.
  induction m as [|[k v] m IH]; [done|].
  rewrite fmap_cons, not_elem_of_cons. simpl. intros [Hne Hnin].
  rewrite decide_False by congruence. by apply IH.
Qed.

Lemma JsMap_set_keys (m : JsMap.t) (key value : string) :
  Forall (λ kv, kv.1 ≠ "") m → key ≠ "" →
  Forall (λ kv, kv.1 ≠ "") (JsMap.set m key value).
Proof.
  intros Hm Hkey. induction m as [|[k v] m IH]; simpl.
  - by constructor.
  - apply Forall_cons in Hm as [? ?].
    destruct (decide (k = key)); constructor; auto.
Qed.

Lemma evict_bounded (c : ImageCacheManager.t) :
  Forall (λ kv, kv.1 ≠ "") c →
  JsMap.size c ≤ maxCacheSize →
  Forall (λ kv, kv.1 ≠ "") (evict c) ∧ JsMap.size (evict c) < maxCacheSize.
Proof.
  intros Hc Hsize. unfold evict.
  destruct (decide (maxCacheSize ≤ JsMap.size c)) as [Hfull|Hfree]; [|split; [done|lia]].
  destruct c as [|[k0 v0] c]; [unfold maxCacheSize in Hfull; simpl in Hfull; lia|].
  simpl. apply Forall_cons in Hc as [Hk0 Hc]. simpl in Hk0.
  unfold truthy. rewrite bool_decide_eq_true_2 by done. split.
  - rewrite Forall_forall. intros x [_ Hx]%list_elem_of_filter.
    apply elem_of_cons in Hx as [->|Hx]; [done|].
    rewrite Forall_forall in Hc. auto.
  - pose proof (JsMap_size_delete_first ((k0, v0) :: c) k0 eq_refl). lia.
Qed.

(** X7: from the empty cache, after any sequence of [get], [set] and
    [clear] in which no [set] has the empty string as its key, the cache
    holds at most [maxCacheSize] (100) entries. *)
Theorem cache_stays_bounded (ops : list op) :
  (∀ key value, OpSet key value ∈ ops → key ≠ "") →
  JsMap.size (run ImageCacheManager.empty ops) ≤ maxCacheSize.
Proof.
  intros Hops.
  cut (∀ c, Forall (λ kv, kv.1 ≠ "") c → JsMap.size c ≤ maxCacheSize →
            JsMap.size (run c ops) ≤ maxCacheSize).
  { intros Hrun. apply Hrun; [by constructor|]. unfold maxCacheSize. simpl. lia. }
  induction ops as [|o ops IH]; intros c Hc Hsize; [done|].
  change (run c (o :: ops)) with (run (step c o) ops).
  assert (Hrest : ∀ key value, OpSet key value ∈ ops → key ≠ "").
  { intros key value Hin. apply (Hops key value). by right. }
  destruct o as [k|k v|]; simpl.
  - by apply IH.
  - assert (Hk : k ≠ "") by (apply (Hops k v); left).
    destruct (evict_bounded c Hc Hsize) as [Hev Hlt].
    apply IH; [done| |].
    + by apply JsMap_set_keys.
    + unfold ImageCacheManager.set.
      pose proof (JsMap_size_set (evict c) k v). lia.
  - apply IH; [done|by constructor|]. unfold maxCacheSize. simpl. lia.
Qed.

(** X8: a [set] on a full cache whose oldest key is not empty (and occurs
    once) first drops the oldest entry, whatever the key of the [set]:
    a new key is appended behind the remaining entries, in their order;
    the oldest key reads [null] afterwards unless it is the key that was
    set; every other key reads as before. *)
Theorem full_cache_is_fifo (oldest v0 : string) (rest : JsMap.t)
    (key value : string) :
  let c := (oldest, v0) :: rest in
  oldest ≠ "" →
  oldest ∉ rest.*1 →
  maxCacheSize ≤ JsMap.size c →
  ImageCacheManager.set c key value = JsMap.set rest key value ∧
  (key ∉ c.*1 → ImageCacheManager.set c key value = rest ++ [(key, value)]) ∧
  (key ≠ oldest →
   ImageCacheManager.get (ImageCacheManager.set c key value) oldest = None) ∧
  (∀ k, k ≠ key → k ≠ oldest →
        ImageCacheManager.get (ImageCacheManager.set c key value) k
        = ImageCacheManager.get c k).
Proof.
  intros c Holdest Hfresh Hfull.
  assert (Hset : ImageCacheManager.set c key value = JsMap.set rest key value).
  { unfold ImageCacheManager.set, evict. rewrite decide_True by done.
    unfold c at 1. simpl. unfold truthy. rewrite bool_decide_eq_true_2 by done.
    unfold c, JsMap.delete. rewrite filter_cons_False by (simpl; tauto).
    change (filter _ rest) with (JsMap.delete rest oldest).
    by rewrite JsMap_delete_absent. }
  split_and!.
  - done.
  - intros Hnin. rewrite Hset. apply JsMap_set_absent.
    intros Hin. apply Hnin. unfold c. rewrite fmap_cons. by right.
  - intros Hne. rewrite Hset. unfold ImageCacheManager.get.
    rewrite JsMap_get_set_ne by done. by rewrite JsMap_get_absent.
  - intros k Hk Hko. rewrite Hset. unfold ImageCacheManager.get.
    rewrite JsMap_get_set_ne by done. unfold c. simpl.
    by rewrite decide_False by done.
Qed.

End memory_cache_runs.

(** ** The memory cache that the resolver fills *)

Section reachable_cache.
Context `{Host}.
Import ImageCacheManager.

Lemma JsMap_set_fst (m : JsMap.t) (key value : string) :
  (JsMap.set m key value).*1
  = if decide (key ∈ m.*1) then m.*1 else m.*1 ++ [key].
Proof.
  induction m as [|[k v] m IH]; [done|]. cbn [JsMap.set].
  destruct (decide (k = key)) as [->|Hne]; rewrite !fmap_cons; cbn [fst].
  - rewrite decide_True; [done|]. left.
  - rewrite IH. destruct (decide (key ∈ m.*1)) as [Hin|Hnin].
    + rewrite decide_True; [done|]. by right.
    + rewrite decide_False; [done|].
      rewrite not_elem_of_cons. split; [congruence|done].
Qed.

Lemma JsMap_set_NoDup (m : JsMap.t) (key value : string) :
  NoDup m.*1 → NoDup (JsMap.set m key value).*1.
Proof.
  intros Hm. rewrite JsMap_set_fst. destruct (decide (key ∈ m.*1)); [done|].
  apply NoDup_app. split; [done|]. split; [|apply NoDup_singleton].
  intros k Hk ->%list_elem_of_singleton. done.
Qed.

Lemma JsMap_size_set_present (m : JsMap.t) (key value : string) :
  key ∈ m.*1 → JsMap.size (JsMap.set m key value) = JsMap.size m.
Proof.
  intros Hin. unfold JsMap.size.
  rewrite <- (length_fmap fst (JsMap.set m key value)), JsMap_set_fst.
  rewrite decide_True by done. apply length_fmap.
Qed.

Lemma JsMap_size_set_absent (m : JsMap.t) (key value : string) :
  key ∉ m.*1 → JsMap.size (JsMap.set m key value) = S (JsMap.size m).
Proof.
  intros Hnin. unfold JsMap.size.
  rewrite <- (length_fmap fst (JsMap.set m key value)), JsMap_set_fst.
  rewrite decide_False by done. rewrite length_app, length_fmap. simpl. lia.
Qed.

Lemma JsMap_delete_NoDup (m : JsMap.t) (key : string) :
  NoDup m.*1 → NoDup (JsMap.delete m key).*1.
Proof.
  unfold JsMap.delete. induction m as [|[k v] m IH]; [done|].
  rewrite fmap_cons, NoDup_cons. intros [Hk Hm]. rewrite filter_cons.
  destruct (decide _); [|auto]. rewrite fmap_cons, NoDup_cons. split; [|auto].
  intros (x & Hx & [_ Hin]%list_elem_of_filter)%list_elem_of_fmap.
  apply Hk, list_elem_of_fmap. eauto.
Qed.

Lemma evict_NoDup (c : ImageCacheManager.t) :
  NoDup c.*1 → NoDup (evict c).*1.
Proof.
  intros Hc. unfold evict. destruct (decide _); [|done].
  destruct (JsMap.first_key c); [|done].
  destruct (truthy _); [|done]. by apply JsMap_delete_NoDup.
Qed.

Lemma set_well_kept (c : ImageCacheManager.t) (key value : string) :
  well_kept c → key ≠ "" → well_kept (ImageCacheManager.set c key value).
Proof.
  intros (Hkeys & Hdup & Hsize) Hkey.
  destruct (evict_bounded c Hkeys Hsize) as [Hev Hlt].
  unfold ImageCacheManager.set. split_and!.
  - by apply JsMap_set_keys.
  - by apply JsMap_set_NoDup, evict_NoDup.
  - pose proof (JsMap_size_set (evict c) key value). lia.
Qed.

Lemma set_all_snoc (c : ImageCacheManager.t) kvs key value :
  set_all c (kvs ++ [(key, value)]) = ImageCacheManager.set (set_all c kvs) key value.
Proof. unfold set_all. by rewrite foldl_app. Qed.

Lemma set_all_well_kept (c : ImageCacheManager.t) kvs :
  well_kept c → Forall (λ kv, kv.1 ≠ "") kvs → well_kept (set_all c kvs).
Proof.
  revert c. induction kvs as [|[k v] kvs IH]; intros c Hc Hkvs; [done|].
  apply Forall_cons in Hkvs as [Hk Hkvs]. simpl.
  apply IH; [|done]. by apply set_well_kept.
Qed.

Lemma empty_well_kept : well_kept ImageCacheManager.empty.
Proof.
  split_and!; [by constructor|by constructor|].
  unfold maxCacheSize. simpl. lia.
Qed.

(** A call of [fetchDSTImage] leaves the memory cache as it is, or makes
    one [set] on it, with the key [cacheKey] of a name that is not
    blank. *)
Lemma check_localStorage_memoryCache cacheKey (w : World) :
  memoryCache (check_localStorage cacheKey w).2
  = match (check_localStorage cacheKey w).1 with
    | Some url => ImageCacheManager.set (memoryCache w) cacheKey url
    | None => memoryCache w
    end.
Proof.
  unfold check_localStorage.
  destruct (localStorage w !! image_key cacheKey) as [stored|]; [|done].
  destruct (truthy stored); [|done].
  destruct (JSON_parse_entry stored) as [entry|]; [|done].
  simpl. by destruct (_ <? _)%Z.
Qed.

Lemma try_patterns_memoryCache cacheKey filenames (w : World) :
  memoryCache (try_patterns cacheKey filenames w).2
  = match (try_patterns cacheKey filenames w).1 with
    | Some url => ImageCacheManager.set (memoryCache w) cacheKey url
    | None => memoryCache w
    end.
Proof.
  revert w. induction filenames as [|filename rest IH]; intros w; [done|].
  rewrite try_patterns_cons.
  destruct (candidate_result _) as [url|].
  - simpl. by rewrite memoryCache_cache_result.
  - apply (IH (request (apiUrl filename) w).2).
Qed.

Lemma fetchDSTImage_memoryCache (itemName : string) (w : World) :
  memoryCache (fetchDSTImage itemName w).2 = memoryCache w ∨
  trim itemName ≠ "" ∧
  ∃ url, memoryCache (fetchDSTImage itemName w).2
         = ImageCacheManager.set (memoryCache w) (trim (toLowerCase itemName)) url.
Proof.
  unfold fetchDSTImage.
  destruct (negb (truthy itemName) || bool_decide (trim itemName = ""))
    eqn:Hblank; [by left|].
  apply orb_false_iff in Hblank as [_ Htrim%bool_decide_eq_false].
  destruct (ImageCacheManager.get (memoryCache w) _); [by left|].
  pose proof (check_localStorage_memoryCache (trim (toLowerCase itemName)) w)
    as Hcheck.
  destruct (check_localStorage _ w) as [[url|] w1]; cbn [fst snd] in *.
  - right. split; [done|]. by exists url.
  - rewrite try_patterns_memoryCache, Hcheck.
    destruct (try_patterns _ _ w1).1 as [url|]; [|by left].
    right. split; [done|]. by exists url.
Qed.

(** The memory cache after a sequence of resolutions is the result of a
    sequence of [set] calls, at most one for a name, none with an empty
    key. *)
Lemma resolve_all_sets (names : list string) (w : World) :
  Forall (λ name, trim name ≠ "" → trim (toLowerCase name) ≠ "") names →
  ∃ kvs, Forall (λ kv, kv.1 ≠ "") kvs ∧ length kvs ≤ length names ∧
         memoryCache (resolve_all names w) = set_all (memoryCache w) kvs.
Proof.
  revert w. induction names as [|name names IH]; intros w Hnames.
  { exists []. split_and!; [by constructor|done|done]. }
  apply Forall_cons in Hnames as [Hname Hnames].
  destruct (IH (fetchDSTImage name w).2 Hnames) as (kvs & Hkvs & Hlen & Hrun).
  change (resolve_all (name :: names) w)
    with (resolve_all names (fetchDSTImage name w).2).
  destruct (fetchDSTImage_memoryCache name w) as [Hsame|[Htrim [url Hset]]].
  - exists kvs. split; [done|]. split; [simpl; lia|]. by rewrite Hrun, Hsame.
  - exists ((trim (toLowerCase name), url) :: kvs). split_and!.
    + constructor; [by apply Hname|done].
    + simpl. lia.
    + by rewrite Hrun, Hset.
Qed.

(** C3: the number of entries of the memory cache never exceeds the
    maximum of 100. The memory cache is private to the module and starts
    empty; [set] is called on it by [fetchDSTImage] only, with the key
    [cacheKey], which is not empty. After every sequence of [set] calls
    with such keys, from the empty cache, and after each of its prefixes,
    the cache holds at most 100 entries; and after every sequence of
    resolutions, from a world whose memory cache is empty, the memory cache
    is the result of such a sequence of [set] calls and holds at most 100
    entries, none under the empty key. *)
Theorem cache_within_maximum (kvs : list (string * string))
    (names : list string) (w : World) (n : nat) :
  Forall (λ kv, kv.1 ≠ "") kvs →
  memoryCache w = ImageCacheManager.empty →
  Forall (λ name, trim name ≠ "" → trim (toLowerCase name) ≠ "") names →
  JsMap.size (set_all ImageCacheManager.empty (take n kvs)) ≤ maxCacheSize ∧
  JsMap.size (memoryCache (resolve_all (take n names) w)) ≤ maxCacheSize ∧
  Forall (λ kv, kv.1 ≠ "") (memoryCache (resolve_all (take n names) w)) ∧
  ∃ sets, Forall (λ kv, kv.1 ≠ "") sets ∧ length sets ≤ n ∧
          memoryCache (resolve_all (take n names) w)
          = set_all ImageCacheManager.empty sets.
Proof.
  intros Hkvs Hempty Hnames.
  assert (Hclass : ∀ l, Forall (λ kv : string * string, kv.1 ≠ "") l →
                        well_kept (set_all ImageCacheManager.empty l)).
  { intros l Hl. by apply set_all_well_kept; [apply empty_well_kept|]. }
  destruct (resolve_all_sets (take n names) w) as (sets & Hsets & Hlen & Hrun).
  { by apply Forall_take. }
  rewrite Hempty in Hrun. rewrite Hrun.
  destruct (Hclass sets Hsets) as (Hkeys & _ & Hsize).
  split_and!; try done.
  - apply Hclass. by apply Forall_take.
  - exists sets. split_and!; try done.
    rewrite length_take in Hlen. lia.
Qed.

(** C10: a [set] on the memory cache at its capacity evicts the oldest
    entry before it stores, also when its key is present. The caches in
    question are those that [set] calls with keys that are not empty build
    from the empty cache, as [fetchDSTImage] does. In such a cache of 100
    entries there is an oldest key, with a value; [set(key, value)] is a
    [set] of the map after the oldest key has been deleted from it, which
    leaves 99 entries; unless [key] is the oldest key itself, that key
    reads [null] afterwards; every key other than these two reads as
    before. When [key] is present and is not the oldest key the cache
    holds 99 entries afterwards, below its capacity; when [key] is new, or
    is the oldest key, it holds 100. *)
Theorem set_at_capacity_evicts (kvs : list (string * string))
    (key value : string) :
  let c := set_all ImageCacheManager.empty kvs in
  let c' := ImageCacheManager.set c key value in
  Forall (λ kv, kv.1 ≠ "") kvs →
  JsMap.size c = maxCacheSize →
  ∃ oldest,
    JsMap.first_key c = Some oldest ∧
    is_Some (JsMap.get c oldest) ∧
    c' = JsMap.set (JsMap.delete c oldest) key value ∧
    JsMap.size (JsMap.delete c oldest) = maxCacheSize - 1 ∧
    JsMap.get (JsMap.delete c oldest) oldest = None ∧
    JsMap.get c' key = Some value ∧
    (key ≠ oldest →
       JsMap.get c' oldest = None ∧ ImageCacheManager.get c' oldest = None) ∧
    (∀ k, k ≠ key → k ≠ oldest → JsMap.get c' k = JsMap.get c k) ∧
    (key ∈ c.*1 → key ≠ oldest → JsMap.size c' = maxCacheSize - 1) ∧
    (key ∉ c.*1 ∨ key = oldest → JsMap.size c' = maxCacheSize).
Proof.
  intros c c' Hkvs Hfull.
  destruct (set_all_well_kept ImageCacheManager.empty kvs empty_well_kept Hkvs)
    as (Hkeys & Hdup & _).
  fold c in Hkeys, Hdup. unfold c'. clearbody c. clear c' kvs Hkvs.
  destruct c as [|[oldest v0] rest].
  { unfold maxCacheSize in Hfull. simpl in Hfull. lia. }
  apply Forall_cons in Hkeys as [Holdest _]. simpl in Holdest.
  rewrite fmap_cons in Hdup. apply NoDup_cons in Hdup as [Hfresh Hdup].
  simpl in Hfresh.
  assert (Hdelete : JsMap.delete ((oldest, v0) :: rest) oldest = rest).
  { unfold JsMap.delete. rewrite filter_cons_False by (simpl; tauto).
    by apply JsMap_delete_absent. }
  assert (Hset : ImageCacheManager.set ((oldest, v0) :: rest) key value
                 = JsMap.set rest key value).
  { unfold ImageCacheManager.set, evict. rewrite decide_True by lia.
    simpl. unfold truthy. rewrite bool_decide_eq_true_2 by done.
    by rewrite Hdelete. }
  assert (Hrest : JsMap.size rest = maxCacheSize - 1).
  { unfold JsMap.size in *. simpl in Hfull. lia. }
  exists oldest. rewrite Hdelete, Hset. split_and!.
  - done.
  - simpl. rewrite decide_True by done. by eexists.
  - done.
  - done.
  - by apply JsMap_get_absent.
  - apply JsMap_get_set_eq.
  - intros Hne. unfold ImageCacheManager.get.
    rewrite JsMap_get_set_ne by done. by rewrite JsMap_get_absent.
  - intros k Hk Hko. rewrite JsMap_get_set_ne by done. simpl.
    by rewrite decide_False.
  - intros Hin Hne. rewrite JsMap_size_set_present; [done|].
    rewrite fmap_cons in Hin. apply elem_of_cons in Hin as [?|?]; done.
  - intros Hkey. rewrite JsMap_size_set_absent.
    + unfold maxCacheSize in *. lia.
    + destruct Hkey as [Hnin| ->]; [|done].
      intros Hin. apply Hnin. rewrite fmap_cons. by right.
Qed.

End reachable_cache.

(** ** What a resolution asks and what it touches *)

Section resolver_frame.
Context `{Host}.

Lemma try_patterns_requests cacheKey filenames (w : World) :
  ∃ n, n ≤ length filenames ∧
       requests (try_patterns cacheKey filenames w).2
       = requests w ++ (apiUrl <$> take n filenames) ∧
       ((try_patterns cacheKey filenames w).1 = None → n = length filenames).
Proof.
  revert w. induction filenames as [|filename rest IH]; intros w.
  - exists 0. simpl. by rewrite app_nil_r.
  - rewrite try_patterns_cons.
    destruct (candidate_result _) as [url|] eqn:Hcandidate.
    + exists 1. split; [simpl; lia|]. split; [|done]. cbn [snd].
      by rewrite requests_cache_result, requests_request.
    + destruct (IH (request (apiUrl filename) w).2) as (n & Hn & Hreq & Hnone).
      exists (S n). split; [simpl; lia|]. split; [|by intros ->%Hnone].
      rewrite Hreq, requests_request. cbn [take fmap list_fmap].
      by rewrite <- app_assoc.
Qed.

Lemma check_localStorage_frame cacheKey (w : World) :
  set_calls (check_localStorage cacheKey w).2 = set_calls w ∧
  ∀ k, k ≠ image_key cacheKey →
       localStorage (check_localStorage cacheKey w).2 !! k = localStorage w !! k.
Proof.
  unfold check_localStorage.
  destruct (localStorage w !! image_key cacheKey) as [stored|]; [|done].
  destruct (truthy stored); [|done].
  destruct (JSON_parse_entry stored) as [entry|]; [|done].
  simpl. destruct (_ <? _)%Z; simpl; [done|].
  split; [done|]. intros k Hk. by apply lookup_delete_ne.
Qed.

Lemma cache_result_frame cacheKey imageUrl (w : World) :
  set_calls (cache_result cacheKey imageUrl w) = set_calls w ∧
  ∀ k, k ≠ image_key cacheKey →
       localStorage (cache_result cacheKey imageUrl w) !! k = localStorage w !! k.
Proof.
  unfold cache_result. simpl. destruct (storage_accepts _ _ _); simpl; [|done].
  split; [done|]. intros k Hk. by apply lookup_insert_ne.
Qed.

Lemma try_patterns_frame cacheKey filenames (w : World) :
  set_calls (try_patterns cacheKey filenames w).2 = set_calls w ∧
  ∀ k, k ≠ image_key cacheKey →
       localStorage (try_patterns cacheKey filenames w).2 !! k = localStorage w !! k.
Proof.
  revert w. induction filenames as [|filename rest IH]; intros w; [done|].
  rewrite try_patterns_cons.
  destruct (candidate_result _) as [url|]; simpl.
  - apply (cache_result_frame cacheKey url (request (apiUrl filename) w).2).
  - apply (IH (request (apiUrl filename) w).2).
Qed.

Lemma fetchDSTImage_requests (itemName : string) (w : World) :
  ∃ n, n ≤ 4 ∧
       requests (fetchDSTImage itemName w).2
       = requests w ++ (apiUrl <$> take n (patterns itemName)) ∧
       ((fetchDSTImage itemName w).1 = None → n = 0 ∨ n = 4).
Proof.
  unfold fetchDSTImage.
  destruct (negb (truthy itemName) || bool_decide (trim itemName = "")).
  { exists 0. rewrite take_0, fmap_nil, app_nil_r. auto with lia. }
  destruct (ImageCacheManager.get (memoryCache w) _) as [cached|].
  { exists 0. rewrite take_0, fmap_nil, app_nil_r. auto with lia. }
  pose proof (requests_check_localStorage (trim (toLowerCase itemName)) w) as Hcheck.
  destruct (check_localStorage _ w) as [[url|] w1]; simpl in Hcheck.
  { exists 0. simpl. rewrite app_nil_r. auto with lia. }
  destruct (try_patterns_requests (trim (toLowerCase itemName))
              (patterns itemName) w1) as (n & Hn & Hreq & Hnone).
  rewrite Hcheck in Hreq.
  exists n. split; [done|]. split; [done|]. intros ->%Hnone. by right.
Qed.

Lemma fetchDSTImage_frame (itemName : string) (w : World) :
  set_calls (fetchDSTImage itemName w).2 = set_calls w ∧
  ∀ k, k ≠ image_key (trim (toLowerCase itemName)) →
       localStorage (fetchDSTImage itemName w).2 !! k = localStorage w !! k.
Proof.
  unfold fetchDSTImage.
  destruct (negb (truthy itemName) || bool_decide (trim itemName = "")); [done|].
  destruct (ImageCacheManager.get _ _); [done|].
  pose proof (check_localStorage_frame (trim (toLowerCase itemName)) w) as [Hc Hl].
  destruct (check_localStorage _ w) as [[url|] w1]; [done|]. simpl in Hc, Hl.
  destruct (try_patterns_frame (trim (toLowerCase itemName))
              (patterns itemName) w1) as [Hc' Hl'].
  split; [congruence|]. intros k Hk. rewrite Hl', Hl; done.
Qed.

Lemma fetchDSTImage_records (itemName key : string) (w : World) :
  StorageAdapter.get key (fetchDSTImage itemName w).2 = StorageAdapter.get key w.
Proof.
  unfold StorageAdapter.get. apply fetchDSTImage_frame.
  unfold image_key, StorageAdapter.prefix. discriminate.
Qed.

(** X9: the requests of one call of [fetchDSTImage] are the first [n]
    candidates ([_Build.png], [.png], [_Portrait.png], [_Icon.png]), in
    that order, for some [n] of at most four; a call that returns [null]
    has asked none or all four. A blank name returns [null] and leaves
    the world as it is; a hit in the memory cache or in [localStorage]
    costs no request. *)
Theorem requests_are_candidates (itemName : string) (w : World) :
  let cacheKey := trim (toLowerCase itemName) in
  let w' := (fetchDSTImage itemName w).2 in
  (∃ n, n ≤ 4 ∧
        requests w' = requests w ++ (apiUrl <$> take n (patterns itemName)) ∧
        ((fetchDSTImage itemName w).1 = None → n = 0 ∨ n = 4)) ∧
  (trim itemName = "" → fetchDSTImage itemName w = (None, w)) ∧
  (is_Some (ImageCacheManager.get (memoryCache w) cacheKey) →
   requests w' = requests w) ∧
  (is_Some (check_localStorage cacheKey w).1 → requests w' = requests w).
Proof.
  intros cacheKey w'. split; [apply fetchDSTImage_requests|].
  unfold w', fetchDSTImage. fold cacheKey.
  destruct (negb (truthy itemName) || bool_decide (trim itemName = "")) eqn:Hblank.
  { by simpl. }
  apply orb_false_iff in Hblank as [_ Htrim].
  apply bool_decide_eq_false in Htrim.
  destruct (ImageCacheManager.get (memoryCache w) cacheKey) as [cached|].
  { by simpl. }
  pose proof (requests_check_localStorage cacheKey w) as Hcheck.
  destruct (check_localStorage cacheKey w) as [[url|] w1]; simpl in Hcheck.
  { by simpl. }
  split_and!; [done|by intros [? ?]|by intros [? ?]].
Qed.

(** X10: [fetchDSTImage] never calls [window.storage.set]; of
    [localStorage] it can change only the entry of the image cache for the
    normalised name, so every record of the adapter reads as before. *)
Theorem resolver_leaves_records (itemName : string) (w : World) :
  let w' := (fetchDSTImage itemName w).2 in
  set_calls w' = set_calls w ∧
  (∀ k, k ≠ image_key (trim (toLowerCase itemName)) →
        localStorage w' !! k = localStorage w !! k) ∧
  (∀ key, StorageAdapter.get key w' = StorageAdapter.get key w).
Proof.
  simpl. destruct (fetchDSTImage_frame itemName w) as [Hcalls Hstore].
  split_and!; [done|done|]. intros key. apply fetchDSTImage_records.
Qed.

Lemma try_patterns_stored cacheKey filenames (w : World) url :
  let entry := CacheEntry.mk url (Date_now (ticks w)) in
  (try_patterns cacheKey filenames w).1 = Some url →
  storage_accepts (localStorage w) (image_key cacheKey)
    (JSON_stringify_entry entry) = true →
  localStorage (try_patterns cacheKey filenames w).2 !! image_key cacheKey
  = Some (JSON_stringify_entry entry).
Proof.
  simpl. revert w. induction filenames as [|filename rest IH]; intros w; [done|].
  rewrite try_patterns_cons.
  destruct (candidate_result _) as [imageUrl|].
  - simpl. intros [= ->] Haccepts.
    by apply (cache_result_stored cacheKey url (request (apiUrl filename) w).2).
  - apply (IH (request (apiUrl filename) w).2).
Qed.

Lemma fetchDSTImage_named (itemName : string) (w : World) (url : string) :
  (fetchDSTImage itemName w).1 = Some url →
  negb (truthy itemName) || bool_decide (trim itemName = "") = false.
Proof.
  unfold fetchDSTImage.
  by destruct (negb (truthy itemName) || bool_decide (trim itemName = "")).
Qed.

(** X11: an image that was resolved from the wiki survives a restart.
    When the name was in neither cache, the wiki gave [url], the store
    accepted the entry and the entry reads back from its JSON text, then
    [localStorage] holds the entry; and in any later world with that store
    and an empty memory cache, read less than [expiry] after the write,
    [fetchDSTImage] returns [url] again without a request and puts it back
    into the memory cache. *)
Theorem resolution_survives_restart (itemName url : string) (w w2 : World) :
  let cacheKey := trim (toLowerCase itemName) in
  let entry := CacheEntry.mk url (Date_now (ticks w)) in
  let w1 := (fetchDSTImage itemName w).2 in
  ImageCacheManager.get (memoryCache w) cacheKey = None →
  localStorage w !! image_key cacheKey = None →
  (fetchDSTImage itemName w).1 = Some url →
  storage_accepts (localStorage w) (image_key cacheKey)
    (JSON_stringify_entry entry) = true →
  JSON_stringify_entry entry ≠ "" →
  JSON_parse_entry (JSON_stringify_entry entry) = Some entry →
  localStorage w2 = localStorage w1 →
  memoryCache w2 = ImageCacheManager.empty →
  (Date_now (ticks w2) - Date_now (ticks w) < expiry)%Z →
  localStorage w1 !! image_key cacheKey = Some (JSON_stringify_entry entry) ∧
  (fetchDSTImage itemName w2).1 = Some url ∧
  requests (fetchDSTImage itemName w2).2 = requests w2 ∧
  ImageCacheManager.get (memoryCache (fetchDSTImage itemName w2).2) cacheKey
  = Some url.
Proof.
  intros cacheKey entry w1 Hmemory Hdurable Hfirst Haccepts Htruthy Hparse
    Hstore Hempty Hfresh.
  pose proof (fetchDSTImage_named _ _ _ Hfirst) as Hnamed.
  assert (Hw1 : w1 = (try_patterns cacheKey (patterns itemName) w).2 ∧
                (try_patterns cacheKey (patterns itemName) w).1 = Some url).
  { unfold w1. unfold fetchDSTImage in Hfirst |- *. fold cacheKey in Hfirst |- *.
    rewrite Hnamed, Hmemory in Hfirst |- *.
    by rewrite (check_localStorage_absent cacheKey w Hdurable) in Hfirst |- *. }
  destruct Hw1 as [Hw1 Hfound].
  assert (Hurl : url ≠ "").
  { apply try_patterns_cached in Hfound. unfold ImageCacheManager.get in Hfound.
    by apply or_null_truthy in Hfound. }
  assert (Hstored : localStorage w1 !! image_key cacheKey
                    = Some (JSON_stringify_entry entry)).
  { rewrite Hw1. by apply try_patterns_stored. }
  assert (Hcheck : check_localStorage cacheKey w2
                   = (Some url,
                      with_memoryCache
                        (ImageCacheManager.set (memoryCache w2) cacheKey url)
                        (now w2).2)).
  { unfold check_localStorage. rewrite Hstore, Hstored.
    unfold truthy. rewrite bool_decide_eq_true_2 by done. rewrite Hparse.
    simpl. by rewrite (proj2 (Z.ltb_lt _ _) Hfresh). }
  assert (Hsecond : fetchDSTImage itemName w2
                    = (Some url,
                       with_memoryCache
                         (ImageCacheManager.set (memoryCache w2) cacheKey url)
                         (now w2).2)).
  { unfold fetchDSTImage. fold cacheKey. rewrite Hnamed, Hempty.
    change (ImageCacheManager.get ImageCacheManager.empty cacheKey) with (@None string).
    rewrite <- Hempty. by rewrite Hcheck. }
  rewrite Hsecond. split_and!; try done.
  simpl. by apply get_set_truthy.
Qed.

Lemma fetchDSTImage_cached (itemName value : string) (w : World) :
  (fetchDSTImage itemName w).1 = Some value →
  value ≠ "" →
  ImageCacheManager.get (memoryCache (fetchDSTImage itemName w).2)
    (trim (toLowerCase itemName)) = Some value.
Proof.
  intros Hfirst Hvalue. pose proof (fetchDSTImage_named _ _ _ Hfirst) as Hnamed.
  unfold fetchDSTImage in Hfirst |- *. rewrite Hnamed in Hfirst |- *.
  destruct (ImageCacheManager.get (memoryCache w) _) as [cached|] eqn:Hmemory.
  - simpl in Hfirst |- *. congruence.
  - destruct (check_localStorage _ w) as [[url|] w'] eqn:Hcheck.
    + simpl in Hfirst |- *. injection Hfirst as ->.
      pose proof (check_localStorage_cached (trim (toLowerCase itemName)) w value)
        as Hstored.
      rewrite Hcheck in Hstored. by apply Hstored.
    + by apply try_patterns_cached.
Qed.

(** X12: names that normalise to the same key share the cached value:
    after a resolution of [itemName] to a non-empty value, a call with any
    non-blank [other] whose trimmed lower-case form is that of [itemName]
    returns the value and leaves the world as it is. *)
Theorem names_share_a_slot (itemName other value : string) (w : World) :
  let w1 := (fetchDSTImage itemName w).2 in
  (fetchDSTImage itemName w).1 = Some value →
  value ≠ "" →
  other ≠ "" →
  trim other ≠ "" →
  trim (toLowerCase other) = trim (toLowerCase itemName) →
  fetchDSTImage other w1 = (Some value, w1).
Proof.
  intros w1 Hfirst Hvalue Hother Htrim Hkey.
  pose proof (fetchDSTImage_cached itemName value w Hfirst Hvalue) as Hcached.
  unfold fetchDSTImage at 1. rewrite Hkey. fold w1 in Hcached. rewrite Hcached.
  unfold truthy. rewrite bool_decide_eq_true_2 by done.
  by rewrite bool_decide_eq_false_2 by done.
Qed.

End resolver_frame.


(** ** The editor of commands and the editor of tags *)

Section editors.
Context `{Host}.

(** X13: [toggleTag] flips the membership of the tag in [editTags] and of
    no other tag, and keeps a list without repeats free of repeats. *)
Theorem toggleTag_flips (tagName : string) (ed : Editor) :
  (tagName ∈ editTags (toggleTag tagName ed) ↔ tagName ∉ editTags ed) ∧
  (∀ t, t ≠ tagName →
        t ∈ editTags (toggleTag tagName ed) ↔ t ∈ editTags ed) ∧
  (NoDup (editTags ed) → NoDup (editTags (toggleTag tagName ed))).
Proof.
  unfold toggleTag. simpl. case_bool_decide as Hin; split_and!.
  - rewrite list_elem_of_filter. split; [by intros [? _]|done].
  - intros t Hne. rewrite list_elem_of_filter. split; [by intros [_ ?]|done].
  - apply NoDup_filter.
  - rewrite elem_of_app, list_elem_of_singleton. split; [done|auto].
  - intros t Hne. rewrite elem_of_app, list_elem_of_singleton.
    split; [by intros [?|?]|auto].
  - intros Hnodup. apply NoDup_app. split; [done|]. split.
    + intros t Ht ->%list_elem_of_singleton. done.
    + apply NoDup_singleton.
Qed.

Lemma foldl_max_bound (l : list Z) (a : Z) :
  (a ≤ foldl Z.max a l)%Z ∧ ∀ i, i ∈ l → (i ≤ foldl Z.max a l)%Z.
Proof.
  revert a. induction l as [|x l IH]; intros a; simpl.
  - split; [lia|]. by intros i ?%elem_of_nil.
  - destruct (IH (Z.max a x)) as [Ha Hl]. split; [lia|].
    intros i [->|Hi]%elem_of_cons; [lia|auto].
Qed.

Lemma foldl_max_elem_of (l : list Z) (a : Z) : foldl Z.max a l ∈ a :: l.
Proof.
  revert a. induction l as [|x l IH]; intros a; simpl; [left|].
  specialize (IH (Z.max a x)). apply elem_of_cons in IH as [Heq|Hin].
  - rewrite Heq. destruct (Z.max_spec a x) as [[_ ->]|[_ ->]];
      [right; left|left].
  - right. by right.
Qed.

(** Up to [2^53] every integer is a double. *)
Lemma to_double_exact (z : Z) : (Z.abs z ≤ 2 ^ 53)%Z → to_double z = z.
Proof.
  intros Hz. unfold to_double.
  destruct (Z.ltb_spec (Z.log2 (Z.abs z)) 53) as [|Hlog]; [done|].
  assert (Z.abs z = 2 ^ 53)%Z as Habs.
  { assert (0 < Z.abs z)%Z.
    { destruct (decide (Z.abs z = 0%Z)) as [Hzero|]; [|lia].
      rewrite Hzero in Hlog. simpl in Hlog. lia. }
    apply Z.log2_le_pow2 in Hlog; lia. }
  destruct (Z.abs_eq_or_opp z) as [Heq|Heq]; rewrite Heq in Habs.
  - by rewrite Habs.
  - assert (z = - 2 ^ 53)%Z as -> by lia. done.
Qed.

(** Beyond the safe integers the sum loses its [+ 1], or gains one. *)
Example next_id_beyond_safe :
  next_id [9007199254740992%Z] = 9007199254740992%Z ∧
  next_id [1%Z; 9007199254740994%Z] = 9007199254740996%Z.
Proof. split; reflexivity. Qed.

Lemma next_id_exact (id : Z) (rest : list Z) :
  Forall safe_integer (id :: rest) →
  next_id (id :: rest) = (foldl Z.max id rest + 1)%Z.
Proof.
  intros Hsafe. unfold next_id. apply to_double_exact.
  rewrite Forall_forall in Hsafe.
  specialize (Hsafe _ (foldl_max_elem_of rest id)). unfold safe_integer in Hsafe.
  lia.
Qed.

Lemma next_id_above (ids : list Z) (i : Z) :
  Forall safe_integer ids → i ∈ ids → (i < next_id ids)%Z.
Proof.
  destruct ids as [|x l]; [by intros _ ?%elem_of_nil|].
  intros Hsafe. rewrite next_id_exact by done.
  destruct (foldl_max_bound l x) as [Hx Hl].
  intros [->|Hi]%elem_of_cons; [lia|]. apply Hl in Hi. lia.
Qed.

Lemma next_id_fresh (ids : list Z) :
  Forall safe_integer ids → next_id ids ∉ ids.
Proof. intros Hsafe Hin. apply next_id_above in Hin; [lia|done]. Qed.

(** X14: where the ids of the commands and of the tags are safe integers
    (up to [2^53 - 1] in absolute value, where [+ 1] on doubles is exact),
    the id that [addNewCommand] puts into the editor is greater than the
    id of every command, and the id of the tag that [addNewTag] appends
    is greater than the id of every tag; tags with distinct ids stay
    distinct. *)
Theorem new_ids_are_fresh (st : State) (ed : Editor) :
  let newCommandId := next_id (Command.id <$> commands st) in
  let newTagId := next_id (Tag.id <$> tags st) in
  Forall safe_integer (Command.id <$> commands st) →
  Forall safe_integer (Tag.id <$> tags st) →
  editingId (addNewCommand st ed) = Some newCommandId ∧
  (∀ c, c ∈ commands st → (Command.id c < newCommandId)%Z) ∧
  editingTagId (addNewTag st) = Some newTagId ∧
  tags (addNewTag st) = tags st ++ [Tag.mk newTagId "" "#3b82f6"] ∧
  (∀ t, t ∈ tags st → (Tag.id t < newTagId)%Z) ∧
  (NoDup (Tag.id <$> tags st) → NoDup (Tag.id <$> tags (addNewTag st))).
Proof.
  simpl. intros Hcommands Htags. split_and!; try done.
  - intros c Hc. apply next_id_above; [done|].
    apply list_elem_of_fmap. by exists c.
  - intros t Ht. apply next_id_above; [done|].
    apply list_elem_of_fmap. by exists t.
  - intros Hnodup. rewrite fmap_app. apply NoDup_app. split; [done|]. split.
    + intros i Hi ->%list_elem_of_singleton. by apply next_id_fresh in Hi.
    + apply NoDup_singleton.
Qed.

Lemma find_app_last {A} (f : A → bool) (l : list A) (x : A) :
  (∀ y, y ∈ l → f y = false) → f x = true → List.find f (l ++ [x]) = Some x.
Proof.
  intros Hl Hx. induction l as [|y l IH]; simpl.
  - by rewrite Hx.
  - rewrite (Hl y) by left. apply IH. intros z Hz. apply Hl. by right.
Qed.

Lemma filter_all {A} (P : A → Prop) `{∀ x, Decision (P x)} (l : list A) :
  (∀ x, x ∈ l → P x) → filter P l = l.
Proof.
  intros Hl. induction l as [|x l IH]; [done|].
  rewrite filter_cons_True by (apply Hl; left).
  rewrite IH; [done|]. intros y Hy. apply Hl. by right.
Qed.

(** X15: where the ids of the tags are safe integers, [handleCancelTag] on
    the tag that [addNewTag] has just appended removes it again: the tags
    and the commands are as before [addNewTag] and no tag is being edited.
    A cancel on a tag that has a name leaves the tags as they are. *)
Theorem cancel_new_tag (st : State) :
  let newId := next_id (Tag.id <$> tags st) in
  Forall safe_integer (Tag.id <$> tags st) →
  tags (handleCancelTag newId (addNewTag st)) = tags st ∧
  editingTagId (handleCancelTag newId (addNewTag st)) = None ∧
  commands (handleCancelTag newId (addNewTag st)) = commands st ∧
  (∀ id tag, List.find (λ t, bool_decide (Tag.id t = id)) (tags st) = Some tag →
             Tag.name tag ≠ "" → tags (handleCancelTag id st) = tags st).
Proof.
  intros newId Hsafe.
  assert (Hold : ∀ t, t ∈ tags st → Tag.id t ≠ newId).
  { intros t Ht Heq. apply (next_id_fresh (Tag.id <$> tags st)); [done|].
    fold newId. rewrite <- Heq. apply list_elem_of_fmap. by exists t. }
  assert (Hfind : List.find (λ t, bool_decide (Tag.id t = newId))
                    (tags st ++ [Tag.mk newId "" "#3b82f6"])
                  = Some (Tag.mk newId "" "#3b82f6")).
  { apply find_app_last.
    - intros t Ht. apply bool_decide_eq_false. by apply Hold.
    - by apply bool_decide_eq_true. }
  unfold handleCancelTag, addNewTag. fold newId. simpl. rewrite Hfind. simpl.
  split_and!; try done.
  - rewrite filter_app, filter_cons_False, filter_nil, app_nil_r
      by (simpl; tauto).
    by apply filter_all.
  - intros id tag -> Hname. unfold truthy.
    by rewrite bool_decide_eq_true_2 by done.
Qed.

(** X16: [filteredCommands] is a sublist of the commands, in their order.
    [all] keeps every command, [favorites] the favorites, [give] and
    [spawn] the commands of that category; only a name other than these
    four filters by tag, so a tag with one of these names is never
    used as a tag filter. *)
Theorem filteredCommands_spec (name : string) (cmds : list Command.t) :
  filteredCommands name cmds `sublist_of` cmds ∧
  ∀ c, c ∈ filteredCommands name cmds ↔
       c ∈ cmds ∧
       (name = "all" ∨
        (name = "favorites" ∧ Command.favorite c = true) ∨
        (name ∈ ["give"; "spawn"] ∧ Command.category c = Some name) ∨
        ((name ∉ ["all"; "favorites"; "give"; "spawn"]) ∧
         name ∈ Command.tags c)).
Proof.
  assert (Hreserved : ∀ s, s ∈ ["give"; "spawn"] ↔ s = "give" ∨ s = "spawn").
  { intros s. rewrite !elem_of_cons, elem_of_nil. tauto. }
  assert (Hfree : ∀ s, s ∉ ["all"; "favorites"; "give"; "spawn"] ↔
                       s ≠ "all" ∧ s ≠ "favorites" ∧ s ≠ "give" ∧ s ≠ "spawn").
  { intros s. rewrite !elem_of_cons, elem_of_nil. tauto. }
  unfold filteredCommands.
  case_bool_decide as Hall.
  { split; [done|]. intros c. split; [auto|by intros [? _]]. }
  case_bool_decide as Hfav.
  { split; [apply sublist_filter|]. intros c.
    rewrite list_elem_of_filter, Hreserved, Hfree. subst name.
    split; [intros [? ?]; split; [done|]; right; left; auto|].
    intros [Hc [?|[[_ ?]|[[[?|?] _]|[(_ & ? & _) _]]]]]; done. }
  simpl.
  case_bool_decide as Hgive.
  { split; [apply sublist_filter|]. intros c.
    rewrite list_elem_of_filter, Hreserved, Hfree. subst name.
    split; [intros [? ?]; split; [done|]; right; right; left; auto|].
    intros [Hc [?|[[? _]|[[_ ?]|[(_ & _ & ? & _) _]]]]]; done. }
  case_bool_decide as Hspawn.
  { split; [apply sublist_filter|]. intros c.
    rewrite list_elem_of_filter, Hreserved, Hfree. subst name.
    split; [intros [? ?]; split; [done|]; right; right; left; auto|].
    intros [Hc [?|[[? _]|[[_ ?]|[(_ & _ & _ & ?) _]]]]]; done. }
  split; [apply sublist_filter|]. intros c.
  rewrite list_elem_of_filter, Hreserved, Hfree.
  split; [intros [? ?]; split; [done|]; do 3 right; auto|].
  intros [Hc [?|[[? _]|[[[?|?] _]|[_ ?]]]]]; done.
Qed.

(** *** Saving a command *)

Lemma storage_set_stored key value (w : World) :
  (storage_set key value w).1 = true →
  StorageAdapter.get key (storage_set key value w).2 = Some value.
Proof.
  unfold storage_set, StorageAdapter.set, StorageAdapter.set_try,
    StorageAdapter.get. simpl.
  destruct (negb (truthy value)); [done|].
  destruct (_ <? _)%N; [done|].
  destruct (storage_accepts _ _ _); [|done].
  intros _. apply lookup_insert_eq.
Qed.

Lemma storage_set_refused key value (w : World) :
  (storage_set key value w).1 = false →
  localStorage (storage_set key value w).2 = localStorage w.
Proof.
  unfold storage_set, StorageAdapter.set, StorageAdapter.set_try. simpl.
  destruct (negb (truthy value)); [done|].
  destruct (_ <? _)%N; [done|].
  by destruct (storage_accepts _ _ _).
Qed.

Lemma replace_command_ids (updated : Command.t) (cs : list Command.t) :
  Command.id <$> replace_command updated cs = Command.id <$> cs.
Proof.
  unfold replace_command. rewrite <- list_fmap_compose.
  apply list_fmap_ext. intros _ c _. simpl.
  by destruct (decide (Command.id c = Command.id updated)).
Qed.

Lemma find_id_none (id : Z) (cs : list Command.t) :
  List.find (λ c, bool_decide (Command.id c = id)) cs = None ↔
  id ∉ Command.id <$> cs.
Proof.
  induction cs as [|c cs IH]; simpl.
  - split; [|done]. intros _ ?%elem_of_nil. done.
  - rewrite not_elem_of_cons. case_bool_decide as Hid.
    + split; [done|]. by intros [? _].
    + rewrite IH. split; [|by intros [_ ?]]. intros ?. split; [congruence|done].
Qed.

Lemma upsert_ids (updated : Command.t) (cs : list Command.t) :
  Command.id <$> upsert updated cs
  = if decide (Command.id updated ∈ Command.id <$> cs)
    then Command.id <$> cs
    else (Command.id <$> cs) ++ [Command.id updated].
Proof.
  unfold upsert.
  destruct (List.find _ cs) as [c|] eqn:Hfind.
  - rewrite replace_command_ids. rewrite decide_True; [done|].
    apply dec_stable. intros Hout. apply find_id_none in Hout. congruence.
  - apply find_id_none in Hfind. rewrite decide_False by done.
    by rewrite fmap_app.
Qed.

Lemma upsert_find (updated : Command.t) (cs : list Command.t) :
  List.find (λ c, bool_decide (Command.id c = Command.id updated))
    (upsert updated cs) = Some updated.
Proof.
  unfold upsert.
  destruct (List.find _ cs) as [c0|] eqn:Hfind.
  - revert Hfind. unfold replace_command.
    induction cs as [|c cs IH]; simpl; [done|].
    destruct (decide (Command.id c = Command.id updated)) as [Heq|Hne].
    + intros _. by rewrite bool_decide_eq_true_2.
    + rewrite !bool_decide_eq_false_2 by done. apply IH.
  - apply find_app_last; [|by apply bool_decide_eq_true].
    intros y Hy. apply bool_decide_eq_false. intros Heq.
    apply find_id_none in Hfind. apply Hfind. rewrite <- Heq.
    apply list_elem_of_fmap. by exists y.
Qed.

Lemma toasts_not_added (l : list Toast.t) (t : Toast.t) : l ≠ l ++ [t].
Proof.
  intros Heq. apply (f_equal length) in Heq. rewrite length_app in Heq.
  simpl in Heq. lia.
Qed.

(** X17: the outcomes of [handleSave]. It reports success only after the
    adapter has stored the JSON text of the edited command under
    [dst:<id>]; the command then stands in the list in place of the one
    with its id, or last, its name and command text are not empty, and the
    editor shows the success. In every other case the list of commands is
    as it was. A blank name or command text is refused before anything is
    written. Records under other keys, and the tags, are never touched. *)
Theorem handleSave_outcome (id : Z) (st : State) (ed : Editor) (w : World) :
  let updated := edited_command id st ed in
  let json := JSON_stringify_command updated in
  let saved := Toast.mk "Command saved successfully" success in
  let st' := (handleSave id st ed w).1.1 in
  let ed' := (handleSave id st ed w).1.2 in
  let w' := (handleSave id st ed w).2 in
  (toasts st' = toasts st ++ [saved] →
     StorageAdapter.get (command_key id) w' = Some json ∧
     commands st' = upsert updated (commands st) ∧
     List.find (λ c, bool_decide (Command.id c = id)) (commands st')
     = Some updated ∧
     Command.name updated ≠ "" ∧ Command.command updated ≠ "" ∧
     saving ed' = false ∧ saveSuccess ed' = true) ∧
  (toasts st' ≠ toasts st ++ [saved] → commands st' = commands st) ∧
  (trim (editName ed) = "" ∨ trim (editCommand ed) = "" →
     w' = w ∧ ed' = ed ∧
     toasts st'
     = toasts st ++ [Toast.mk "Both name and command are required!" error]) ∧
  (∀ key, key ≠ command_key id →
          StorageAdapter.get key w' = StorageAdapter.get key w) ∧
  tags st' = tags st.
Proof.
  intros updated json saved. unfold handleSave. fold updated. fold json.
  unfold truthy.
  destruct (decide (trim (editName ed) = "")) as [Hname|Hname].
  { rewrite (bool_decide_eq_false_2 (trim (editName ed) ≠ "")) by tauto. simpl.
    split_and!; try done. by intros [= ?]%app_inv_head. }
  rewrite (bool_decide_eq_true_2 (trim (editName ed) ≠ "")) by done.
  destruct (decide (trim (editCommand ed) = "")) as [Hcommand|Hcommand].
  { rewrite (bool_decide_eq_false_2 (trim (editCommand ed) ≠ "")) by tauto. simpl.
    split_and!; try done. by intros [= ?]%app_inv_head. }
  rewrite (bool_decide_eq_true_2 (trim (editCommand ed) ≠ "")) by done. simpl.
  destruct window_storage; simpl.
  2: { split_and!; try done; [by intros [= ?]%app_inv_head|by intros [?|?]]. }
  destruct (_ <? _)%N; simpl.
  { split_and!; try done; [by intros [= ?]%app_inv_head|by intros [?|?]]. }
  pose proof (storage_set_stored (command_key id) json w) as Hstored.
  assert (Hframe : ∀ key, key ≠ command_key id →
            StorageAdapter.get key (storage_set (command_key id) json w).2
            = StorageAdapter.get key w).
  { intros key Hne. by apply get_storage_set_ne. }
  destruct (storage_set (command_key id) json w) as [[] w1]; simpl in *.
  - destruct (isMounted st) eqn:Hmounted; simpl.
    + split_and!; try done; [|by intros [?|?]].
      intros _. split_and!; auto. apply (upsert_find updated).
    + split_and!; try done; [by intros ?%toasts_not_added|by intros [?|?]].
  - split_and!; try done; [by intros [= ?]%app_inv_head|by intros [?|?]].
Qed.

Lemma handleSave_commands (id : Z) (st : State) (ed : Editor) (w : World) :
  commands (handleSave id st ed w).1.1 = commands st ∨
  commands (handleSave id st ed w).1.1
  = upsert (edited_command id st ed) (commands st).
Proof.
  unfold handleSave.
  destruct (negb (truthy _) || negb (truthy _)); [by left|].
  destruct (negb window_storage); [by left|].
  destruct (_ <? _)%N; [by left|].
  destruct (storage_set _ _ w) as [[] w1]; simpl; [|by left].
  destruct (isMounted st); simpl; [by right|by left].
Qed.

(** X18: [handleSave] keeps the ids of the commands distinct; a save
    under an id that is present leaves the ids as they are. *)
Theorem handleSave_keeps_ids_distinct (id : Z) (st : State) (ed : Editor)
    (w : World) :
  NoDup (Command.id <$> commands st) →
  NoDup (Command.id <$> commands (handleSave id st ed w).1.1) ∧
  (id ∈ Command.id <$> commands st →
   Command.id <$> commands (handleSave id st ed w).1.1
   = Command.id <$> commands st).
Proof.
  intros Hids.
  destruct (handleSave_commands id st ed w) as [-> | ->]; [done|].
  rewrite upsert_ids. simpl. split.
  - destruct (decide (id ∈ Command.id <$> commands st)) as [Hin|Hout]; [done|].
    apply NoDup_app. split; [done|]. split; [|apply NoDup_singleton].
    by intros i Hi ->%list_elem_of_singleton.
  - intros Hin. by rewrite decide_True.
Qed.

(** *** Deleting a command *)

(** X19: [handleDelete]. Without the user's confirmation nothing changes.
    After a confirmed delete (with [window.storage] set) the record
    [dst:<id>] is absent and is not listed, every other record reads as
    before, and a mounted component shows the commands without the ones
    of that id and does not edit that id. No tag changes and the adapter's
    [set] is not called. *)
Theorem handleDelete_outcome (cmd : Command.t) (st : State) (ed : Editor)
    (w : World) :
  let key := command_key (Command.id cmd) in
  let st' := (handleDelete true cmd st ed w).1.1 in
  let ed' := (handleDelete true cmd st ed w).1.2 in
  let w' := (handleDelete true cmd st ed w).2 in
  handleDelete false cmd st ed w = (st, ed, w) ∧
  (window_storage = false → w' = w ∧ commands st' = commands st) ∧
  (window_storage = true →
     StorageAdapter.get key w' = None ∧
     (∀ key', key' ≠ key →
              StorageAdapter.get key' w' = StorageAdapter.get key' w) ∧
     (keys_enumerated → key ∉ StorageAdapter.list "dst:" w') ∧
     (isMounted st = true →
        commands st'
        = filter (λ c, Command.id c ≠ Command.id cmd) (commands st) ∧
        (∀ c, c ∈ commands st' ↔
              c ∈ commands st ∧ Command.id c ≠ Command.id cmd) ∧
        editingId ed' ≠ Some (Command.id cmd))) ∧
  tags st' = tags st ∧ set_calls w' = set_calls w.
Proof.
  intros key. unfold handleDelete. simpl. split; [done|].
  destruct window_storage; simpl.
  2: { by split_and!. }
  assert (Hgone : StorageAdapter.get key
                    (StorageAdapter.delete key w).2 = None).
  { unfold StorageAdapter.get, StorageAdapter.delete. simpl.
    apply lookup_delete_eq. }
  assert (Hframe : ∀ key', key' ≠ key →
            StorageAdapter.get key' (StorageAdapter.delete key w).2
            = StorageAdapter.get key' w).
  { intros key' Hne. unfold StorageAdapter.get, StorageAdapter.delete. simpl.
    apply lookup_delete_ne. intros Heq%string_app_inj. congruence. }
  assert (Hlist : keys_enumerated →
            key ∉ StorageAdapter.list "dst:" (StorageAdapter.delete key w).2).
  { intros Hkeys [_ Hsome]%adapter_list_elem_of; [|done].
    rewrite Hgone in Hsome. by destruct Hsome. }
  split; [done|]. split; [|by destruct (isMounted st)].
  intros _. split; [by destruct (isMounted st)|].
  split; [by destruct (isMounted st)|].
  split; [by destruct (isMounted st)|].
  intros ->. simpl. split; [done|]. split.
  - intros c. rewrite list_elem_of_filter. tauto.
  - case_bool_decide as Hid; simpl; done.
Qed.

(** *** Deleting a tag *)

Lemma remove_from_commands_world name cmds (st : State) (w : World) :
  (remove_from_commands name cmds st w).2
  = storage_set_all
      ((λ c, (command_key (Command.id c),
              JSON_stringify_command (remove_from_command name c))) <$>
       filter (λ c, name ∈ Command.tags c) cmds) w.
Proof.
  revert st w. induction cmds as [|cmd rest IH]; intros st w; [done|].
  simpl. rewrite filter_cons.
  destruct (decide (name ∈ Command.tags cmd)) as [Hin|Hout].
  - rewrite bool_decide_eq_true_2 by done. by rewrite IH.
  - rewrite bool_decide_eq_false_2 by done. by rewrite IH.
Qed.

Lemma remove_from_commands_state name cmds (st : State) (w : World) :
  (remove_from_commands name cmds st w).1
  = setCommands
      (λ cs, foldl (λ cs cmd, replace_command (remove_from_command name cmd) cs)
               cs (filter (λ c, name ∈ Command.tags c) cmds)) st.
Proof.
  revert st w. induction cmds as [|cmd rest IH]; intros st w.
  - by destruct st.
  - simpl. rewrite filter_cons.
    destruct (decide (name ∈ Command.tags cmd)) as [Hin|Hout].
    + rewrite bool_decide_eq_true_2 by done. by rewrite IH.
    + rewrite bool_decide_eq_false_2 by done. by rewrite IH.
Qed.

Lemma remove_each_fmap name (cmds cs : list Command.t) :
  NoDup (Command.id <$> cmds) →
  foldl (λ cs cmd, replace_command (remove_from_command name cmd) cs)
    cs (filter (λ c, name ∈ Command.tags c) cmds)
  = (λ c, match List.find (λ cmd, bool_decide (Command.id cmd = Command.id c) &&
                                  bool_decide (name ∈ Command.tags cmd)) cmds with
          | Some cmd => remove_from_command name cmd
          | None => c
          end) <$> cs.
Proof.
  revert cs. induction cmds as [|cmd rest IH]; intros cs Hids.
  - simpl. by rewrite list_fmap_id.
  - rewrite fmap_cons in Hids. apply NoDup_cons in Hids as [Hfresh Hids].
    rewrite filter_cons. simpl.
    destruct (decide (name ∈ Command.tags cmd)) as [Hin|Hout].
    + simpl. rewrite IH by done. unfold replace_command.
      rewrite <- list_fmap_compose. apply list_fmap_ext. intros _ c _. simpl.
      rewrite (bool_decide_eq_true_2 (name ∈ _)) by done.
      rewrite andb_true_r.
      destruct (decide (Command.id c = Command.id cmd)) as [Heq|Hne].
      * rewrite bool_decide_eq_true_2 by done.
        destruct (List.find _ rest) as [cmd'|] eqn:Hfind; [|done].
        apply find_some in Hfind as [Hcmd' Hid].
        apply andb_true_iff in Hid as [Hid _]. apply bool_decide_eq_true in Hid.
        destruct Hfresh. simpl in Hid. rewrite <- Hid.
        apply list_elem_of_fmap. exists cmd'. by rewrite list_elem_of_In.
      * by rewrite bool_decide_eq_false_2 by done.
    + rewrite IH by done. apply list_fmap_ext. intros _ c _. simpl.
      by rewrite (bool_decide_eq_false_2 (name ∈ _)), andb_false_r by done.
Qed.

Lemma remove_from_command_without name (c : Command.t) :
  name ∉ Command.tags c → remove_from_command name c = c.
Proof.
  intros Hout. unfold remove_from_command. rewrite filter_all; [by destruct c|].
  intros t Ht ->. done.
Qed.

Lemma remove_each_self name (cmds : list Command.t) :
  NoDup (Command.id <$> cmds) →
  foldl (λ cs cmd, replace_command (remove_from_command name cmd) cs)
    cmds (filter (λ c, name ∈ Command.tags c) cmds)
  = remove_from_command name <$> cmds.
Proof.
  intros Hids. rewrite remove_each_fmap by done.
  apply list_fmap_ext. intros i c Hc.
  destruct (List.find _ cmds) as [cmd|] eqn:Hfind.
  - apply find_some in Hfind as [Hcmd Hfound].
    apply andb_true_iff in Hfound as [Hid Hin].
    apply bool_decide_eq_true in Hid, Hin.
    apply list_elem_of_In, list_elem_of_lookup in Hcmd as [j Hj].
    assert (i = j) as <-.
    { eapply NoDup_lookup; [exact Hids| |]; rewrite list_lookup_fmap.
      - by rewrite Hc.
      - rewrite Hj. simpl. by rewrite Hid. }
    congruence.
  - destruct (decide (name ∈ Command.tags c)) as [Hin|Hout].
    + eapply find_none in Hfind.
      * rewrite !bool_decide_eq_true_2 in Hfind; done.
      * apply list_elem_of_In. by eapply list_elem_of_lookup_2.
    + by rewrite remove_from_command_without.
Qed.

(** X20: a confirmed [handleDeleteTag] of the tag [tag] in a mounted
    component whose commands have distinct ids. The tag's record is absent
    and not listed; the adapter's [set] is called once for every command
    that included the name, in the order of the list, with the name
    removed, and for no other command; the tags are those of other ids;
    no command includes the name; a filter on the name falls back to
    [all]. Where the adapter stores what it is given, the store holds the
    rewritten commands. Without confirmation nothing changes. *)
Theorem delete_tag_cascades (id : Z) (tag : Tag.t) (st : State) (g : Grid)
    (w : World) :
  let name := Tag.name tag in
  let writes :=
    (λ c, (command_key (Command.id c),
           JSON_stringify_command (remove_from_command name c))) <$>
    filter (λ c, name ∈ Command.tags c) (commands st) in
  let st' := (handleDeleteTag true id st g w).1.1 in
  let g' := (handleDeleteTag true id st g w).1.2 in
  let w' := (handleDeleteTag true id st g w).2 in
  window_storage = true →
  isMounted st = true →
  List.find (λ t, bool_decide (Tag.id t = id)) (tags st) = Some tag →
  NoDup (Command.id <$> commands st) →
  handleDeleteTag false id st g w = (st, g, w) ∧
  StorageAdapter.get (tag_key id) w' = None ∧
  (keys_enumerated → tag_key id ∉ StorageAdapter.list "dsttag:" w') ∧
  set_calls w' = set_calls w ++ writes ∧
  tags st' = filter (λ t, Tag.id t ≠ id) (tags st) ∧
  (∀ t, t ∈ tags st' → Tag.id t ≠ id) ∧
  commands st' = remove_from_command name <$> commands st ∧
  (∀ c, c ∈ commands st' → name ∉ Command.tags c) ∧
  (∀ c, c ∈ commands st → name ∉ Command.tags c →
        c ∈ commands st' ∧ command_key (Command.id c) ∉ writes.*1) ∧
  activeTag g' = (if decide (activeTag g = name) then "all" else activeTag g) ∧
  ((∀ kv, kv ∈ writes → storable kv.1 kv.2) →
   ∀ key value, (key, value) ∈ writes → StorageAdapter.get key w' = Some value).
Proof.
  intros name writes st' g' w' Hstorage Hmounted Hfind Hids.
  assert (Hrun : handleDeleteTag true id st g w
    = (addToast ("Tag " +:+ dq +:+ name +:+ dq +:+ " deleted successfully") success
         (setTags (filter (λ t, Tag.id t ≠ id))
            (setCommands (λ _, remove_from_command name <$> commands st) st)),
       if bool_decide (activeTag g = name) then setActiveTag "all" g else g,
       storage_set_all writes (StorageAdapter.delete (tag_key id) w).2)).
  { unfold handleDeleteTag. rewrite Hfind, Hstorage. simpl.
    pose proof (remove_from_commands_world name (commands st) st
                  (StorageAdapter.delete (tag_key id) w).2) as Hworld.
    pose proof (remove_from_commands_state name (commands st) st
                  (StorageAdapter.delete (tag_key id) w).2) as Hstate.
    fold name. simpl in Hworld, Hstate.
    destruct (remove_from_commands _ _ _ _) as [st1 w1].
    simpl in Hworld, Hstate. subst st1 w1. simpl. rewrite Hmounted.
    unfold addToast, setTags, setCommands. simpl.
    by rewrite remove_each_self by done. }
  assert (Hkeys : tag_key id ∉ writes.*1).
  { unfold writes. rewrite <- list_fmap_compose.
    intros (c & Hkey & _)%list_elem_of_fmap. simpl in Hkey.
    by apply tag_key_command_key in Hkey. }
  assert (Hgone : StorageAdapter.get (tag_key id) w' = None).
  { unfold w'. rewrite Hrun. simpl. rewrite get_storage_set_all_ne by done.
    unfold StorageAdapter.get, StorageAdapter.delete. simpl.
    apply lookup_delete_eq. }
  unfold st', g', w'. rewrite Hrun. simpl.
  split. { unfold handleDeleteTag. by rewrite Hfind. }
  split. { revert Hgone. unfold w'. by rewrite Hrun. }
  split. { intros Hk [_ Hsome]%adapter_list_elem_of; [|done].
           revert Hgone Hsome. unfold w'. rewrite Hrun. simpl.
           intros ->. by intros [? ?]. }
  split. { by rewrite set_calls_storage_set_all. }
  split; [done|].
  split. { by intros t [? _]%list_elem_of_filter. }
  split; [done|].
  split. { intros c (c0 & -> & _)%list_elem_of_fmap. simpl.
           by intros [? _]%list_elem_of_filter. }
  split. { intros c Hc Hout. split.
           - apply list_elem_of_fmap. exists c.
             by rewrite remove_from_command_without.
           - unfold writes. rewrite <- list_fmap_compose.
             intros (c0 & Hkey & [Hin0 Hc0]%list_elem_of_filter)%list_elem_of_fmap.
             simpl in Hkey. apply command_key_inj in Hkey.
             assert (c = c0) as -> by (by eapply (NoDup_fmap_elem_of Command.id)).
             done. }
  split. { case_bool_decide; [by rewrite decide_True|by rewrite decide_False]. }
  intros Hstorable key value Hin.
  apply get_storage_set_all; [by apply Forall_forall| |done].
  unfold writes. rewrite <- list_fmap_compose.
  apply (NoDup_fmap_2_strong _);
    [|apply NoDup_filter; by apply (NoDup_fmap_1 Command.id)].
  intros x y [_ Hx]%list_elem_of_filter [_ Hy]%list_elem_of_filter Hkey.
  simpl in Hkey. apply command_key_inj in Hkey.
  by eapply (NoDup_fmap_elem_of Command.id).
Qed.

(** *** Favorites *)

Lemma flip_favorite_twice (cmd : Command.t) : flip_favorite (flip_favorite cmd) = cmd.
Proof. destruct cmd. unfold flip_favorite. simpl. by rewrite negb_involutive. Qed.

Lemma replace_command_back (cmd updated : Command.t) (cs : list Command.t) :
  Command.id updated = Command.id cmd →
  NoDup (Command.id <$> cs) →
  cmd ∈ cs →
  replace_command cmd (replace_command updated cs) = cs.
Proof.
  intros Hid Hids Hcmd. unfold replace_command. rewrite <- list_fmap_compose.
  rewrite <- (list_fmap_id cs) at 2. apply list_fmap_ext. intros i c Hc. simpl.
  destruct (decide (Command.id c = Command.id updated)) as [Heq|Hne].
  - rewrite decide_True by done.
    eapply (NoDup_fmap_elem_of Command.id); [done|done| |congruence].
    by eapply list_elem_of_lookup_2.
  - by rewrite decide_False by congruence.
Qed.

(** X21: [toggleFavorite] negates the favorite flag of the command and
    nothing else. With [window.storage] set, the adapter is called with
    the JSON text of the command with its flag negated; the store holds
    that record where the adapter can store it; a mounted component
    (ids distinct) shows the negated command under its id, in place, and
    every command of another id, so that the command is listed under
    [favorites] exactly when it was not a favorite. A second toggle, on
    the negated command, gives back the list of commands and calls the
    adapter with the original record. *)
Theorem toggleFavorite_twice (cmd : Command.t) (st : State) (w : World) :
  let key := command_key (Command.id cmd) in
  let negated :=
    Command.mk (Command.id cmd) (Command.name cmd) (Command.command cmd)
      (Command.image cmd) (Command.tags cmd) (Command.category cmd)
      (negb (Command.favorite cmd)) in
  let first := toggleFavorite cmd st w in
  let second := toggleFavorite negated first.1 first.2 in
  cmd ∈ commands st →
  NoDup (Command.id <$> commands st) →
  commands second.1 = commands st ∧
  tags second.1 = tags st ∧
  (window_storage = true →
     set_calls first.2 = set_calls w ++ [(key, JSON_stringify_command negated)] ∧
     set_calls second.2
     = set_calls w ++ [ (key, JSON_stringify_command negated);
                        (key, JSON_stringify_command cmd) ] ∧
     (storable key (JSON_stringify_command negated) →
      StorageAdapter.get key first.2 = Some (JSON_stringify_command negated)) ∧
     (isMounted st = true →
        commands first.1 = replace_command negated (commands st) ∧
        List.find (λ c, bool_decide (Command.id c = Command.id cmd))
          (commands first.1) = Some negated ∧
        (∀ c, c ∈ commands st → Command.id c ≠ Command.id cmd →
              c ∈ commands first.1) ∧
        (negated ∈ filteredCommands "favorites" (commands first.1) ↔
         Command.favorite cmd = false) ∧
        (cmd ∈ filteredCommands "favorites" (commands st) ↔
         Command.favorite cmd = true))).
Proof.
  intros key negated first second Hcmd Hids.
  assert (Hnegated : negated = flip_favorite cmd) by reflexivity.
  clearbody negated. subst negated.
  assert (Hshown : List.find (λ c, bool_decide (Command.id c = Command.id cmd))
                     (replace_command (flip_favorite cmd) (commands st))
                   = Some (flip_favorite cmd)).
  { pose proof (upsert_find (flip_favorite cmd) (commands st)) as Hfind.
    unfold upsert in Hfind.
    destruct (List.find _ (commands st)) as [c|] eqn:Hc; [done|].
    apply find_id_none in Hc. destruct Hc.
    apply list_elem_of_fmap. by exists cmd. }
  assert (Hfavorites : ∀ cs c, c ∈ filteredCommands "favorites" cs ↔
                               c ∈ cs ∧ Command.favorite c = true).
  { intros cs c. unfold filteredCommands. simpl. rewrite list_elem_of_filter.
    tauto. }
  unfold second, first, toggleFavorite.
  rewrite flip_favorite_twice.
  destruct window_storage; simpl; [|by split_and!].
  assert (Hback : commands
            (if isMounted st
             then setCommands (replace_command cmd)
                    (setCommands (replace_command (flip_favorite cmd)) st)
             else st) = commands st).
  { destruct (isMounted st); [|done]. simpl. by apply replace_command_back. }
  destruct (isMounted st) eqn:Hmounted; simpl in *; rewrite ?Hmounted; simpl.
  - split; [done|]. split; [done|]. intros _.
    split; [by rewrite set_calls_storage_set|]. split.
    { rewrite !set_calls_storage_set. by rewrite <- app_assoc. }
    split; [by apply get_storage_set_storable|].
    intros _. split; [done|]. split; [done|]. split; [|split].
    + intros c Hc Hne. apply list_elem_of_fmap. exists c. simpl.
      by rewrite decide_False.
    + rewrite Hfavorites. simpl. split.
      * intros [_ Hflag]. by apply negb_true_iff in Hflag.
      * intros Hflag. split; [|by rewrite Hflag].
        apply list_elem_of_fmap. exists cmd. simpl. by rewrite decide_True.
    + rewrite Hfavorites. tauto.
  - split; [done|]. split; [done|]. intros _.
    split; [by rewrite set_calls_storage_set|]. split.
    { rewrite !set_calls_storage_set. by rewrite <- app_assoc. }
    split; [by apply get_storage_set_storable|]. done.
Qed.

End editors.

(** ** Image auto-fetching *)

Section auto_fetch.
Context `{Host}.

Lemma fetchDSTImage_requests_length (itemName : string) (w : World) :
  length (requests (fetchDSTImage itemName w).2) ≤ length (requests w) + 4.
Proof.
  destruct (fetchDSTImage_requests itemName w) as (n & Hn & -> & _).
  rewrite length_app, length_fmap, length_take. lia.
Qed.

Lemma fetch_images_nothing (mounted : bool) (snapshot : Grid)
    (cmds : list Command.t) (g : Grid) (w : World) :
  (∀ c, c ∈ cmds → has_image snapshot c = true) →
  fetch_images mounted snapshot cmds g w = (g, w).
Proof.
  intros Hall. induction cmds as [|cmd rest IH]; [done|]. simpl.
  destruct mounted; [|done]. simpl. rewrite (Hall cmd) by left.
  apply IH. intros c Hc. apply Hall. by right.
Qed.

Lemma fetch_images_spec (mounted : bool) (snapshot : Grid)
    (cmds : list Command.t) (g : Grid) (w : World) :
  let pending := filter (λ c, has_image snapshot c = false) cmds in
  let r := fetch_images mounted snapshot cmds g w in
  length (requests r.2) ≤ length (requests w) + 4 * length pending ∧
  set_calls r.2 = set_calls w ∧
  (∀ key, StorageAdapter.get key r.2 = StorageAdapter.get key w) ∧
  activeTag r.1 = activeTag g ∧
  (∀ id url, autoFetchedImages r.1 !! id = Some url →
             autoFetchedImages g !! id = Some url ∨
             url ≠ "" ∧ ∃ c, c ∈ pending ∧ Command.id c = id).
Proof.
  simpl. revert g w. induction cmds as [|cmd rest IH]; intros g w.
  { simpl. split_and!; try done; [lia|auto]. }
  cbn [fetch_images]. destruct mounted; [|simpl; split_and!; try done; [lia|auto]].
  cbn [negb]. rewrite filter_cons.
  destruct (has_image snapshot cmd) eqn:Himage.
  { rewrite decide_False by done. apply IH. }
  rewrite decide_True by done.
  pose proof (fetchDSTImage_requests_length (Command.name cmd) w) as Hlen.
  destruct (fetchDSTImage_frame (Command.name cmd) w) as [Hcalls _].
  pose proof (fetchDSTImage_records (Command.name cmd)) as Hrecords.
  specialize (λ key, Hrecords key w).
  destruct (fetchDSTImage (Command.name cmd) w) as [imageUrl w1].
  simpl in Hlen, Hcalls, Hrecords.
  match goal with
  | |- context [fetch_images true snapshot rest ?g1 w1] =>
      destruct (IH g1 w1) as (Hreq & Hset & Hget & Hactive & Hauto);
      assert (Hg1 : activeTag g1 = activeTag g ∧
                ∀ id url, autoFetchedImages g1 !! id = Some url →
                          autoFetchedImages g !! id = Some url ∨
                          url ≠ "" ∧ id = Command.id cmd)
  end.
  { destruct imageUrl as [url|]; [|by split; auto].
    destruct (truthy url) eqn:Hurl; [|by split; auto]. simpl. split; [done|].
    intros id url'. destruct (decide (id = Command.id cmd)) as [->|Hne].
    - rewrite lookup_insert_eq. intros [= <-]. right.
      by apply bool_decide_eq_true in Hurl.
    - rewrite lookup_insert_ne by done. auto. }
  destruct Hg1 as [Hactive1 Hauto1].
  split; [simpl; lia|]. split; [congruence|].
  split; [intros key; by rewrite Hget|]. split; [congruence|].
  intros id url Hid. destruct (Hauto id url Hid) as [Hfound|[Hurl (c & Hc & Hcid)]].
  - destruct (Hauto1 id url Hfound) as [?|[? ->]]; [by left|].
    right. split; [done|]. exists cmd. split; [left|done].
  - right. split; [done|]. exists c. split; [by right|done].
Qed.

(** X22: the effect that fetches images asks the wiki at most four times
    for each command that has no image of its own, no fetched image and no
    fetch under way, and asks nothing when there is no such command. It
    writes no record of the adapter, and an image that it adds to
    [autoFetchedImages] is not empty and belongs to such a command. *)
Theorem auto_fetch_is_bounded (st : State) (g : Grid) (w : World) :
  let pending := filter (λ c, has_image g c = false) (commands st) in
  let r := fetchImagesForCommands st g w in
  length (requests r.2) ≤ length (requests w) + 4 * length pending ∧
  (pending = [] → r = (g, w)) ∧
  (∀ c, c ∈ pending → Command.image c = "") ∧
  set_calls r.2 = set_calls w ∧
  (∀ key, StorageAdapter.get key r.2 = StorageAdapter.get key w) ∧
  (∀ id url, autoFetchedImages r.1 !! id = Some url →
             autoFetchedImages g !! id = Some url ∨
             url ≠ "" ∧ ∃ c, c ∈ pending ∧ Command.id c = id).
Proof.
  intros pending r.
  assert (Hr : r = (g, w) ∨
               r = fetch_images (isMounted st) g (commands st) g w).
  { unfold r, fetchImagesForCommands. destruct (isMounted st); [|by left].
    simpl. destruct (commands st); [by left|by right]. }
  pose proof (fetch_images_spec (isMounted st) g (commands st) g w)
    as (Hreq & Hset & Hget & _ & Hauto).
  split_and!.
  - destruct Hr as [-> | ->]; [simpl; lia|done].
  - intros Hnone. destruct Hr as [-> | ->]; [done|].
    apply fetch_images_nothing. intros c Hc.
    destruct (has_image g c) eqn:Himage; [done|].
    assert (c ∈ pending) as Hin by (by apply list_elem_of_filter).
    rewrite Hnone in Hin. by apply elem_of_nil in Hin.
  - intros c [Himage _]%list_elem_of_filter. unfold has_image in Himage.
    apply orb_false_iff in Himage as [Himage _].
    apply orb_false_iff in Himage as [Himage _].
    apply bool_decide_eq_false in Himage. by apply dec_stable.
  - by destruct Hr as [-> | ->].
  - by destruct Hr as [-> | ->].
  - destruct Hr as [-> | ->]; [auto|done].
Qed.

End auto_fetch.

(** ** What a load shows *)

Section loaded.
Context `{Host}.

Lemma default_commands_sorted :
  StronglySorted (λ a b, (Command.id a ≤ Command.id b)%Z) DEFAULT_COMMANDS.
Proof. repeat (constructor; [|repeat constructor; simpl; lia]). constructor. Qed.

Lemma default_tags_sorted :
  StronglySorted (λ a b, (Tag.id a ≤ Tag.id b)%Z) DEFAULT_TAGS.
Proof. repeat (constructor; [|repeat constructor; simpl; lia]). constructor. Qed.

Lemma load_records_elem_of {A} (parse : string → option A)
    (keys : list string) (w : World) (x : A) :
  x ∈ load_records parse keys w →
  ∃ key value, key ∈ keys ∧ StorageAdapter.get key w = Some value ∧
               value ≠ "" ∧ parse value = Some x.
Proof.
  unfold load_records. intros (key & Hkey & Hx)%list_elem_of_omap.
  destruct (StorageAdapter.get key w) as [value|] eqn:Hget; [|done].
  destruct (truthy value) eqn:Hvalue; [|done].
  exists key, value. split_and!; try done. by apply bool_decide_eq_true in Hvalue.
Qed.

Lemma load_records_shown {A} (parse : string → option A)
    (keys : list string) (w : World) (key value : string) :
  key ∈ keys → StorageAdapter.get key w = Some value → value ≠ "" →
  is_Some (parse value) →
  ∃ x, parse value = Some x ∧ x ∈ load_records parse keys w.
Proof.
  intros Hkey Hget Hvalue [x Hparse]. exists x. split; [done|].
  unfold load_records. apply list_elem_of_omap. exists key. split; [done|].
  rewrite Hget. unfold truthy. by rewrite bool_decide_eq_true_2.
Qed.

Lemma adapter_list_startsWith (pfx key : string) (w : World) :
  key ∈ StorageAdapter.list pfx w → startsWith key pfx = true.
Proof.
  unfold StorageAdapter.list. rewrite list_elem_of_fmap.
  intros (k & -> & [Hm%Is_true_true Hk]%list_elem_of_filter).
  apply matches_spec in Hm as [rest ->].
  rewrite substring_from_app. apply startsWith_spec. by exists rest.
Qed.

Lemma initializeDefaultTags_commands (key : string) (w : World) :
  startsWith key "dst:" = true →
  StorageAdapter.get key (initializeDefaultTags w) = StorageAdapter.get key w.
Proof.
  intros [rest ->]%startsWith_spec.
  unfold initializeDefaultTags.
  generalize DEFAULT_TAGS. intros ts. revert w.
  induction ts as [|t ts IH]; intros w; [done|]. simpl.
  destruct window_storage; [|apply IH]. rewrite IH.
  apply get_storage_set_ne. unfold tag_key. simpl. discriminate.
Qed.

(** X23: [loadData] in a mounted component, on a store whose non-empty
    records under [dsttag:] and [dst:] denote tags and commands. The
    commands and the tags it shows are sorted by id, ascending, and
    [loading] is off. Every command shown is a default or the parse of a
    non-empty record of the store as [loadData] leaves it; every tag shown
    is a default or the parse of a non-empty record of the store as found.
    The commands shown are the defaults, or every non-empty record that
    the adapter lists under [dst:] is shown; likewise the tags and the
    records under [dsttag:]. *)
Theorem loadData_sorted (st : State) (w : World) :
  let st' := (loadData st w).1 in
  let w' := (loadData st w).2 in
  isMounted st = true →
  records_well_formed w →
  StronglySorted (λ a b, (Command.id a ≤ Command.id b)%Z) (commands st') ∧
  StronglySorted (λ a b, (Tag.id a ≤ Tag.id b)%Z) (tags st') ∧
  loading st' = false ∧
  (∀ c, c ∈ commands st' →
        c ∈ DEFAULT_COMMANDS ∨
        ∃ key value, StorageAdapter.get key w' = Some value ∧ value ≠ "" ∧
                     JSON_parse_command value = Some c) ∧
  (∀ t, t ∈ tags st' →
        t ∈ DEFAULT_TAGS ∨
        ∃ key value, StorageAdapter.get key w = Some value ∧ value ≠ "" ∧
                     JSON_parse_tag value = Some t) ∧
  (commands st' = DEFAULT_COMMANDS ∨
   ∀ key value,
     key ∈ StorageAdapter.list "dst:" w' →
     StorageAdapter.get key w' = Some value → value ≠ "" →
     ∃ c, JSON_parse_command value = Some c ∧ c ∈ commands st') ∧
  (tags st' = DEFAULT_TAGS ∨
   ∀ key value,
     key ∈ StorageAdapter.list "dsttag:" w →
     StorageAdapter.get key w = Some value → value ≠ "" →
     ∃ t, JSON_parse_tag value = Some t ∧ t ∈ tags st').
Proof.
  intros st' w' Hmounted Hwf. unfold st', w', loadData.
  destruct window_storage.
  2: { repeat (progress (simpl; rewrite ?Hmounted)).
       split_and!; auto using default_commands_sorted, default_tags_sorted. }
  assert (Htags_shown : ∀ key value,
            key ∈ StorageAdapter.list "dsttag:" w →
            StorageAdapter.get key w = Some value → value ≠ "" →
            ∃ t, JSON_parse_tag value = Some t ∧
                 t ∈ sort_by Tag.id
                       (load_records JSON_parse_tag
                          (StorageAdapter.list "dsttag:" w) w)).
  { intros key value Hkey Hget Hvalue.
    destruct (load_records_shown JSON_parse_tag _ w key value Hkey Hget Hvalue)
      as (t & Hparse & Ht).
    - apply (Hwf key value Hget Hvalue). by eapply adapter_list_startsWith.
    - exists t. split; [done|]. by rewrite sort_by_Permutation. }
  assert (Hcommands_shown : ∀ w1 key value,
            (∀ k, startsWith k "dst:" = true →
                  StorageAdapter.get k w1 = StorageAdapter.get k w) →
            key ∈ StorageAdapter.list "dst:" w1 →
            StorageAdapter.get key w1 = Some value → value ≠ "" →
            ∃ c, JSON_parse_command value = Some c ∧
                 c ∈ sort_by Command.id
                       (load_records JSON_parse_command
                          (StorageAdapter.list "dst:" w1) w1)).
  { intros w1 key value Hsame Hkey Hget Hvalue.
    pose proof (adapter_list_startsWith _ _ _ Hkey) as Hstarts.
    destruct (load_records_shown JSON_parse_command _ w1 key value
                Hkey Hget Hvalue) as (c & Hparse & Hc).
    - apply (Hwf key value); [|done..]. by rewrite <- Hsame.
    - exists c. split; [done|]. by rewrite sort_by_Permutation. }
  destruct (StorageAdapter.list "dsttag:" w) as [|tagKey tagKeys] eqn:Htags.
  - rewrite Hmounted.
    pose proof (Hcommands_shown (initializeDefaultTags w)) as Hshown.
    destruct (StorageAdapter.list "dst:" (initializeDefaultTags w))
      as [|cmdKey cmdKeys] eqn:Hcmds;
      repeat (progress (cbn [fst snd isMounted setTags setCommands setLoading
                            commands tags loading]; rewrite ?Hmounted)).
    + split_and!; auto using default_commands_sorted, default_tags_sorted.
    + split_and!; auto using default_tags_sorted.
      * apply sort_by_sorted.
      * intros c Hc. right. rewrite sort_by_Permutation in Hc.
        apply load_records_elem_of in Hc as (key & value & _ & ? & ? & ?).
        eauto.
      * right. intros key value. rewrite Hcmds. apply Hshown.
        intros k. apply initializeDefaultTags_commands.
  - rewrite Hmounted.
    pose proof (Hcommands_shown w) as Hshown.
    destruct (StorageAdapter.list "dst:" w) as [|cmdKey cmdKeys] eqn:Hcmds;
      repeat (progress (cbn [fst snd isMounted setTags setCommands setLoading
                            commands tags loading]; rewrite ?Hmounted)).
    + split_and!; auto using default_commands_sorted.
      * apply sort_by_sorted.
      * intros t Ht. right. rewrite sort_by_Permutation in Ht.
        apply load_records_elem_of in Ht as (key & value & _ & ? & ? & ?).
        eauto.
    + split_and!; try done.
      * apply sort_by_sorted.
      * apply sort_by_sorted.
      * intros c Hc. right. rewrite sort_by_Permutation in Hc.
        apply load_records_elem_of in Hc as (key & value & _ & ? & ? & ?).
        eauto.
      * intros t Ht. right. rewrite sort_by_Permutation in Ht.
        apply load_records_elem_of in Ht as (key & value & _ & ? & ? & ?).
        eauto.
      * right. intros key value. rewrite Hcmds. by apply Hshown.
      * by right.
Qed.

Lemma handleSave_success (id : Z) (st : State) (ed : Editor) (w : World) :
  let json := JSON_stringify_command (edited_command id st ed) in
  toasts (handleSave id st ed w).1.1
  = toasts st ++ [Toast.mk "Command saved successfully" success] →
  window_storage = true ∧
  (storage_set (command_key id) json w).1 = true ∧
  (handleSave id st ed w).2 = (storage_set (command_key id) json w).2.
Proof.
  simpl. unfold handleSave.
  destruct (negb (truthy _) || negb (truthy _)).
  { simpl. by intros [= ?]%app_inv_head. }
  destruct window_storage; simpl.
  2: { by intros [= ?]%app_inv_head. }
  destruct (_ <? _)%N; simpl.
  { by intros [= ?]%app_inv_head. }
  destruct (storage_set _ _ w) as [[] w1]; simpl.
  - destruct (isMounted st); simpl; [done|]. by intros ?%toasts_not_added.
  - by intros [= ?]%app_inv_head.
Qed.

Lemma storage_set_value key value (w : World) :
  (storage_set key value w).1 = true → value ≠ "".
Proof.
  unfold storage_set, StorageAdapter.set, StorageAdapter.set_try, truthy. simpl.
  case_bool_decide; [done|]. simpl. done.
Qed.

Lemma loadData_commands (st : State) (w : World) :
  window_storage = true →
  isMounted st = true →
  ∃ w1, (∀ key, startsWith key "dst:" = true →
                StorageAdapter.get key w1 = StorageAdapter.get key w) ∧
        commands (loadData st w).1
        = match StorageAdapter.list "dst:" w1 with
          | [] => DEFAULT_COMMANDS
          | _ :: _ =>
              sort_by Command.id
                (load_records JSON_parse_command (StorageAdapter.list "dst:" w1) w1)
          end.
Proof.
  intros Hstorage Hmounted. destruct st as [cs ts l to eid en ec mounted].
  simpl in Hmounted. subst mounted. unfold loadData. rewrite Hstorage.
  destruct (StorageAdapter.list "dsttag:" w) as [|tagKey tagKeys].
  - exists (initializeDefaultTags w).
    split; [intros key; apply initializeDefaultTags_commands|].
    generalize (initializeDefaultTags w). intros w1.
    by destruct (StorageAdapter.list "dst:" w1).
  - exists w. split; [done|].
    by destruct (StorageAdapter.list "dst:" w).
Qed.

(** X24: a command that [handleSave] has reported as saved is shown after a
    reload. Where [localStorage.key] enumerates the store, the command
    reads back from its JSON text, and the non-empty records of the store
    as the save left it denote tags and commands, the adapter lists
    [dst:<id>], and [loadData] in a mounted component, from that store,
    shows the command, together with the command of every other non-empty
    record that the adapter lists under [dst:]. *)
Theorem saved_command_reloads (id : Z) (st st0 : State) (ed : Editor)
    (w : World) :
  let updated := edited_command id st ed in
  let w' := (handleSave id st ed w).2 in
  keys_enumerated →
  toasts (handleSave id st ed w).1.1
  = toasts st ++ [Toast.mk "Command saved successfully" success] →
  JSON_parse_command (JSON_stringify_command updated) = Some updated →
  records_well_formed w' →
  isMounted st0 = true →
  command_key id ∈ StorageAdapter.list "dst:" w' ∧
  StorageAdapter.get (command_key id) w' = Some (JSON_stringify_command updated) ∧
  updated ∈ commands (loadData st0 w').1 ∧
  (∀ key value,
     key ∈ StorageAdapter.list "dst:" w' →
     StorageAdapter.get key w' = Some value → value ≠ "" →
     ∃ c, JSON_parse_command value = Some c ∧
          c ∈ commands (loadData st0 w').1).
Proof.
  intros updated w' Hkeys Hsaved Hparse Hwf Hmounted.
  destruct (handleSave_success id st ed w Hsaved) as (Hstorage & Hset & Hw').
  fold updated in Hset, Hw'. fold w' in Hw'.
  pose proof (storage_set_value _ _ _ Hset) as Hvalue.
  pose proof (storage_set_stored _ _ _ Hset) as Hget. rewrite <- Hw' in Hget.
  assert (Hstarts : startsWith (command_key id) "dst:" = true).
  { apply startsWith_spec. by exists (number_to_string id). }
  assert (Hlisted : command_key id ∈ StorageAdapter.list "dst:" w').
  { apply adapter_list_elem_of; [done|]. split; [done|]. by rewrite Hget. }
  split; [done|]. split; [done|].
  destruct (loadData_commands st0 w' Hstorage Hmounted) as (w1 & Hsame & ->).
  assert (Hlist : ∀ key, key ∈ StorageAdapter.list "dst:" w' →
                         key ∈ StorageAdapter.list "dst:" w1).
  { intros key [Hk Hsome]%adapter_list_elem_of; [|done].
    apply adapter_list_elem_of; [done|]. split; [done|]. by rewrite Hsame. }
  assert (Hshown : ∀ key value,
            key ∈ StorageAdapter.list "dst:" w' →
            StorageAdapter.get key w' = Some value → value ≠ "" →
            ∃ c, JSON_parse_command value = Some c ∧
                 c ∈ sort_by Command.id
                       (load_records JSON_parse_command
                          (StorageAdapter.list "dst:" w1) w1)).
  { intros key value Hkey Hgetk Hne.
    pose proof (adapter_list_startsWith _ _ _ Hkey) as Hk.
    destruct (load_records_shown JSON_parse_command
                (StorageAdapter.list "dst:" w1) w1 key value)
      as (c & Hc & Hin); [by apply Hlist|by rewrite Hsame|done| |].
    - by apply (Hwf key value Hgetk Hne).
    - exists c. split; [done|]. by rewrite sort_by_Permutation. }
  pose proof (Hlist _ Hlisted) as Hlisted1.
  destruct (StorageAdapter.list "dst:" w1) as [|k ks] eqn:Hlist1.
  { by apply elem_of_nil in Hlisted1. }
  split; [|done].
  destruct (Hshown _ _ Hlisted Hget Hvalue) as (c & Hc & Hin).
  rewrite Hparse in Hc. by injection Hc as <-.
Qed.

End loaded.

(** ** From the editor to the store *)

Section flows.
Context `{Host}.

Lemma find_id_unique (cmd : Command.t) (cs : list Command.t) :
  cmd ∈ cs →
  NoDup (Command.id <$> cs) →
  List.find (λ c, bool_decide (Command.id c = Command.id cmd)) cs = Some cmd.
Proof.
  intros Hcmd Hids.
  destruct (List.find _ cs) as [c|] eqn:Hfind.
  - apply find_some in Hfind as [Hc Hid]. apply bool_decide_eq_true in Hid.
    apply list_elem_of_In in Hc. f_equal.
    by eapply (NoDup_fmap_elem_of Command.id).
  - apply find_id_none in Hfind. destruct Hfind.
    apply list_elem_of_fmap. by exists cmd.
Qed.

Lemma replace_command_same (cmd : Command.t) (cs : list Command.t) :
  cmd ∈ cs → NoDup (Command.id <$> cs) → replace_command cmd cs = cs.
Proof.
  intros Hcmd Hids. unfold replace_command.
  rewrite <- (list_fmap_id cs) at 2. apply list_fmap_ext. intros i c Hc. simpl.
  destruct (decide (Command.id c = Command.id cmd)) as [Heq|]; [|done].
  eapply (NoDup_fmap_elem_of Command.id); [done|done| |done].
  by eapply list_elem_of_lookup_2.
Qed.

(** X25: a command that is opened in the editor and saved as it is stays
    as it is. For a command of the list (ids distinct) whose name, command
    text and image are trimmed and whose category is not the empty
    string, [handleSave] after [handleEdit] builds the command itself and
    leaves the list of commands as it was, whatever the adapter does; a
    reported success means that the store holds the command's JSON text. *)
Theorem edit_and_save_unchanged (cmd : Command.t) (st : State) (ed : Editor)
    (w : World) :
  let ed1 := handleEdit cmd ed in
  let r := handleSave (Command.id cmd) st ed1 w in
  cmd ∈ commands st →
  NoDup (Command.id <$> commands st) →
  trim (Command.name cmd) = Command.name cmd →
  trim (Command.command cmd) = Command.command cmd →
  trim (Command.image cmd) = Command.image cmd →
  Command.category cmd ≠ Some "" →
  edited_command (Command.id cmd) st ed1 = cmd ∧
  commands r.1.1 = commands st ∧
  (toasts r.1.1 = toasts st ++ [Toast.mk "Command saved successfully" success] →
   StorageAdapter.get (command_key (Command.id cmd)) r.2
   = Some (JSON_stringify_command cmd)).
Proof.
  intros ed1 r Hcmd Hids Hname Hcommand Himage Hcategory.
  assert (Hsame : edited_command (Command.id cmd) st ed1 = cmd).
  { unfold edited_command, ed1, handleEdit. simpl.
    rewrite find_id_unique, Hname, Hcommand, Himage by done.
    destruct cmd as [id name command image tags [category|] favorite]; simpl in *;
      [|done].
    unfold truthy. rewrite bool_decide_eq_true_2; [done|]. congruence. }
  split; [done|]. split.
  - destruct (handleSave_commands (Command.id cmd) st ed1 w) as [Heq|Heq];
      unfold r; rewrite Heq; [done|].
    rewrite Hsame. unfold upsert. rewrite find_id_unique by done.
    by apply replace_command_same.
  - intros Hsaved.
    destruct (handleSave_success (Command.id cmd) st ed1 w Hsaved)
      as (_ & Hset & Hw).
    unfold r. rewrite Hw. rewrite Hsame in Hset |- *.
    by apply storage_set_stored.
Qed.

Lemma rename_in_commands_none oldName newName (cmds : list Command.t)
    (st : State) (w : World) :
  (∀ c, c ∈ cmds → oldName ∉ Command.tags c) →
  rename_in_commands oldName newName cmds st w = (st, w).
Proof.
  intros Hnone. induction cmds as [|cmd rest IH]; [done|]. simpl.
  rewrite bool_decide_eq_false_2 by (apply Hnone; left).
  apply IH. intros c Hc. apply Hnone. by right.
Qed.

(** X26: a tag that is added, named and saved is appended to the tags.
    Where the ids of the tags are safe integers: after [addNewTag], a
    name that is not blank and differs, in lower case, from the names of
    the tags, and [handleSaveTag] on the new id (mounted, [window.storage]
    set, no command with the empty string among its tags), the tags are
    the former ones followed by the new tag with the trimmed name; the
    commands are as they were; no tag is being edited; the adapter was
    called once, for the new tag, and holds the record where it can store
    it. *)
Theorem new_tag_is_saved (name : string) (st : State) (w : World) :
  let newId := next_id (Tag.id <$> tags st) in
  let tag := Tag.mk newId (trim name) "#3b82f6" in
  let r := handleSaveTag newId (setEditTagName name (addNewTag st)) w in
  Forall safe_integer (Tag.id <$> tags st) →
  window_storage = true →
  isMounted st = true →
  trim name ≠ "" →
  (∀ t, t ∈ tags st → toLowerCase (Tag.name t) ≠ toLowerCase (trim name)) →
  (∀ c, c ∈ commands st → "" ∉ Command.tags c) →
  tags r.1 = tags st ++ [tag] ∧
  commands r.1 = commands st ∧
  editingTagId r.1 = None ∧
  set_calls r.2 = set_calls w ++ [(tag_key newId, JSON_stringify_tag tag)] ∧
  (storable (tag_key newId) (JSON_stringify_tag tag) →
   StorageAdapter.get (tag_key newId) r.2 = Some (JSON_stringify_tag tag)).
Proof.
  intros newId tag r Hsafe Hstorage Hmounted Hname Hfree Hnone.
  assert (Hold : ∀ t, t ∈ tags st → Tag.id t ≠ newId).
  { intros t Ht Heq. apply (next_id_fresh (Tag.id <$> tags st)); [done|].
    fold newId. rewrite <- Heq. apply list_elem_of_fmap. by exists t. }
  assert (Hfind : List.find (λ t, bool_decide (Tag.id t = newId))
                    (tags st ++ [Tag.mk newId "" "#3b82f6"])
                  = Some (Tag.mk newId "" "#3b82f6")).
  { apply find_app_last.
    - intros t Ht. apply bool_decide_eq_false. by apply Hold.
    - by apply bool_decide_eq_true. }
  assert (Htaken : name_taken newId (trim name)
                     (tags st ++ [Tag.mk newId "" "#3b82f6"]) = false).
  { destruct (name_taken _ _ _) eqn:Htaken; [|done].
    apply name_taken_spec in Htaken as (t & Ht & Hid & Hlower).
    apply elem_of_app in Ht as [Ht|Ht%list_elem_of_singleton].
    - by apply Hfree in Ht.
    - by subst t. }
  unfold r, handleSaveTag, addNewTag, setEditTagName. fold newId.
  cbn [editTagName editTagColor tags commands isMounted edit_tag setTags].
  unfold truthy. rewrite bool_decide_eq_true_2 by done. cbn [negb].
  rewrite Htaken, Hstorage, Hfind. cbn [negb Tag.name].
  rewrite bool_decide_eq_true_2 by congruence.
  rewrite rename_in_commands_none by done.
  cbn [isMounted]. rewrite Hmounted. cbn.
  split_and!; try done.
  - rewrite fmap_app. f_equal.
    + rewrite <- (list_fmap_id (tags st)) at 2. apply list_fmap_ext.
      intros i t Ht. simpl. rewrite decide_False; [done|].
      apply Hold. by eapply list_elem_of_lookup_2.
    + simpl. by rewrite decide_True.
  - by rewrite set_calls_storage_set.
  - apply get_storage_set_storable.
Qed.

End flows.


(** ** The further properties on concrete inputs *)

Lemma list_lists_stored_witness :
  "dst:1" ∈ @StorageAdapter.list offline "dst:" three_records ∧
  "dsttag:1" ∉ @StorageAdapter.list offline "dst:" three_records.
Proof.
  destruct (@list_lists_stored offline "dst:" three_records
              (reference_keys_enumerated _ _ _)) as [_ Hlist].
  split.
  - apply Hlist. split; [reflexivity|]. exists "a". reflexivity.
  - intros Hin. apply Hlist in Hin as [Hstarts _]. discriminate Hstarts.
Defined.

Lemma clear_outcome_witness :
  let w' := (@Adapter.clear offline no_faults three_records).2 in
  (@Adapter.clear offline no_faults three_records).1 = true ∧
  StorageAdapter.get "dst:1" w' = None ∧
  @StorageAdapter.list offline "" w' = [] ∧
  localStorage w' !! image_key "spider" = Some "c".
Proof.
  destruct (@clear_outcome offline no_faults three_records
              (reference_keys_enumerated _ _ _))
    as (Hgone & Htrue & _ & _ & _ & _ & Himage).
  assert ((@Adapter.clear offline no_faults three_records).1 = true) as Hresult.
  { apply Htrue; [reflexivity|]. intros ls k. reflexivity. }
  destruct (Hgone Hresult) as (Hget & Hlist & _).
  split; [exact Hresult|]. split; [apply Hget|]. split; [apply Hlist|].
  rewrite (Himage "spider"). reflexivity.
Defined.

(** A store whose [removeItem] throws on the record of the tag: [clear]
    returns [false]; the image cache is as it was. *)
Example clear_on_a_faulty_store :
  let f := mkFaults (λ _, false) (λ _ k, bool_decide (k = "dst_app_dsttag:1")) in
  let r := @Adapter.clear offline f three_records in
  r.1 = false ∧
  StorageAdapter.get "dsttag:1" r.2 = Some "b" ∧
  localStorage r.2 !! image_key "spider" = Some "c" ∧
  @Adapter.clear offline (mkFaults (λ _, true) (λ _ _, false)) three_records
  = (false, three_records) ∧
  StorageAdapter.delete_on f "dsttag:1" three_records = (false, three_records).
Proof. vm_compute. repeat split; reflexivity. Qed.

Lemma cache_stays_bounded_witness :
  JsMap.size (ImageCacheManager.run ImageCacheManager.empty
                (sets (numbered 150 "v")))
  ≤ ImageCacheManager.maxCacheSize.
Proof.
  apply cache_stays_bounded. intros key value Hin.
  apply list_elem_of_fmap in Hin as (kv & Heq & Hkv). injection Heq as -> _.
  assert (Hall : Forall (λ kv : string * string, kv.1 ≠ "") (numbered 150 "v")).
  { apply (bool_decide_unpack _). vm_compute. exact I. }
  rewrite Forall_forall in Hall. by apply Hall.
Defined.

Lemma full_cache_is_fifo_witness :
  let rest := numbered_from 2 99 "v" in
  ImageCacheManager.set (("1", "v") :: rest) "x" "w" = rest ++ [("x", "w")] ∧
  ImageCacheManager.get (ImageCacheManager.set (("1", "v") :: rest) "x" "w") "1"
  = None.
Proof.
  intros rest.
  destruct (full_cache_is_fifo "1" "v" rest "x" "w") as (_ & Hnew & Hgone & _).
  - discriminate.
  - apply (bool_decide_unpack _). vm_compute. exact I.
  - apply (bool_decide_unpack _). vm_compute. exact I.
  - split; [apply Hnew|apply Hgone; discriminate].
    apply (bool_decide_unpack _). vm_compute. exact I.
Defined.

(** The first resolution of [Spider] on the wiki, then a restart. *)
Lemma resolution_survives_restart_witness :
  let w1 := (@fetchDSTImage online "Spider" empty_world).2 in
  let w2 := restarted 5 w1 in
  (@fetchDSTImage online "Spider" w2).1 = Some "https://wiki/Spider_Portrait.png" ∧
  requests (@fetchDSTImage online "Spider" w2).2 = [].
Proof.
  intros w1 w2.
  destruct (@resolution_survives_restart online "Spider"
              "https://wiki/Spider_Portrait.png" empty_world w2)
    as (_ & Hsecond & Hrequests & _).
  - reflexivity.
  - reflexivity.
  - vm_compute. reflexivity.
  - reflexivity.
  - vm_compute. discriminate.
  - vm_compute. reflexivity.
  - reflexivity.
  - reflexivity.
  - vm_compute. reflexivity.
  - split; [exact Hsecond|exact Hrequests].
Defined.

Lemma names_share_a_slot_witness :
  let w1 := (@fetchDSTImage online "Spider" empty_world).2 in
  @fetchDSTImage online "  spider " w1
  = (Some "https://wiki/Spider_Portrait.png", w1).
Proof.
  intros w1.
  apply (@names_share_a_slot online "Spider" "  spider "
           "https://wiki/Spider_Portrait.png" empty_world).
  - vm_compute. reflexivity.
  - discriminate.
  - discriminate.
  - vm_compute. discriminate.
  - vm_compute. reflexivity.
Defined.

Lemma handleSave_keeps_ids_distinct_witness :
  let st := loaded_state DEFAULT_COMMANDS DEFAULT_TAGS "" in
  NoDup (Command.id <$>
         commands (@handleSave offline 4 st reveal_map_editor empty_world).1.1).
Proof.
  intros st.
  apply (@handleSave_keeps_ids_distinct offline 4 st reveal_map_editor empty_world).
  apply (bool_decide_unpack _). vm_compute. exact I.
Defined.

Lemma delete_tag_cascades_witness :
  let st := loaded_state four_commands DEFAULT_TAGS "" in
  let r := @handleDeleteTag offline true 1 st admin_grid empty_world in
  Command.tags <$> commands r.1.1 = [ []; ["Spawning"]; ["Items"]; ["Items"] ] ∧
  Tag.name <$> tags r.1.1 = ["Spawning"; "Items"] ∧
  activeTag r.1.2 = "all" ∧
  (set_calls r.2).*1 = ["dst:1"; "dst:4"] ∧
  StorageAdapter.get "dsttag:1" r.2 = None.
Proof.
  intros st r.
  destruct (@delete_tag_cascades offline 1 (Tag.mk 1 "Admin" "#ef4444") st
              admin_grid empty_world)
    as (_ & Hgone & _ & Hcalls & Htags & _ & Hcommands & _ & _ & Hactive & _).
  - reflexivity.
  - reflexivity.
  - reflexivity.
  - apply (bool_decide_unpack _). vm_compute. exact I.
  - unfold r. rewrite Hcommands, Htags, Hactive, Hcalls.
    split; [reflexivity|]. split; [reflexivity|]. split; [reflexivity|].
    split; [reflexivity|exact Hgone].
Defined.

Lemma toggleFavorite_twice_witness :
  let st := loaded_state DEFAULT_COMMANDS DEFAULT_TAGS "" in
  let cmd := Command.mk 1 "God Mode" "c_godmode()"
               "https://static.wikia.nocookie.net/dont-starve-game/images/4/42/Wilson_Portrait.png/revision/latest?cb=20160723191003"
               ["Admin"] None false in
  let negated := Command.mk 1 "God Mode" "c_godmode()"
               "https://static.wikia.nocookie.net/dont-starve-game/images/4/42/Wilson_Portrait.png/revision/latest?cb=20160723191003"
               ["Admin"] None true in
  let first := @toggleFavorite offline cmd st empty_world in
  commands (@toggleFavorite offline negated first.1 first.2).1
  = DEFAULT_COMMANDS ∧
  Command.favorite <$> commands first.1 = [true; false; true] ∧
  (set_calls first.2).*1 = ["dst:1"].
Proof.
  intros st cmd negated first.
  destruct (@toggleFavorite_twice offline cmd st empty_world)
    as (Hback & _ & Hstored).
  - left.
  - apply (bool_decide_unpack _). vm_compute. exact I.
  - destruct (Hstored eq_refl) as (Hcall & _ & _ & Hshown).
    destruct (Hshown eq_refl) as (Hcommands & _).
    split; [exact Hback|]. unfold first. rewrite Hcommands, Hcall.
    split; reflexivity.
Defined.

Lemma records_well_formed_store `{Host} (w : World) :
  map_Forall
    (λ fullKey value,
       value ≠ "" →
       (startsWith fullKey "dst_app_dsttag:" = true → is_Some (JSON_parse_tag value)) ∧
       (startsWith fullKey "dst_app_dst:" = true → is_Some (JSON_parse_command value)))
    (localStorage w) →
  records_well_formed w.
Proof.
  intros Hall key value Hget Hvalue.
  destruct (Hall _ _ Hget Hvalue) as [Htag Hcommand].
  split; intros [rest ->]%startsWith_spec.
  - apply Htag, startsWith_spec. by exists rest.
  - apply Hcommand, startsWith_spec. by exists rest.
Qed.

Lemma loadData_sorted_witness :
  let seeded := (@loadData offline initial_state empty_world).2 in
  let w := (@handleSave offline_saving 4
              (loaded_state DEFAULT_COMMANDS DEFAULT_TAGS "")
              reveal_map_editor seeded).2 in
  let st' := (@loadData offline_saving initial_state w).1 in
  @StorageAdapter.list offline_saving "dst:" w = ["dst:3"; "dst:1"; "dst:2"; "dst:4"] ∧
  Command.id <$> commands st' = [1; 2; 3; 4]%Z ∧
  Tag.id <$> tags st' = [1; 2; 3]%Z ∧
  StronglySorted (λ a b, (Command.id a ≤ Command.id b)%Z) (commands st').
Proof.
  intros seeded w st'.
  destruct (@loadData_sorted offline_saving initial_state w) as (Hsorted & _).
  - reflexivity.
  - apply records_well_formed_store.
    apply (bool_decide_unpack _). vm_compute. exact I.
  - split; [vm_compute; reflexivity|].
    split; [vm_compute; reflexivity|].
    split; [vm_compute; reflexivity|exact Hsorted].
Defined.

Lemma saved_command_reloads_witness :
  let st := loaded_state DEFAULT_COMMANDS DEFAULT_TAGS "" in
  let seeded := (@loadData offline initial_state empty_world).2 in
  let w' := (@handleSave offline_saving 4 st reveal_map_editor seeded).2 in
  @edited_command offline_saving 4 st reveal_map_editor
  ∈ commands (@loadData offline_saving initial_state w').1 ∧
  StorageAdapter.get "dst:4" w'
  = Some ("{" +:+ dq +:+ "id" +:+ dq +:+ ":4," +:+ dq +:+ "name" +:+ dq +:+ ":"
          +:+ dq +:+ "Reveal Map" +:+ dq +:+ "," +:+ dq +:+ "command" +:+ dq
          +:+ ":" +:+ dq +:+ "minimap.MiniMap:ShowArea(0,0,0,10000)" +:+ dq
          +:+ "," +:+ dq +:+ "image" +:+ dq +:+ ":" +:+ dq +:+ dq +:+ ","
          +:+ dq +:+ "tags" +:+ dq +:+ ":[" +:+ dq +:+ "Admin" +:+ dq +:+ "],"
          +:+ dq +:+ "category" +:+ dq +:+ ":null," +:+ dq +:+ "favorite" +:+ dq
          +:+ ":false}").
Proof.
  intros st seeded w'.
  destruct (@saved_command_reloads offline_saving 4 st initial_state
              reveal_map_editor seeded) as (_ & Hget & Hshown & _).
  - apply saving_keys_enumerated.
  - vm_compute. reflexivity.
  - vm_compute. reflexivity.
  - apply records_well_formed_store.
    apply (bool_decide_unpack _). vm_compute. exact I.
  - reflexivity.
  - split; [exact Hshown|].
    refine (eq_trans (y := Some _) Hget _). vm_compute. reflexivity.
Defined.

Lemma used_after_set_witness :
  @Adapter.used offline (@StorageAdapter.set offline "dst:2" "{}" three_records).2
  = (@Adapter.used offline three_records + (13 + 2))%N.
Proof.
  apply (@used_after_set offline "dst:2" "{}" three_records).
  - apply reference_keys_enumerated.
  - reflexivity.
  - reflexivity.
Defined.

Lemma edit_and_save_unchanged_witness :
  let st := loaded_state DEFAULT_COMMANDS DEFAULT_TAGS "" in
  let cmd := Command.mk 3 "Give Gold"
               ("c_give(" +:+ dq +:+ "goldnugget" +:+ dq +:+ ", 40)")
               "https://static.wikia.nocookie.net/dont-starve-game/images/9/92/Gold_Nugget.png/revision/latest?cb=20160723185614"
               ["Items"] (Some "give") true in
  commands (@handleSave offline 3 st (handleEdit cmd reveal_map_editor)
              empty_world).1.1
  = DEFAULT_COMMANDS.
Proof.
  intros st cmd.
  destruct (@edit_and_save_unchanged offline cmd st reveal_map_editor empty_world)
    as (_ & Hcommands & _).
  - right. right. left.
  - apply (bool_decide_unpack _). vm_compute. exact I.
  - reflexivity.
  - reflexivity.
  - reflexivity.
  - discriminate.
  - exact Hcommands.
Defined.

Lemma new_tag_is_saved_witness :
  let st := loaded_state DEFAULT_COMMANDS DEFAULT_TAGS "" in
  let r := @handleSaveTag offline 4 (setEditTagName " Bosses " (addNewTag st))
             empty_world in
  tags r.1 = DEFAULT_TAGS ++ [Tag.mk 4 "Bosses" "#3b82f6"] ∧
  commands r.1 = DEFAULT_COMMANDS.
Proof.
  intros st r.
  destruct (@new_tag_is_saved offline " Bosses " st empty_world)
    as (Htags & Hcommands & _).
  - unfold safe_integer. apply (bool_decide_unpack _). vm_compute. exact I.
  - reflexivity.
  - reflexivity.
  - vm_compute. discriminate.
  - apply Forall_forall. apply (bool_decide_unpack _). vm_compute. exact I.
  - apply Forall_forall. apply (bool_decide_unpack _). vm_compute. exact I.
  - split; [exact Htags|exact Hcommands].
Defined.

Lemma new_ids_are_fresh_witness :
  let st := loaded_state four_commands DEFAULT_TAGS "" in
  editingId (addNewCommand st reveal_map_editor) = Some 5%Z ∧
  editingTagId (addNewTag st) = Some 4%Z.
Proof.
  intros st.
  destruct (new_ids_are_fresh st reveal_map_editor)
    as (Hcommand & _ & Htag & _).
  - unfold safe_integer. apply (bool_decide_unpack _). vm_compute. exact I.
  - unfold safe_integer. apply (bool_decide_unpack _). vm_compute. exact I.
  - split; [exact Hcommand|exact Htag].
Defined.

Lemma cancel_new_tag_witness :
  let st := loaded_state DEFAULT_COMMANDS DEFAULT_TAGS "" in
  tags (handleCancelTag 4 (addNewTag st)) = DEFAULT_TAGS.
Proof.
  intros st. destruct (cancel_new_tag st) as (Htags & _).
  - unfold safe_integer. apply (bool_decide_unpack _). vm_compute. exact I.
  - exact Htags.
Defined.

Lemma cache_within_maximum_witness :
  let names := ["Spider"; "  "; "spider "; "Wilson"] in
  JsMap.size (ImageCacheManager.set_all ImageCacheManager.empty
                (take 150 (numbered 150 "v"))) ≤ 100 ∧
  JsMap.size (memoryCache (@resolve_all online (take 3 names) empty_world)) ≤ 100.
Proof.
  intros names.
  destruct (@cache_within_maximum online (numbered 150 "v") names empty_world 150)
    as (Hsets & _).
  - apply (bool_decide_unpack _). vm_compute. exact I.
  - reflexivity.
  - apply (bool_decide_unpack _). vm_compute. exact I.
  - destruct (@cache_within_maximum online (numbered 150 "v") names empty_world 3)
      as (_ & Hresolved & _).
    + apply (bool_decide_unpack _). vm_compute. exact I.
    + reflexivity.
    + apply (bool_decide_unpack _). vm_compute. exact I.
    + split; [exact Hsets|exact Hresolved].
Defined.

Lemma set_at_capacity_evicts_witness :
  let c := ImageCacheManager.set_all ImageCacheManager.empty (numbered 100 "v") in
  ImageCacheManager.get c "1" = Some "v" ∧
  ImageCacheManager.get (ImageCacheManager.set c "7" "w") "1" = None ∧
  JsMap.size (ImageCacheManager.set c "7" "w") = 99.
Proof.
  intros c.
  destruct (set_at_capacity_evicts (numbered 100 "v") "7" "w")
    as (oldest & Hfirst & _ & _ & _ & _ & _ & Hgone & _ & Hbelow & _).
  - apply (bool_decide_unpack _). vm_compute. exact I.
  - reflexivity.
  - assert (oldest = "1") as ->.
    { vm_compute in Hfirst. by injection Hfirst. }
    split; [reflexivity|]. split.
    + apply Hgone. discriminate.
    + apply Hbelow; [|discriminate].
      apply (bool_decide_unpack _). vm_compute. exact I.
Defined.
